(** * A shallow embedding of the baseline JPEG decoder

    The development follows the C++ sources of the decoder:
    - [bit_reader.cpp]  (class [BitReader]),
    - [huffman.cpp]     (class [HuffmanTree]),
    - [parsers.cpp]     (class [Parser]),
    - [fft.cpp]         (class [DctCalculator]),
    - [decoder.cpp]     ([Mult], [YCbCrToRGB], [IDCT], [Rationing]).

    Bytes and machine integers are values of [Z]; every conversion to a
    fixed-width C++ type is written out ([u8], [u16], [s16]).  A [std::vector]
    is a [list]; a [std::istream] is the list of the bytes it still holds. *)

From Stdlib Require Import ZArith List String Bool Lia Floats Uint63.
From Stdlib Require Import Permutation Sorted.
From Stdlib Require QArith Qround.
Import ListNotations.
Open Scope Z_scope.

(** ** Outcomes of a call

    A C++ call either returns, or throws an exception, or leaves defined
    behaviour without throwing (it reads an object that nothing has written,
    or indexes a vector past its end).  The third case is kept apart from the
    second: nothing is reported to the caller there.  [OutOfFuel] belongs to
    the model only: a [while] loop is unrolled a bounded number of times, and
    [OutOfFuel] says that the bound was too small. *)

Inductive result (A : Type) : Type :=
| Ok (a : A)
| Throw (what : string)
| Undefined (why : string)
| OutOfFuel.

Arguments Ok {A} a.
Arguments Throw {A} what.
Arguments Undefined {A} why.
Arguments OutOfFuel {A}.

Definition bind {A B : Type} (m : result A) (k : A -> result B) : result B :=
  match m with
  | Ok a => k a
  | Throw what => Throw what
  | Undefined why => Undefined why
  | OutOfFuel => OutOfFuel
  end.

Definition result_map {A B : Type} (f : A -> B) (m : result A) : result B :=
  bind m (fun a => Ok (f a)).

Definition is_Ok {A : Type} (m : result A) : bool :=
  match m with Ok _ => true | _ => false end.

Definition is_Throw {A : Type} (m : result A) : bool :=
  match m with Throw _ => true | _ => false end.

Definition is_OutOfFuel {A : Type} (m : result A) : bool :=
  match m with OutOfFuel => true | _ => false end.

Definition is_Undefined {A : Type} (m : result A) : bool :=
  match m with Undefined _ => true | _ => false end.

(** The call returned or threw. *)
Definition settled {A : Type} (m : result A) : bool := is_Ok m || is_Throw m.

Declare Scope result_scope.
Delimit Scope result_scope with result.
Notation "x <- m ;; k" := (bind m (fun x => k))
  (at level 61, m at next level, right associativity) : result_scope.
Notation "' p <- m ;; k" := (bind m (fun p => k))
  (at level 61, p pattern, m at next level, right associativity) : result_scope.
Open Scope result_scope.

(** ** Fixed-width integers *)

Definition u8 (x : Z) : Z := x mod 256.
Definition u16 (x : Z) : Z := x mod 65536.
(** Conversion to [int16_t]: the value modulo 2^16 in [-32768, 32767]. *)
Definition s16 (x : Z) : Z := (x + 32768) mod 65536 - 32768.

(** ** [std::istream] *)

(** [in.read(&c, 1)]: the byte read, if any, and the rest of the stream.
    At the end of the stream nothing is stored and the stream is failed; it
    stays empty, so every later read fails as well. *)
Definition istream_read (s : list Z) : option Z * list Z :=
  match s with
  | [] => (None, [])
  | c :: s' => (Some c, s')
  end.

(** ** bit_reader.cpp *)

Module BitReader.

Record t : Type := mk {
  in_ : list Z;
  buffer_ : Z;
  buffer_size_ : Z
}.

Definition kCharSz : Z := 8.

(** A reader over a fresh stream: [buffer_{0}], [buffer_size_{0}]. *)
Definition init (s : list Z) : t := mk s 0 0.

(** The block guarded by [if (buffer_size_ == 0)] in [ReadBits]. *)
Definition refill (r : t) : result t :=
  if buffer_size_ r =? 0 then
    match istream_read (in_ r) with
    | (None, _) => Throw "EOF"
    | (Some tmp, s1) =>
        if tmp =? 255 then
          match istream_read s1 with
          | (None, _) => Throw "Encountered marker instead of 0xFF"
          | (Some next_char, s2) =>
              if negb (next_char =? 0)
              then Throw "Encountered marker instead of 0xFF"
              else Ok (mk s2 tmp kCharSz)
          end
        else Ok (mk s1 tmp kCharSz)
    end
  else Ok r.

(** The body of [while (bits_cnt-- > 0)], once per requested bit. *)
Fixpoint ReadBits_loop (bits_cnt : nat) (res : Z) (r : t)
  : result (Z * t) :=
  match bits_cnt with
  | O => Ok (res, r)
  | S n =>
      r1 <- refill r ;;
      let res := u16 (Z.shiftl res 1) in
      let res :=
        Z.lor res (Z.land (Z.shiftr (buffer_ r1) (kCharSz - 1)) 1) in
      ReadBits_loop n res
        (mk (in_ r1) (u8 (Z.shiftl (buffer_ r1) 1)) (buffer_size_ r1 - 1))
  end.

Definition ReadBits (bits_cnt : Z) (r : t) : result (Z * t) :=
  if bits_cnt >? kCharSz * 2 then Throw "Trying to read many bytes"
  else ReadBits_loop (Z.to_nat bits_cnt) 0 r.

Definition ReadBitsSigned (bits_cnt : Z) (r : t) : result (Z * t) :=
  if bits_cnt =? 0 then Ok (0, r)
  else
    '(v, r1) <- ReadBits bits_cnt r ;;
    if negb (Z.land v (Z.shiftl 1 (bits_cnt - 1)) =? 0)
    then Ok (s16 v, r1)
    else Ok (s16 (v - (Z.shiftl 1 bits_cnt - 1)), r1).

(** [ReadByte] does not look at the state of the stream after [in_.read]:
    at the end of the stream it returns the local [data], which nothing
    has written. *)
Definition ReadByte (r : t) : result (Z * t) :=
  if negb (buffer_size_ r =? 0) then Throw "Bits not aligned"
  else
    match istream_read (in_ r) with
    | (Some data, s1) => Ok (u8 data, mk s1 (buffer_ r) (buffer_size_ r))
    | (None, _) => Undefined "ReadByte returns an uninitialised char"
    end.

Definition ReadWord (r : t) : result (Z * t) :=
  '(b1, r1) <- ReadByte r ;;
  let res := Z.lor 0 b1 in
  let res := u16 (Z.shiftl res kCharSz) in
  '(b2, r2) <- ReadByte r1 ;;
  Ok (Z.lor res b2, r2).

Definition Align (r : t) : t := mk (in_ r) 0 0.

(** The number of bytes the stream still holds. *)
Definition remaining (r : t) : nat := List.length (in_ r).

(** *** The signed extension of the specification

    An [n]-bit number whose top bit is 1 stands for itself; one whose top
    bit is 0 stands for [raw - (2^n - 1)]. *)
Definition signed_extension (n raw : Z) : Z :=
  if Z.testbit raw (n - 1) then raw else raw - (2 ^ n - 1).

(** *** The bit source without the stuffing rule

    The same source, except that a refill loads the byte it reads and
    nothing else: what the specification calls reading "as if only [FF]
    were present". *)
Definition refill_unstuffed (r : t) : result t :=
  if buffer_size_ r =? 0 then
    match istream_read (in_ r) with
    | (None, _) => Throw "EOF"
    | (Some tmp, s1) => Ok (mk s1 tmp kCharSz)
    end
  else Ok r.

Fixpoint ReadBits_unstuffed_loop (bits_cnt : nat) (res : Z) (r : t)
  : result (Z * t) :=
  match bits_cnt with
  | O => Ok (res, r)
  | S n =>
      r1 <- refill_unstuffed r ;;
      let res := u16 (Z.shiftl res 1) in
      let res :=
        Z.lor res (Z.land (Z.shiftr (buffer_ r1) (kCharSz - 1)) 1) in
      ReadBits_unstuffed_loop n res
        (mk (in_ r1) (u8 (Z.shiftl (buffer_ r1) 1)) (buffer_size_ r1 - 1))
  end.

Definition ReadBits_unstuffed (bits_cnt : Z) (r : t) : result (Z * t) :=
  if bits_cnt >? kCharSz * 2 then Throw "Trying to read many bytes"
  else ReadBits_unstuffed_loop (Z.to_nat bits_cnt) 0 r.

(** The encoder's side of the rule: every [FF] of the payload is followed
    by a [00]. *)
Fixpoint stuff (payload : list Z) : list Z :=
  match payload with
  | [] => []
  | b :: rest => if b =? 255 then 255 :: 0 :: stuff rest else b :: stuff rest
  end.

Definition stuffed (r : t) : t :=
  mk (stuff (in_ r)) (buffer_ r) (buffer_size_ r).

(** A run of reads, one per requested width, collecting the values. *)
Fixpoint read_all (read : Z -> t -> result (Z * t)) (widths : list Z) (r : t)
  : result (list Z * t) :=
  match widths with
  | [] => Ok ([], r)
  | n :: widths' =>
      '(v, r1) <- read n r ;;
      '(vs, r2) <- read_all read widths' r1 ;;
      Ok (v :: vs, r2)
  end.

End BitReader.

(** ** [std::vector] *)

(** [v[i] = f(v[i])] for an index inside the vector. *)
Fixpoint vector_update {A : Type} (i : nat) (f : A -> A) (v : list A) : list A :=
  match v, i with
  | [], _ => []
  | x :: v', O => f x :: v'
  | x :: v', S i' => x :: vector_update i' f v'
  end.

(** [for (T i = start; i < start + cnt; ++i) body], for a body that leaves
    [i] and the bound alone, and a bound that [T] can hold. *)
Fixpoint for_ {S : Type} (cnt : nat) (i : Z) (body : Z -> S -> result S) (s : S)
  : result S :=
  match cnt with
  | O => Ok s
  | Datatypes.S k => s1 <- body i s ;; for_ k (i + 1) body s1
  end.

(** ** huffman.cpp *)

Module HuffmanTree.

(** [struct Node]; the [shared_ptr] children are [None] when null. *)
#[local] Unset Elimination Schemes.
Inductive Node : Type :=
| mkNode (is_terminal : bool) (value : option Z) (left right : option Node).
#[local] Set Elimination Schemes.

Definition is_terminal (n : Node) : bool :=
  match n with mkNode b _ _ _ => b end.
Definition value (n : Node) : option Z :=
  match n with mkNode _ v _ _ => v end.
Definition left (n : Node) : option Node :=
  match n with mkNode _ _ l _ => l end.
Definition right (n : Node) : option Node :=
  match n with mkNode _ _ _ r => r end.

(** [std::make_shared<Node>()] and [std::make_shared<Node>(value, true)]. *)
Definition make_Node : Node := mkNode false None None None.
Definition make_leaf (v : Z) : Node := mkNode true (Some v) None None.

(** [class Impl]: [root_] and [state_].  [Build] starts with [Reset], so the
    root of a tree that was built is never null. *)
Record t : Type := mk {
  root_ : Node;
  state_ : option Node
}.

Definition Reset : t := mk make_Node (Some make_Node).

(** [AddNodeImpl], by recursion on the number [code_length - 1] of levels
    still to descend.  The nodes are mutated in place, so the node is
    returned next to the flag, also when the flag is [false]. *)
Fixpoint AddNodeImpl_levels (levels : nat) (v : Z) (now : Node) : bool * Node :=
  match now with
  | mkNode term nv l r =>
      if term then (false, now)
      else
        match levels with
        | O =>
            match l, r with
            | None, _ => (true, mkNode term nv (Some (make_leaf v)) r)
            | Some _, None => (true, mkNode term nv l (Some (make_leaf v)))
            | Some _, Some _ => (false, now)
            end
        | S k =>
            let l1 := match l with None => make_Node | Some n => n end in
            let (ok_l, l2) := AddNodeImpl_levels k v l1 in
            if ok_l then (true, mkNode term nv (Some l2) r)
            else
              let r1 := match r with None => make_Node | Some n => n end in
              let (ok_r, r2) := AddNodeImpl_levels k v r1 in
              (ok_r, mkNode term nv (Some l2) (Some r2))
        end
  end.

(** [code_length] is a [uint8_t]: [code_length - 1] wraps to 255 at 0. *)
Definition AddNodeImpl (code_length : Z) (v : Z) (now : Node) : bool * Node :=
  AddNodeImpl_levels (Z.to_nat (u8 (code_length - 1))) v now.

(** [AddNode] is called by [Build] only, after [Reset]: [state_] and
    [root_] point to the same node, which is mutated in place, so both see
    the new tree. *)
Definition AddNode (code_length : Z) (v : Z) (tree : t) : bool * t :=
  let (ok, root) := AddNodeImpl (u8 code_length) v (root_ tree) in
  (ok, mk root (Some root)).

(** [Move]: the flag, the value written to [value] when the flag is [true],
    and the tree with its new [state_]. *)
Definition Move (bit : bool) (tree : t) : result (option Z * t) :=
  match state_ tree with
  | None => Throw "State is nullptr"
  | Some st =>
      let need := if negb bit then left st else right st in
      match need with
      | None => Ok (None, mk (root_ tree) None)
      | Some n =>
          if negb (is_terminal n) then Ok (None, mk (root_ tree) (Some n))
          else
            match value n with
            | None => Throw "bad optional access"
            | Some v => Ok (Some v, mk (root_ tree) (Some (root_ tree)))
            end
      end
  end.

(** The number of nodes on the longest path from a node down. *)
Fixpoint height (n : Node) : nat :=
  match n with
  | mkNode _ _ l r =>
      S (Nat.max (match l with None => 0 | Some x => height x end)
                 (match r with None => 0 | Some x => height x end))
  end.

Definition state_height (tree : t) : nat :=
  match state_ tree with None => 0%nat | Some st => height st end.

(** The loop
    [while (code_lengths_new[now_length - 1] == 0 && now_length <= size)].
    [rest] is [code_lengths_new] from index [now_length - 1] on: the element
    read by the condition is its head.  The element is read before the bound
    is compared, so with [rest] empty the read is past the end of the
    vector. *)
Fixpoint skip_empty_lengths (rest : list Z) (size now_length : Z) : result Z :=
  match rest with
  | [] => Undefined "code_lengths_new[now_length - 1] read past the end"
  | x :: rest' =>
      if (x =? 0) && (now_length <=? size)
      then skip_empty_lengths rest' size (now_length + 1)
      else Ok now_length
  end.

(** The checks that follow the loop; [huffman/huffman.cpp] has two of them,
    [baseline/huffman.cpp] one. *)
Definition check_length (size now_length : Z) : result unit :=
  if now_length >? size then Throw "Too small code lengths sum"
  else if now_length >? 16 then Throw "Too big code length"
  else Ok tt.

Definition check_length_baseline (size now_length : Z) : result unit :=
  if now_length >? Z.min 16 size then Throw "Too big code length"
  else Ok tt.

(** The body of [for (const uint8_t value : values)]. *)
Definition Build_step (check : Z -> Z -> result unit) (size : Z) (v : Z)
    (st : list Z * Z * t) : result (list Z * Z * t) :=
  let '(code_lengths_new, now_length, tree) := st in
  now_length <-
    skip_empty_lengths (skipn (Z.to_nat (now_length - 1)) code_lengths_new)
      size now_length ;;
  _ <- check size now_length ;;
  let code_lengths_new :=
    vector_update (Z.to_nat (now_length - 1)) (fun x => u8 (x - 1))
      code_lengths_new in
  let (ok, tree) := AddNode now_length v tree in
  if negb ok then Throw "Something went wrong in node adding"
  else Ok (code_lengths_new, now_length, tree).

Fixpoint Build_loop (check : Z -> Z -> result unit) (size : Z) (values : list Z)
    (st : list Z * Z * t) : result (list Z * Z * t) :=
  match values with
  | [] => Ok st
  | v :: values' =>
      st1 <- Build_step check size v st ;;
      Build_loop check size values' st1
  end.

(** [std::reduce] over [uint8_t] elements adds in [uint8_t]. *)
Definition reduce_u8 (v : list Z) : Z :=
  fold_left (fun acc x => u8 (acc + x)) v 0.

Definition Build_with (check : Z -> Z -> result unit)
    (code_lengths values : list Z) : result t :=
  '(code_lengths_new, _, tree) <-
    Build_loop check (Z.of_nat (List.length code_lengths)) values
      (code_lengths, 1, Reset) ;;
  if reduce_u8 code_lengths_new >? 0 then Throw "Too big code length sum"
  else Ok tree.

Definition Build : list Z -> list Z -> result t := Build_with check_length.
Definition Build_baseline : list Z -> list Z -> result t :=
  Build_with check_length_baseline.

(** The state of the loop of [Build] before a value is placed: the lengths
    are bytes and those from [now_length] on still announce at least [k]
    codes. *)
Definition announces (size : Z) (k : nat) (st : list Z * Z * t) : Prop :=
  let '(code_lengths_new, now_length, _) := st in
  exists pre rest : list Z,
    code_lengths_new = pre ++ rest
    /\ Z.of_nat (List.length pre) = now_length - 1
    /\ Z.of_nat (List.length code_lengths_new) = size
    /\ Forall (fun x => 0 <= x < 256) code_lengths_new
    /\ Z.of_nat k <= fold_right Z.add 0 rest.

(** The calls [Move(bit, value)] for the bits of [code] in turn, up to the
    first that returns [true]: the value, the tree and the bits not used. *)
Fixpoint Move_along (code : list bool) (tree : t)
  : result (option Z * t * list bool) :=
  match code with
  | [] => Ok (None, tree, [])
  | bit :: code' =>
      '(ans, tree1) <- Move bit tree ;;
      match ans with
      | Some v => Ok (Some v, tree1, code')
      | None => Move_along code' tree1
      end
  end.

(** The child [Move] steps to. *)
Definition child (bit : bool) (n : Node) : option Node :=
  if negb bit then left n else right n.

(** [code] leads from [n] to a terminal node that holds [v], through nodes
    that are not terminal. *)
Fixpoint decodes (code : list bool) (v : Z) (n : Node) : Prop :=
  match code with
  | [] => False
  | bit :: code' =>
      match child bit n with
      | None => False
      | Some c =>
          if is_terminal c then code' = [] /\ value c = Some v
          else decodes code' v c
      end
  end.

(** Two calls end the same way: with the same value, or both by an
    exception ([huffman/huffman.cpp] tells "Too small code lengths sum"
    from "Too big code length", [baseline/huffman.cpp] does not), or by the
    same step out of defined behaviour. *)
Definition same_outcome {A : Type} (m1 m2 : result A) : Prop :=
  match m1, m2 with
  | Ok a1, Ok a2 => a1 = a2
  | Throw w1, Throw w2 =>
      w1 = w2
      \/ (w1 = "Too small code lengths sum"%string
          /\ w2 = "Too big code length"%string)
  | Undefined w1, Undefined w2 => w1 = w2
  | OutOfFuel, OutOfFuel => True
  | _, _ => False
  end.

End HuffmanTree.

(** ** parsers.h *)

Definition kU8Cnt : Z := 256.
Definition kU16Cnt : Z := 65536.

Module QuantumTable.
Record t : Type := mk { table_id : Z; data : list Z }.
End QuantumTable.

Module Huffman.
Record t : Type := mk { is_dc : bool; table_id : Z; tree : HuffmanTree.t }.
End Huffman.

Module ChannelMetadata.
Record t : Type := mk { channel_id : Z; h : Z; v : Z; quant_id : Z }.
(** [ChannelMetadata() = default] leaves the fields unset; the value only
    fills vectors whose entries are written before they are read. *)
Definition default : t := mk 0 0 0 0.
End ChannelMetadata.

Module ImageMetadata.
Record t : Type := mk {
  precision : Z;
  channels_cnt : Z;
  height : Z;
  width : Z;
  channels : list ChannelMetadata.t
}.

(** The constructor, with its check of the channel count. *)
Definition make (precision channels_cnt height width : Z)
    (channels : list ChannelMetadata.t) : result t :=
  if negb (channels_cnt =? Z.of_nat (List.length channels))
  then Throw "Channels size"
  else Ok (mk precision channels_cnt height width channels).

Fixpoint find_channel (channel_id : Z) (channels : list ChannelMetadata.t)
  : result ChannelMetadata.t :=
  match channels with
  | [] => Throw "No meta for channel"
  | c :: channels' =>
      if ChannelMetadata.channel_id c =? channel_id then Ok c
      else find_channel channel_id channels'
  end.

Definition GetMetaByChannelId (meta : t) (channel_id : Z)
  : result ChannelMetadata.t :=
  find_channel channel_id (channels meta).
End ImageMetadata.

Module ImageData.
Record t : Type := mk {
  channel_matrix : list (list (list Z));
  channel_ids : list Z;
  mcu_h : Z;
  mcu_w : Z
}.
End ImageData.

Module RawImage.
Record t : Type := mk {
  comment : list Z;
  data : ImageData.t;
  metadata : ImageMetadata.t;
  quantum_tables : list (option QuantumTable.t)
}.
End RawImage.

Module MarkerType.
Inductive t : Type :=
| BeginFile | EndFile | Comment | APPn | Quant | Meta | Huffman | Data.

Definition eqb (a b : t) : bool :=
  match a, b with
  | BeginFile, BeginFile | EndFile, EndFile | Comment, Comment
  | APPn, APPn | Quant, Quant | Meta, Meta | Huffman, Huffman
  | Data, Data => true
  | _, _ => false
  end.
End MarkerType.

(** ** parsers.cpp *)

Module Parser.

Definition kLowestByteMask : Z := 15.
Definition kBlockSz : Z := 64.

Definition GetPairHash (a : Z) (b : bool) : Z :=
  u16 (Z.lor (Z.shiftl (u16 a) 1) (if b then 1 else 0)).

Definition kZigZagMap : list Z :=
  [ 0;  1;  5;  6; 14; 15; 27; 28;  2;  4;  7; 13; 16; 26; 29; 42;
    3;  8; 12; 17; 25; 30; 41; 43;  9; 11; 18; 24; 31; 40; 44; 53;
   10; 19; 23; 32; 39; 45; 52; 54; 20; 22; 33; 38; 46; 51; 55; 60;
   21; 34; 37; 47; 50; 56; 59; 61; 35; 36; 48; 49; 57; 58; 62; 63].

(** [ans[i] = data[kZigZagMap[i]]] for the 64 indices of [data]. *)
Definition GetZigZag (data : list Z) : result (list Z) :=
  if negb (Z.of_nat (List.length data) =? kBlockSz)
  then Throw "Bad block size for zig-zag"
  else Ok (map (fun k => nth (Z.to_nat k) data 0) kZigZagMap).

(** [GetZigZag] of [baseline/decoder.cpp], which walks the fifteen
    diagonals of the 8 x 8 square [dub] instead of using a table.  The two
    [while] loops take one step per row (or column) left above the first,
    [k] steps at most. *)
Definition zigzag_put (data : list Z) (row col : Z)
    (st : list (list Z) * Z) : list (list Z) * Z :=
  let '(dub, index) := st in
  if index <? kBlockSz then
    (vector_update (Z.to_nat row)
       (vector_update (Z.to_nat col) (fun _ => nth (Z.to_nat index) data 0))
       dub,
     index + 1)
  else st.

Fixpoint zigzag_even (k : nat) (data : list Z) (dim row col : Z)
    (st : list (list Z) * Z) : list (list Z) * Z :=
  match k with
  | O => st
  | S k' =>
      if (row >=? 0) && (col <=? dim - 1)
      then zigzag_even k' data dim (row - 1) (col + 1)
             (zigzag_put data row col st)
      else st
  end.

Fixpoint zigzag_odd (k : nat) (data : list Z) (dim row col : Z)
    (st : list (list Z) * Z) : list (list Z) * Z :=
  match k with
  | O => st
  | S k' =>
      if (col >=? 0) && (row <=? dim - 1)
      then zigzag_odd k' data dim (row + 1) (col - 1)
             (zigzag_put data row col st)
      else st
  end.

Definition zigzag_diagonal (data : list Z) (dim diag : Z)
    (st : list (list Z) * Z) : list (list Z) * Z :=
  if diag mod 2 =? 0 then
    let row := Z.min diag (dim - 1) in
    let col := diag - row in
    zigzag_even (Z.to_nat (row + 1)) data dim row col st
  else
    let col := Z.min diag (dim - 1) in
    let row := diag - col in
    zigzag_odd (Z.to_nat (col + 1)) data dim row col st.

Definition GetZigZag_baseline (data : list Z) : result (list Z) :=
  if negb (Z.of_nat (List.length data) =? kBlockSz)
  then Throw "Bad block size for zig-zag"
  else
    let dim := 8 in
    let dub := repeat (repeat 0 (Z.to_nat dim)) (Z.to_nat dim) in
    let '(dub, _) :=
      fold_left (fun st diag => zigzag_diagonal data dim (Z.of_nat diag) st)
        (seq 0 (Z.to_nat (2 * dim - 1))) (dub, 0) in
    Ok (List.concat dub).

(** [GetMarkerArr]: the entries of the 65536-slot array that are set. *)
Definition kWordToMarkerType (word : Z) : option MarkerType.t :=
  if word =? 0xffd8 then Some MarkerType.BeginFile
  else if word =? 0xffd9 then Some MarkerType.EndFile
  else if word =? 0xfffe then Some MarkerType.Comment
  else if word =? 0xffdb then Some MarkerType.Quant
  else if word =? 0xffc0 then Some MarkerType.Meta
  else if word =? 0xffc4 then Some MarkerType.Huffman
  else if word =? 0xffda then Some MarkerType.Data
  else if (0xffe0 <=? word) && (word <=? 0xffef) then Some MarkerType.APPn
  else None.

Definition ReadMarkerType (r : BitReader.t)
  : result (MarkerType.t * BitReader.t) :=
  '(word, r) <- BitReader.ReadWord r ;;
  match kWordToMarkerType word with
  | Some m => Ok (m, r)
  | None => Throw "Unknown marker"
  end.

Definition ReadSz (r : BitReader.t) : result (Z * BitReader.t) :=
  '(sz, r) <- BitReader.ReadWord r ;;
  if sz <? 2 then Throw "Too little comment section size"
  else Ok (u16 (sz - 2), r).

(** The loop of [ReadFromHuffmanTree], from the node [state_] points to.
    Each turn reads one bit and then calls [Move]; after a step into a null
    child [Move] has returned [false] with [state_] null, so the next turn
    reads a bit and [Move] throws. *)
Fixpoint ReadFromHuffmanTree_walk (st : HuffmanTree.Node) (r : BitReader.t)
  {struct st} : result (Z * BitReader.t) :=
  '(bit, r1) <- BitReader.ReadBits 1 r ;;
  match st with
  | HuffmanTree.mkNode _ _ l rt =>
      match (if bit =? 0 then l else rt) with
      | None =>
          '(_, r2) <- BitReader.ReadBits 1 r1 ;;
          Throw "State is nullptr"
      | Some need =>
          if negb (HuffmanTree.is_terminal need)
          then ReadFromHuffmanTree_walk need r1
          else
            match HuffmanTree.value need with
            | None => Throw "bad optional access"
            | Some v => Ok (v, r1)
            end
      end
  end.

(** A call that returns leaves [state_] at [root_], where [Build] has put
    it: the trees the parser holds are in that state before every call, and
    the tree is not returned. *)
Definition ReadFromHuffmanTree (tree : HuffmanTree.t) (r : BitReader.t)
  : result (Z * BitReader.t) :=
  match HuffmanTree.state_ tree with
  | None =>
      '(_, r1) <- BitReader.ReadBits 1 r ;;
      Throw "State is nullptr"
  | Some st =>
      '(ans, r1) <- ReadFromHuffmanTree_walk st r ;;
      Ok (u8 ans, r1)
  end.

(** The same loop written over [Move], [fuel] turns of it at most, with the
    tree it leaves.  With more fuel than the tree is deep it is
    [ReadFromHuffmanTree] (lemma [ReadFromHuffmanTree_loop_enough]). *)
Fixpoint ReadFromHuffmanTree_loop (fuel : nat) (tree : HuffmanTree.t)
    (r : BitReader.t) : result (Z * HuffmanTree.t * BitReader.t) :=
  match fuel with
  | O => OutOfFuel
  | S fuel' =>
      '(bit, r1) <- BitReader.ReadBits 1 r ;;
      '(ans, tree1) <- HuffmanTree.Move (negb (bit =? 0)) tree ;;
      match ans with
      | Some v => Ok (u8 v, tree1, r1)
      | None => ReadFromHuffmanTree_loop fuel' tree1 r1
      end
  end.

(** The [while (matrix.size() < kBlockSz)] loop of [ReadBlock]. *)
Fixpoint ReadBlock_ac (fuel : nat) (ac_tree : HuffmanTree.t) (matrix : list Z)
    (r : BitReader.t) : result (list Z * BitReader.t) :=
  if Z.of_nat (List.length matrix) <? kBlockSz then
    match fuel with
    | O => OutOfFuel
    | S fuel' =>
        '(mask, r) <- ReadFromHuffmanTree ac_tree r ;;
        if mask =? 0 then
          Ok (matrix ++ repeat 0 (Z.to_nat kBlockSz - List.length matrix), r)
        else
          let zeros_cnt := Z.shiftr mask 4 in
          let ac_sz := Z.land mask kLowestByteMask in
          let matrix := matrix ++ repeat 0 (Z.to_nat zeros_cnt) in
          if negb (ac_sz =? 0) || (zeros_cnt =? 15) then
            '(coef, r) <- BitReader.ReadBitsSigned ac_sz r ;;
            ReadBlock_ac fuel' ac_tree (matrix ++ [coef]) r
          else Throw "Empty ac coef"
    end
  else Ok (matrix, r).

(** The DC part of [ReadBlock]: the first coefficient and the predictor. *)
Definition ReadBlock_dc (dc_tree : HuffmanTree.t) (prev_dc : Z)
    (r : BitReader.t) : result (list Z * Z * BitReader.t) :=
  '(dc_sz, r) <- ReadFromHuffmanTree dc_tree r ;;
  if dc_sz =? 0 then Ok ([prev_dc], prev_dc, r)
  else
    '(diff_dc, r) <- BitReader.ReadBitsSigned dc_sz r ;;
    let prev_dc := s16 (prev_dc + diff_dc) in
    Ok ([prev_dc], prev_dc, r).

(** [ReadBlock]: the block, the new value of [prev_dc], the reader. *)
Definition ReadBlock (dc_tree ac_tree : HuffmanTree.t) (prev_dc : Z)
    (r : BitReader.t) : result (list Z * Z * BitReader.t) :=
  '(matrix, prev_dc, r) <- ReadBlock_dc dc_tree prev_dc r ;;
  '(matrix, r) <- ReadBlock_ac (Z.to_nat kBlockSz) ac_tree matrix r ;;
  if negb (Z.of_nat (List.length matrix) =? kBlockSz)
  then Throw "Too many blocks in matrix"
  else
    block <- GetZigZag matrix ;;
    Ok (block, prev_dc, r).

(** [cnt] calls of [read], the values appended to [acc]. *)
Definition read_many (read : BitReader.t -> result (Z * BitReader.t))
    (cnt : nat) (acc : list Z) (r : BitReader.t)
  : result (list Z * BitReader.t) :=
  for_ cnt 0
    (fun _ '(acc, r) => '(x, r) <- read r ;; Ok (acc ++ [x], r))
    (acc, r).

Definition ReadComment (r : BitReader.t) : result (list Z * BitReader.t) :=
  '(sz, r) <- ReadSz r ;;
  read_many BitReader.ReadByte (Z.to_nat sz) [] r.

(** The body of the loop over the channels of [ReadImageMeta]. *)
Definition ReadImageMeta_channel
    (st : list ChannelMetadata.t * BitReader.t)
  : result (list ChannelMetadata.t * BitReader.t) :=
  let '(channels_info, r) := st in
  '(id, r) <- BitReader.ReadByte r ;;
  '(hv, r) <- BitReader.ReadByte r ;;
  let h := Z.shiftr hv 4 in
  let v := Z.land hv kLowestByteMask in
  '(quant_id, r) <- BitReader.ReadByte r ;;
  Ok (channels_info ++ [ChannelMetadata.mk id h v quant_id], r).

Definition ReadImageMeta (r : BitReader.t)
  : result (ImageMetadata.t * BitReader.t) :=
  '(sz, r) <- ReadSz r ;;
  if sz <? 6 then Throw "Too little image metadata size"
  else
    let sz := u16 (sz - 6) in
    '(precision, r) <- BitReader.ReadByte r ;;
    '(height, r) <- BitReader.ReadWord r ;;
    '(width, r) <- BitReader.ReadWord r ;;
    '(channels_cnt, r) <- BitReader.ReadByte r ;;
    if (height =? 0) || (width =? 0) then Throw "Empty image"
    else if negb (sz =? channels_cnt * 3) then Throw "Bad metadata size"
    else
      '(channels_info, r) <-
        for_ (Z.to_nat channels_cnt) 0 (fun _ => ReadImageMeta_channel)
          ([], r) ;;
      meta <- ImageMetadata.make precision channels_cnt height width
                channels_info ;;
      Ok (meta, r).

(** The [while (sz > 0)] loop of [ReadQuantTable]; every turn takes at
    least 65 from [sz]. *)
Fixpoint ReadQuantTable_loop (fuel : nat) (sz : Z) (ans : list QuantumTable.t)
    (r : BitReader.t) : result (list QuantumTable.t * BitReader.t) :=
  if sz >? 0 then
    match fuel with
    | O => OutOfFuel
    | S fuel' =>
        if sz <? 1 then Throw "Too small quantum section size"
        else
          let sz := u16 (sz - 1) in
          '(mask, r) <- BitReader.ReadByte r ;;
          let value_len := if Z.shiftr mask 4 =? 1 then 2 else 1 in
          if negb (Z.shiftr mask 4 =? 0) && negb (Z.shiftr mask 4 =? 1)
          then Throw "Too big len"
          else
            let quant_id := Z.land mask kLowestByteMask in
            if sz <? kBlockSz * value_len then Throw "Bad quantum size"
            else
              let sz := u16 (sz - kBlockSz * value_len) in
              '(data, r) <-
                read_many
                  (if value_len =? 1 then BitReader.ReadByte
                   else BitReader.ReadWord)
                  (Z.to_nat kBlockSz) [] r ;;
              if negb (Z.of_nat (List.length data) =? kBlockSz)
              then Throw "Quantum table size not is 64"
              else
                zz <- GetZigZag data ;;
                ReadQuantTable_loop fuel' sz
                  (ans ++ [QuantumTable.mk quant_id zz]) r
    end
  else Ok (ans, r).

Definition ReadQuantTable (r : BitReader.t)
  : result (list QuantumTable.t * BitReader.t) :=
  '(sz, r) <- ReadSz r ;;
  ReadQuantTable_loop (Z.to_nat sz) sz [] r.

(** The [while (sz > 0)] loop of [ReadHuffmanTree]; every turn takes at
    least 17 from [sz]. *)
Fixpoint ReadHuffmanTree_loop (fuel : nat) (sz : Z) (ans : list Huffman.t)
    (r : BitReader.t) : result (list Huffman.t * BitReader.t) :=
  if sz >? 0 then
    match fuel with
    | O => OutOfFuel
    | S fuel' =>
        if sz <? 17 then Throw "Too small huffman section size"
        else
          let sz := u16 (sz - 1) in
          '(mask, r) <- BitReader.ReadByte r ;;
          let is_dc := Z.shiftr mask 4 =? 0 in
          let table_id := Z.land mask kLowestByteMask in
          '(code_lengths, r) <- read_many BitReader.ReadByte 16 [] r ;;
          let sum_lengths := fold_left Z.add code_lengths 0 in
          let sz := u16 (sz - 16) in
          if sum_lengths >? sz then Throw "Bad Huffman table size"
          else
            '(values, r) <-
              read_many BitReader.ReadByte (Z.to_nat sum_lengths) [] r ;;
            let sz := u16 (sz - sum_lengths) in
            tree <- HuffmanTree.Build code_lengths values ;;
            ReadHuffmanTree_loop fuel' sz
              (ans ++ [Huffman.mk is_dc table_id tree]) r
    end
  else Ok (ans, r).

Definition ReadHuffmanTree (r : BitReader.t)
  : result (list Huffman.t * BitReader.t) :=
  '(sz, r) <- ReadSz r ;;
  ReadHuffmanTree_loop (Z.to_nat sz) sz [] r.

(** [huffman_trees[hash]] of the 512-slot array. *)
Definition lookup_tree (huffman_trees : list (option HuffmanTree.t)) (hash : Z)
  : option HuffmanTree.t :=
  nth (Z.to_nat hash) huffman_trees None.

(** The body of the loop over the channels of [ReadImageData]. *)
Definition ReadImageData_channel (huffman_trees : list (option HuffmanTree.t))
    (st : list Z * list HuffmanTree.t * list HuffmanTree.t * BitReader.t)
  : result (list Z * list HuffmanTree.t * list HuffmanTree.t * BitReader.t) :=
  let '(channel_ids, dc_trees, ac_trees, r) := st in
  '(id, r) <- BitReader.ReadByte r ;;
  '(mask, r) <- BitReader.ReadByte r ;;
  let dc_id := Z.shiftr mask 4 in
  let ac_id := Z.land mask kLowestByteMask in
  let hash_dc := GetPairHash dc_id true in
  let hash_ac := GetPairHash ac_id false in
  match lookup_tree huffman_trees hash_dc,
        lookup_tree huffman_trees hash_ac with
  | None, _ => Throw "No huffman table found"
  | Some _, None => Throw "No huffman table found"
  | Some dc, Some ac =>
      Ok (channel_ids ++ [id], dc_trees ++ [dc], ac_trees ++ [ac], r)
  end.

(** The first part of the scan header: the channel count and the channels
    with their two trees.  The length left in [sz] is returned with them. *)
Definition ReadImageData_channels (huffman_trees : list (option HuffmanTree.t))
    (r : BitReader.t)
  : result (Z * Z * list Z * list HuffmanTree.t * list HuffmanTree.t
            * BitReader.t) :=
  '(sz, r) <- ReadSz r ;;
  if sz <? 1 then Throw "No info about channels cnt"
  else
    let sz := u16 (sz - 1) in
    '(channels_cnt, r) <- BitReader.ReadByte r ;;
    if sz <? channels_cnt * 2 then Throw "Bad image data size"
    else
      let sz := u16 (sz - channels_cnt * 2) in
      '(channel_ids, dc_trees, ac_trees, r) <-
        for_ (Z.to_nat channels_cnt) 0
          (fun _ => ReadImageData_channel huffman_trees)
          ([], [], [], r) ;;
      Ok (sz, channels_cnt, channel_ids, dc_trees, ac_trees, r).

(** The second part: the three bytes [Ss], [Se], [Ah/Al], and whatever the
    segment still holds after them. *)
Definition ReadImageData_spectral (sz : Z) (r : BitReader.t)
  : result BitReader.t :=
  if sz <? 3 then Throw "Bad SOS header"
  else
    '(_, r) <- BitReader.ReadByte r ;;
    '(se, r) <- BitReader.ReadByte r ;;
    if negb (se =? 63) then Throw "Inconsistent SOS for baseline JPEG"
    else
      '(_, r) <- BitReader.ReadByte r ;;
      let sz := u16 (sz - 3) in
      '(_, r) <- read_many BitReader.ReadByte (Z.to_nat sz) [] r ;;
      Ok r.

Definition ReadImageData_header (huffman_trees : list (option HuffmanTree.t))
    (r : BitReader.t)
  : result (Z * list Z * list HuffmanTree.t * list HuffmanTree.t * BitReader.t) :=
  '(sz, channels_cnt, channel_ids, dc_trees, ac_trees, r) <-
    ReadImageData_channels huffman_trees r ;;
  r <- ReadImageData_spectral sz r ;;
  Ok (channels_cnt, channel_ids, dc_trees, ac_trees, r).

(** [h_max] and [v_max] over the channels of the frame. *)
Definition h_max (meta : ImageMetadata.t) : Z :=
  fold_left (fun m c => Z.max m (ChannelMetadata.h c))
    (ImageMetadata.channels meta) 0.
Definition v_max (meta : ImageMetadata.t) : Z :=
  fold_left (fun m c => Z.max m (ChannelMetadata.v c))
    (ImageMetadata.channels meta) 0.

(** [channel_metadata[c] = meta.GetMetaByChannelId(channel_ids[c])]. *)
Fixpoint lookup_channels (meta : ImageMetadata.t) (channel_ids : list Z)
  : result (list ChannelMetadata.t) :=
  match channel_ids with
  | [] => Ok []
  | id :: ids =>
      cm <- ImageMetadata.GetMetaByChannelId meta id ;;
      cms <- lookup_channels meta ids ;;
      Ok (cm :: cms)
  end.

(** What the block loops carry: [prev_dc], [channel_matrix] and the reader. *)
Definition scan_state : Type := (list Z * list (list (list Z)) * BitReader.t)%type.

(** The innermost statement: one block of channel [c] is read with the
    trees and the predictor of [c], and pushed on [channel_matrix[c]]. *)
Definition read_block_of (dc_trees ac_trees : list HuffmanTree.t) (c : Z)
    (st : scan_state) : result scan_state :=
  let '(prev_dc, channel_matrix, r) := st in
  let i := Z.to_nat c in
  '(block, p, r) <-
    ReadBlock (nth i dc_trees HuffmanTree.Reset) (nth i ac_trees HuffmanTree.Reset)
      (nth i prev_dc 0) r ;;
  Ok (vector_update i (fun _ => p) prev_dc,
      vector_update i (fun m => m ++ [block]) channel_matrix,
      r).

(** The five nested [for] loops of [ReadImageData]. *)
Definition ReadImageData_blocks (dc_trees ac_trees : list HuffmanTree.t)
    (channel_metadata : list ChannelMetadata.t) (channels_cnt mcu_h mcu_w : Z)
    (st : scan_state) : result scan_state :=
  for_ (Z.to_nat mcu_h) 0 (fun mcu_y =>
    for_ (Z.to_nat mcu_w) 0 (fun mcu_x =>
      for_ (Z.to_nat channels_cnt) 0 (fun c =>
        let channel_meta :=
          nth (Z.to_nat c) channel_metadata ChannelMetadata.default in
        let h := ChannelMetadata.h channel_meta in
        let v := ChannelMetadata.v channel_meta in
        for_ (Z.to_nat v) 0 (fun block_v =>
          for_ (Z.to_nat h) 0 (fun block_h =>
            read_block_of dc_trees ac_trees c))))) st.

Definition ReadImageData (huffman_trees : list (option HuffmanTree.t))
    (meta : ImageMetadata.t) (r : BitReader.t)
  : result (ImageData.t * BitReader.t) :=
  '(channels_cnt, channel_ids, dc_trees, ac_trees, r) <-
    ReadImageData_header huffman_trees r ;;
  let h_max := h_max meta in
  let v_max := v_max meta in
  if (h_max =? 0) || (v_max =? 0) then Throw "sampling factor is zero"
  else
    let mcu_h :=
      u16 ((ImageMetadata.height meta + 8 * v_max - 1) / (8 * v_max)) in
    let mcu_w :=
      u16 ((ImageMetadata.width meta + 8 * h_max - 1) / (8 * h_max)) in
    let prev_dc := repeat 0 (Z.to_nat channels_cnt) in
    let channel_matrix := repeat [] (Z.to_nat channels_cnt) in
    channel_metadata <- lookup_channels meta channel_ids ;;
    '(_, channel_matrix, r) <-
      ReadImageData_blocks dc_trees ac_trees channel_metadata channels_cnt
        mcu_h mcu_w (prev_dc, channel_matrix, r) ;;
    Ok (ImageData.mk channel_matrix channel_ids mcu_h mcu_w, r).

(** The locals of [ReadRawImage]. *)
Record segments : Type := mkSegments {
  quantum_tables : list (option QuantumTable.t);
  comment : list Z;
  image_data : option ImageData.t;
  metadata : option ImageMetadata.t;
  huffman_trees : list (option HuffmanTree.t)
}.

Definition vector_set {A : Type} (i : Z) (x : A) (v : list A) : list A :=
  vector_update (Z.to_nat i) (fun _ => x) v.

Fixpoint store_quantum_tables (tables : list QuantumTable.t)
    (quantum_tables : list (option QuantumTable.t))
  : result (list (option QuantumTable.t)) :=
  match tables with
  | [] => Ok quantum_tables
  | q :: tables' =>
      let table_id := QuantumTable.table_id q in
      match nth (Z.to_nat table_id) quantum_tables None with
      | Some _ => Throw "Two or more quantum tables with one id"
      | None =>
          store_quantum_tables tables'
            (vector_set table_id (Some q) quantum_tables)
      end
  end.

Fixpoint store_huffman_trees (trees : list Huffman.t)
    (huffman_trees : list (option HuffmanTree.t))
  : result (list (option HuffmanTree.t)) :=
  match trees with
  | [] => Ok huffman_trees
  | t :: trees' =>
      let hash := GetPairHash (Huffman.table_id t) (Huffman.is_dc t) in
      match lookup_tree huffman_trees hash with
      | Some _ => Throw "Two or more huffman trees with one id"
      | None =>
          store_huffman_trees trees'
            (vector_set hash (Some (Huffman.tree t)) huffman_trees)
      end
  end.

(** One turn of the marker loop of [ReadRawImage], for a marker that is not
    [EndFile]. *)
Definition ReadRawImage_segment (marker : MarkerType.t) (s : segments)
    (r : BitReader.t) : result (segments * BitReader.t) :=
  match marker with
  | MarkerType.Meta =>
      match metadata s with
      | Some _ => Throw "Two SOF markers"
      | None =>
          '(meta, r) <- ReadImageMeta r ;;
          Ok (mkSegments (quantum_tables s) (comment s) (image_data s)
                (Some meta) (huffman_trees s), r)
      end
  | MarkerType.Comment =>
      '(c, r) <- ReadComment r ;;
      Ok (mkSegments (quantum_tables s) c (image_data s) (metadata s)
            (huffman_trees s), r)
  | MarkerType.Quant =>
      '(tables, r) <- ReadQuantTable r ;;
      qts <- store_quantum_tables tables (quantum_tables s) ;;
      Ok (mkSegments qts (comment s) (image_data s) (metadata s)
            (huffman_trees s), r)
  | MarkerType.Huffman =>
      '(trees, r) <- ReadHuffmanTree r ;;
      hts <- store_huffman_trees trees (huffman_trees s) ;;
      Ok (mkSegments (quantum_tables s) (comment s) (image_data s)
            (metadata s) hts, r)
  | MarkerType.Data =>
      match metadata s with
      | None => Throw "No metadata before reading image data"
      | Some meta =>
          '(img, r) <- ReadImageData (huffman_trees s) meta r ;;
          Ok (mkSegments (quantum_tables s) (comment s) (Some img)
                (metadata s) (huffman_trees s), BitReader.Align r)
      end
  | MarkerType.BeginFile => Throw "Begin marker in bad place"
  | MarkerType.APPn =>
      '(_, r) <- ReadComment r ;;
      Ok (s, r)
  | MarkerType.EndFile => Ok (s, r)
  end.

(** The loop [while ((marker = ReadMarkerType()) != MarkerType::EndFile)];
    every turn reads the two bytes of a marker. *)
Fixpoint ReadRawImage_loop (fuel : nat) (s : segments) (r : BitReader.t)
  : result (segments * BitReader.t) :=
  '(marker, r) <- ReadMarkerType r ;;
  if MarkerType.eqb marker MarkerType.EndFile then Ok (s, r)
  else
    match fuel with
    | O => OutOfFuel
    | S fuel' =>
        '(s, r) <- ReadRawImage_segment marker s r ;;
        ReadRawImage_loop fuel' s r
    end.

Definition ReadRawImage (r : BitReader.t) : result (RawImage.t * BitReader.t) :=
  '(marker, r) <- ReadMarkerType r ;;
  if negb (MarkerType.eqb marker MarkerType.BeginFile)
  then Throw "No begin marker"
  else
    let s :=
      mkSegments (repeat None (Z.to_nat kU8Cnt)) [] None None
        (repeat None (Z.to_nat (kU8Cnt * 2))) in
    '(s, r) <- ReadRawImage_loop (List.length (BitReader.in_ r)) s r ;;
    match image_data s, metadata s with
    | Some img, Some meta =>
        Ok (RawImage.mk (comment s) img meta (quantum_tables s), r)
    | _, _ => Throw "No image/meta data in file"
    end.

End Parser.

(** ** fft.cpp *)

Module DctCalculator.

(** [int16_t] to [double]: exact. *)
Definition double_of_Z (z : Z) : float :=
  if z <? 0 then PrimFloat.opp (PrimFloat.of_uint63 (Uint63.of_Z (- z)))
  else PrimFloat.of_uint63 (Uint63.of_Z z).

(** [std::round]: to the nearest integer, halves away from zero.  [None]
    for an infinity or a NaN. *)
Definition round (x : float) : option Z :=
  match Prim2SF x with
  | S754_zero _ => Some 0
  | S754_finite s m e =>
      let mag :=
        if e >=? 0 then Z.pos m * 2 ^ e
        else (Z.pos m + 2 ^ (- e - 1)) / 2 ^ (- e) in
      Some (if s then - mag else mag)
  | _ => None
  end.

Definition kSqrtTwo : float := 0x1.6a09e667f3bcdp+0%float.

(** The scaling loop of [Inverse] over [input_], for [i] from [i0] on. *)
Fixpoint scale_input (width : Z) (i0 : Z) (input_ : list float) : list float :=
  match input_ with
  | [] => []
  | x :: rest =>
      let x := PrimFloat.div x 16 in
      let x := if i0 <? width then PrimFloat.mul x kSqrtTwo else x in
      let x := if i0 mod width =? 0 then PrimFloat.mul x kSqrtTwo else x in
      x :: scale_input width (i0 + 1) rest
  end.

(** Modelled from the spec: FFTW ([fftw_plan_r2r_2d], [fftw_execute]) is an
    external library with no source here.  [REDFT01] is the transform its
    manual defines, [Y_k = X_0 + 2 * sum_(j=1..n-1) X_j cos(pi j (k + 1/2) / n)],
    for [n = 8] and in binary64, with the cosines of the multiples of
    [pi / 16] taken from a table; the two-dimensional plan applies it to the
    rows and then to the columns of the row-major array. *)
Definition cos_pi_16_table : list float :=
  [ 1%float;
    0x1.f6297cff75cbp-1%float;
    0x1.d906bcf328d46p-1%float;
    0x1.a9b66290ea1a3p-1%float;
    0x1.6a09e667f3bcdp-1%float;
    0x1.1c73b39ae68c8p-1%float;
    0x1.87de2a6aea963p-2%float;
    0x1.8f8b83c69a60bp-3%float;
    0%float ].

(** [cos (m * pi / 16)] for an integer [m]. *)
Definition cos_pi_16 (m : Z) : float :=
  let m := m mod 32 in
  let m := if m >? 16 then 32 - m else m in
  if m >? 8 then PrimFloat.opp (nth (Z.to_nat (16 - m)) cos_pi_16_table 0%float)
  else nth (Z.to_nat m) cos_pi_16_table 0%float.

Definition REDFT01_at (x : list float) (k : Z) : float :=
  match x with
  | [] => 0%float
  | x0 :: xs =>
      fst (fold_left
             (fun '(acc, j) xj =>
                (PrimFloat.add acc
                   (PrimFloat.mul 2
                      (PrimFloat.mul xj (cos_pi_16 (j * (2 * k + 1))))),
                 j + 1))
             xs (x0, 1))
  end.

Definition REDFT01 (x : list float) : list float :=
  map (fun k => REDFT01_at x (Z.of_nat k)) (seq 0 (List.length x)).

Fixpoint rows (width : nat) (cnt : nat) (a : list float) : list (list float) :=
  match cnt with
  | O => []
  | S cnt' => firstn width a :: rows width cnt' (skipn width a)
  end.

Definition column (k : nat) (m : list (list float)) : list float :=
  map (fun row => nth k row 0%float) m.

Definition transpose (width : nat) (m : list (list float)) : list (list float) :=
  map (fun k => column k m) (seq 0 width).

Definition REDFT01_2d (width : nat) (a : list float) : list float :=
  let by_rows := map REDFT01 (rows width width a) in
  let by_cols := map REDFT01 (transpose width by_rows) in
  List.concat (transpose width by_cols).

(** The constructor's checks and [Inverse]: [input] as [Inverse] leaves it
    is not used again by the callers, and only [output] is returned. *)
Definition Inverse (width : Z) (input : list float) : result (list float) :=
  if negb (Z.of_nat (List.length input) =? width * width)
  then Throw "input/output->sz != width * width"
  else Ok (REDFT01_2d (Z.to_nat width) (scale_input width 0 input)).

End DctCalculator.

(** ** decoder.cpp *)

Module RGB.
Record t : Type := mk { r : Z; g : Z; b : Z }.
End RGB.

(** Modelled from the spec: the image container ([image.h]) is not among the
    sources; it is the sink of the specification, with [set_pixel(y, x, rgb)]
    and [set_comment(s)], over a grid of [height] rows of [width] pixels. *)
Module Image.
Record t : Type := mk { comment : list Z; pixels : list (list RGB.t) }.

Definition make (width height : Z) : t :=
  mk [] (repeat (repeat (RGB.mk 0 0 0) (Z.to_nat width)) (Z.to_nat height)).

Definition SetComment (c : list Z) (img : t) : t := mk c (pixels img).

Definition SetPixel (y x : Z) (p : RGB.t) (img : t) : t :=
  mk (comment img)
     (vector_update (Z.to_nat y)
        (vector_update (Z.to_nat x) (fun _ => p)) (pixels img)).
End Image.

Module Decoder.

(** [one[i] *= two[i]]: the operands are promoted to [int], where the
    product of an [int16_t] and a [uint16_t] always fits, and the product is
    converted back to [int16_t]. *)
Fixpoint Mult_loop (one two : list Z) : list Z :=
  match one, two with
  | a :: one', q :: two' => s16 (a * q) :: Mult_loop one' two'
  | _, _ => []
  end.

Definition Mult (one two : list Z) : result (list Z) :=
  if negb (Nat.eqb (List.length one) (List.length two))
  then Throw "Cannot multiply on quantum matrix"
  else Ok (Mult_loop one two).

(** The lambda [clamp8] of the fixed-point [YCbCrToRGB]. *)
Definition clamp8 (v_fp : Z) : Z :=
  let v := Z.shiftr v_fp 10 in
  if v <? 0 then 0
  else if v >? 255 then 255
  else u8 v.

(** [YCbCrToRGB] of [faster/decoder.cpp]. *)
Definition YCbCrToRGB (channels : list Z) : result RGB.t :=
  match channels with
  | [] => Throw "Channels is empty"
  | c0 :: _ =>
      let y := Z.shiftl c0 10 in
      let cb :=
        if (1 <? Z.of_nat (List.length channels)) then nth 1 channels 0 - 128
        else 0 in
      let cr :=
        if (2 <? Z.of_nat (List.length channels)) then nth 2 channels 0 - 128
        else 0 in
      let r_ans := y + 1402 * cr in
      let g_ans := y - 344 * cb - 714 * cr in
      let b_fp := y + 1772 * cb in
      Ok (RGB.mk (clamp8 r_ans) (clamp8 g_ans) (clamp8 b_fp))
  end.

(** *** The reference conversion

    The matrix of the specification over the rationals: each component is
    rounded to the nearest integer (halves away from zero, as [std::llround]
    does) and clamped to [0, 255].  [baseline/decoder.cpp] computes it in
    [long double]. *)
Definition round_nearest (q : QArith_base.Q) : Z :=
  if QArith_base.Qle_bool (QArith_base.inject_Z 0) q
  then Qround.Qfloor (QArith_base.Qplus q (QArith_base.Qmake 1 2))
  else Qround.Qceiling (QArith_base.Qminus q (QArith_base.Qmake 1 2)).

Definition clamp255 (z : Z) : Z := Z.max 0 (Z.min 255 z).

Definition YCbCrToRGB_reference (y cb cr : Z) : RGB.t :=
  let q := QArith_base.inject_Z in
  let yq := q y in
  let cbq := QArith_base.Qminus (q cb) (q 128) in
  let crq := QArith_base.Qminus (q cr) (q 128) in
  let c (n : Z) (x : QArith_base.Q) :=
    QArith_base.Qmult (QArith_base.Qmake n 1000000) x in
  RGB.mk
    (clamp255 (round_nearest (QArith_base.Qplus yq (c 1402000 crq))))
    (clamp255 (round_nearest
       (QArith_base.Qminus (QArith_base.Qminus yq (c 344136 cbq))
          (c 714136 crq))))
    (clamp255 (round_nearest (QArith_base.Qplus yq (c 1772000 cbq)))).

(** [v[i]] when [i] is inside the vector. *)
Definition vector_at {A : Type} (v : list A) (i : Z) : result A :=
  match nth_error v (Z.to_nat i) with
  | Some x => if i <? 0 then Undefined "index out of range" else Ok x
  | None => Undefined "index out of range"
  end.

(** [f] on every element, stopping at the first that is not [Ok]. *)
Fixpoint map_result {A B : Type} (f : A -> result B) (l : list A)
  : result (list B) :=
  match l with
  | [] => Ok []
  | x :: l' => y <- f x ;; ys <- map_result f l' ;; Ok (y :: ys)
  end.

(** [Quantization]: the blocks of [channel_matrix[i]] times the table of
    channel [i], in place, for the indices [i] of [channel_ids]; what
    [channel_matrix] holds after them is left as it is. *)
Definition Quantization (raw_image : RawImage.t) (image_data : ImageData.t)
  : result ImageData.t :=
  let meta := RawImage.metadata raw_image in
  matrix <-
    for_ (List.length (ImageData.channel_ids image_data)) 0
      (fun i matrix =>
         channel_id <- vector_at (ImageData.channel_ids image_data) i ;;
         channel_meta <- ImageMetadata.GetMetaByChannelId meta channel_id ;;
         match nth (Z.to_nat (ChannelMetadata.quant_id channel_meta))
                 (RawImage.quantum_tables raw_image) None with
         | None => Throw "bad optional access"
         | Some quantum_table =>
             channels_matrix <- vector_at matrix i ;;
             blocks <-
               map_result
                 (fun block => Mult block (QuantumTable.data quantum_table))
                 channels_matrix ;;
             Ok (vector_update (Z.to_nat i) (fun _ => blocks) matrix)
         end)
      (ImageData.channel_matrix image_data) ;;
  Ok (ImageData.mk matrix (ImageData.channel_ids image_data)
        (ImageData.mcu_h image_data) (ImageData.mcu_w image_data)).

(** [static_cast<int16_t>(std::round(x))]: defined when the rounded value
    is an [int16_t]. *)
Definition round_to_int16 (x : float) : result Z :=
  match DctCalculator.round x with
  | Some z =>
      if (-32768 <=? z) && (z <=? 32767) then Ok z
      else Undefined "double out of the range of int16_t"
  | None => Undefined "double out of the range of int16_t"
  end.

(** The body of the block loop of [IDCT]. *)
Definition IDCT_block (block : list Z) : result (list Z) :=
  let input_arr := map DctCalculator.double_of_Z block in
  output <- DctCalculator.Inverse 8 input_arr ;;
  map_result round_to_int16 output.

(** The loops of [IDCT] and of [Rationing]: [f] on every block of
    [channel_matrix[i]], in place, for the indices [i] of [channel_ids]. *)
Definition on_blocks (f : list Z -> result (list Z)) (image_data : ImageData.t)
  : result ImageData.t :=
  matrix <-
    for_ (List.length (ImageData.channel_ids image_data)) 0
      (fun i matrix =>
         channels_matrix <- vector_at matrix i ;;
         blocks <- map_result f channels_matrix ;;
         Ok (vector_update (Z.to_nat i) (fun _ => blocks) matrix))
      (ImageData.channel_matrix image_data) ;;
  Ok (ImageData.mk matrix (ImageData.channel_ids image_data)
        (ImageData.mcu_h image_data) (ImageData.mcu_w image_data)).

Definition IDCT : ImageData.t -> result ImageData.t := on_blocks IDCT_block.

(** [std::min<int16_t>(std::max<int16_t>(0, x + 128), 255)]. *)
Definition Rationing_sample (x : Z) : Z :=
  Z.min (Z.max 0 (s16 (x + 128))) 255.

Definition Rationing : ImageData.t -> result ImageData.t :=
  on_blocks (fun block => Ok (map Rationing_sample block)).

(** [v[i] = x] when [i] is inside the vector. *)
Definition vector_write {A : Type} (i : Z) (x : A) (v : list A)
  : result (list A) :=
  if (0 <=? i) && (i <? Z.of_nat (List.length v))
  then Ok (vector_update (Z.to_nat i) (fun _ => x) v)
  else Undefined "index out of range".

(** The first loop of [GetAns]: [h_max], [v_max], [channel_metadata] and
    [scaling], the last from the maxima reached so far. *)
Definition GetAns_scaling (image_data : ImageData.t) (meta : ImageMetadata.t)
  : result (Z * Z * list ChannelMetadata.t * list (Z * Z)) :=
  for_ (List.length (ImageData.channel_ids image_data)) 0
    (fun c '(h_max, v_max, channel_metadata, scaling) =>
       mc <- vector_at (ImageMetadata.channels meta) c ;;
       let h_max := Z.max h_max (ChannelMetadata.h mc) in
       let v_max := Z.max v_max (ChannelMetadata.v mc) in
       channel_id <- vector_at (ImageData.channel_ids image_data) c ;;
       cm <- ImageMetadata.GetMetaByChannelId meta channel_id ;;
       if (ChannelMetadata.v cm =? 0) || (ChannelMetadata.h cm =? 0)
       then Undefined "division by zero"
       else
         Ok (h_max, v_max, channel_metadata ++ [cm],
             scaling ++ [(u16 (v_max / ChannelMetadata.v cm),
                          u16 (h_max / ChannelMetadata.h cm))]))
    (0, 0, [], []).

(** The loops over [local_y], [local_x], [delta_y], [delta_x]: one block
    spread over the buffer of its channel. *)
Definition GetAns_block (block : list Z) (block_y_start block_x_start : Z)
    (v_scale h_scale mcu_y_start mcu_x_start mcu_w_sz : Z) (buf : list Z)
  : result (list Z) :=
  for_ 8 0 (fun local_y =>
    for_ 8 0 (fun local_x buf =>
      value <- vector_at block (local_y * 8 + local_x) ;;
      let real_y := block_y_start + local_y * v_scale in
      let real_x := block_x_start + local_x * h_scale in
      for_ (Z.to_nat v_scale) 0 (fun delta_y =>
        for_ (Z.to_nat h_scale) 0 (fun delta_x buf =>
          vector_write
            ((real_y + delta_y - mcu_y_start) * mcu_w_sz
             + real_x + delta_x - mcu_x_start)
            (s16 value) buf)) buf)) buf.

(** The loop over the channels of one MCU: the blocks of every channel go
    to [buffer], and [now_block] advances. *)
Definition GetAns_channels (image_data : ImageData.t)
    (channel_metadata : list ChannelMetadata.t) (scaling : list (Z * Z))
    (mcu_y_start mcu_x_start mcu_w_sz : Z)
    (st : list (list Z) * list Z) : result (list (list Z) * list Z) :=
  for_ (List.length (ImageData.channel_ids image_data)) 0
    (fun c st =>
       channel_meta <- vector_at channel_metadata c ;;
       let h := ChannelMetadata.h channel_meta in
       let v := ChannelMetadata.v channel_meta in
       '(v_scale, h_scale) <- vector_at scaling c ;;
       for_ (Z.to_nat v) 0 (fun block_v =>
         for_ (Z.to_nat h) 0 (fun block_h '(buffer, now_block) =>
           blocks <- vector_at (ImageData.channel_matrix image_data) c ;;
           n <- vector_at now_block c ;;
           block <- vector_at blocks n ;;
           let now_block := vector_update (Z.to_nat c) (fun n => n + 1) now_block in
           let block_y_start := mcu_y_start + block_v * 8 * v_scale in
           let block_x_start := mcu_x_start + block_h * 8 * h_scale in
           buf <- vector_at buffer c ;;
           buf <- GetAns_block block block_y_start block_x_start v_scale
                    h_scale mcu_y_start mcu_x_start mcu_w_sz buf ;;
           Ok (vector_update (Z.to_nat c) (fun _ => buf) buffer, now_block)))
         st)
    st.

(** The loop over [delta_y], [delta_x] that ends the body of the MCU loop:
    the pixels of the MCU that lie inside the image. *)
Definition GetAns_pixels (meta : ImageMetadata.t) (h_max v_max : Z)
    (mcu_y_start mcu_x_start mcu_w_sz : Z) (buffer : list (list Z))
    (ans : Image.t) : result Image.t :=
  for_ (Z.to_nat (8 * v_max)) 0 (fun delta_y =>
    for_ (Z.to_nat (8 * h_max)) 0 (fun delta_x ans =>
      let ind := delta_y * mcu_w_sz + delta_x in
      channels_values <- map_result (fun buf => vector_at buf ind) buffer ;;
      let y := mcu_y_start + delta_y in
      let x := mcu_x_start + delta_x in
      if (y <? ImageMetadata.height meta) && (x <? ImageMetadata.width meta)
      then
        p <- YCbCrToRGB channels_values ;;
        Ok (Image.SetPixel y x p ans)
      else Ok ans)) ans.

(** [GetAns] of [faster/decoder.cpp]. *)
Definition GetAns (image_data : ImageData.t) (meta : ImageMetadata.t)
    (ans : Image.t) : result Image.t :=
  let channels_cnt := List.length (ImageData.channel_ids image_data) in
  '(h_max, v_max, channel_metadata, scaling) <-
    GetAns_scaling image_data meta ;;
  let buffer := repeat (repeat 0 (Z.to_nat (64 * h_max * v_max))) channels_cnt in
  let mcu_h_sz := u16 (8 * v_max) in
  let mcu_w_sz := u16 (8 * h_max) in
  let now_block := repeat 0 channels_cnt in
  '(_, _, ans) <-
    for_ (Z.to_nat (ImageData.mcu_h image_data)) 0 (fun mcu_y =>
      for_ (Z.to_nat (ImageData.mcu_w image_data)) 0
        (fun mcu_x '(buffer, now_block, ans) =>
           let mcu_y_start := u16 (mcu_y * mcu_h_sz) in
           let mcu_x_start := u16 (mcu_x * mcu_w_sz) in
           '(buffer, now_block) <-
             GetAns_channels image_data channel_metadata scaling
               mcu_y_start mcu_x_start mcu_w_sz (buffer, now_block) ;;
           ans <- GetAns_pixels meta h_max v_max mcu_y_start mcu_x_start
                    mcu_w_sz buffer ans ;;
           Ok (buffer, now_block, ans)))
      (buffer, now_block, ans) ;;
  Ok ans.

(** [Decode] over the bytes of the stream. *)
Definition Decode (input : list Z) : result Image.t :=
  '(raw_image, _) <- Parser.ReadRawImage (BitReader.init input) ;;
  let meta := RawImage.metadata raw_image in
  let ans := Image.make (ImageMetadata.width meta) (ImageMetadata.height meta) in
  let ans := Image.SetComment (RawImage.comment raw_image) ans in
  let image_data := RawImage.data raw_image in
  image_data <- Quantization raw_image image_data ;;
  image_data <- IDCT image_data ;;
  image_data <- Rationing image_data ;;
  GetAns image_data meta ans.

End Decoder.

(** ** Streams used as examples *)

Module Examples.

(** A grayscale 8x8 image of one block.  [DQT]: table 0, all ones.  [DHT]:
    DC table 0 with the one code [0] for the size 7, AC table 0 with the one
    code [0] for end-of-block.  The scan data [40 00] is the DC code, the
    seven bits [1000000] of the differential 64, and the end-of-block. *)
Definition soi : list Z := [0xff; 0xd8].
Definition eoi : list Z := [0xff; 0xd9].
Definition dqt_ones : list Z := [0xff; 0xdb; 0; 67; 0] ++ repeat 1 64.
Definition dht (class_id symbol : Z) : list Z :=
  [0xff; 0xc4; 0; 20; class_id; 1] ++ repeat 0 15 ++ [symbol].
Definition sof0 (precision : Z) : list Z :=
  [0xff; 0xc0; 0; 11; precision; 0; 8; 0; 8; 1; 1; 0x11; 0].
Definition sos (ss se ahal : Z) : list Z :=
  [0xff; 0xda; 0; 8; 1; 1; 0x00; ss; se; ahal].

Definition gray_dc64_with (precision ss se ahal : Z) : list Z :=
  soi ++ dqt_ones ++ dht 0x00 7 ++ dht 0x10 0 ++ sof0 precision
      ++ sos ss se ahal ++ [0x40; 0x00] ++ eoi.

Definition gray_dc64 : list Z := gray_dc64_with 8 0 63 0.

(** What the parser holds when it reaches the scan of such a stream: the
    tree with the one code [0] for [symbol], the two trees in their slots
    ([GetPairHash 0 false = 0], [GetPairHash 0 true = 1]), the frame. *)
Definition leaf_tree (symbol : Z) : HuffmanTree.t :=
  let root :=
    HuffmanTree.mkNode false None (Some (HuffmanTree.make_leaf symbol)) None in
  HuffmanTree.mk root (Some root).

Definition gray_trees (dc_symbol : Z) : list (option HuffmanTree.t) :=
  [Some (leaf_tree 0); Some (leaf_tree dc_symbol)] ++ repeat None 510.

Definition gray_meta : ImageMetadata.t :=
  ImageMetadata.mk 8 1 8 8 [ChannelMetadata.mk 1 1 1 0].

(** A frame of 17 x 8 pixels with two channels, the first sampled twice as
    often horizontally, and its scan as the parser finds it after the [SOS]
    marker: two MCUs of 16 x 8 pixels, each with two blocks of the first
    channel and one of the second.  With the DC size 0 every block is the
    two bits [00]. *)
Definition subsampled_meta : ImageMetadata.t :=
  ImageMetadata.mk 8 2 8 17
    [ChannelMetadata.mk 1 2 1 0; ChannelMetadata.mk 2 1 1 0].

Definition subsampled_scan : list Z :=
  [0; 10; 2; 1; 0x00; 2; 0x00; 0; 63; 0] ++ [0x00; 0x00] ++ eoi.

Definition subsampled_data : ImageData.t :=
  ImageData.mk [repeat (repeat 0 64) 4; repeat (repeat 0 64) 2] [1; 2] 1 2.

(** The same image with another size for its DC code and other scan
    data. *)
Definition gray_with_dc_symbol (dc_symbol : Z) (data : list Z) : list Z :=
  soi ++ dqt_ones ++ dht 0x00 dc_symbol ++ dht 0x10 0 ++ sof0 8
      ++ sos 0 63 0 ++ data ++ eoi.

(** The tree [Build] makes of two codes of two bits: [00] for 7 and [01]
    for 9. *)
Definition two_codes : HuffmanTree.t :=
  let root :=
    HuffmanTree.mkNode false None
      (Some (HuffmanTree.mkNode false None
               (Some (HuffmanTree.make_leaf 7))
               (Some (HuffmanTree.make_leaf 9))))
      None in
  HuffmanTree.mk root (Some root).

(** What [ReadRawImage] returns for [gray_dc64]. *)
Definition gray_raw : RawImage.t :=
  RawImage.mk [] (ImageData.mk [[64 :: repeat 0 63]] [1] 1 1) gray_meta
    (Some (QuantumTable.mk 0 (repeat 1 64)) :: repeat None 255).

(** A frame of 17 x 9 pixels with two channels, the first sampled twice as
    often in both directions (4:2:0), and its scan as the parser finds it
    after the [SOS] marker: two MCUs of 16 x 16 pixels in one row, each
    with four blocks of the first channel and one of the second.  Every
    block is the two bits [00]. *)
Definition quartered_meta : ImageMetadata.t :=
  ImageMetadata.mk 8 2 9 17
    [ChannelMetadata.mk 1 2 2 0; ChannelMetadata.mk 2 1 1 0].

Definition quartered_scan : list Z :=
  [0; 10; 2; 1; 0x00; 2; 0x00; 0; 63; 0] ++ [0x00; 0x00; 0x00] ++ eoi.

Definition quartered_data : ImageData.t :=
  ImageData.mk [repeat (repeat 0 64) 8; repeat (repeat 0 64) 2] [1; 2] 1 2.

End Examples.

(** ** Segments written out

    The bytes of a segment as the format lays them out, for statements
    about what the parser makes of them. *)

Module Layout.

Definition is_byte (b : Z) : Prop := 0 <= b < 256.

(** The triples [(id, h << 4 | v, quant_id)] of a frame header. *)
Fixpoint frame_channels (bytes : list Z) : list ChannelMetadata.t :=
  match bytes with
  | id :: hv :: quant_id :: bytes' =>
      ChannelMetadata.mk id (Z.shiftr hv 4) (Z.land hv 15) quant_id
      :: frame_channels bytes'
  | _ => []
  end.

(** The payload of a [SOF0] segment with [n] channels, after its marker:
    the length [8 + 3 n] on two bytes, the precision, the height and the
    width on two bytes each, [n], and the triples. *)
Definition sof0_segment (precision hh hl wh wl n : Z) (triples : list Z)
  : list Z :=
  [(8 + 3 * n) / 256; (8 + 3 * n) mod 256; precision; hh; hl; wh; wl; n]
    ++ triples.

(** The payload of a [SOS] segment, after its marker: the length on two
    bytes, the channel count [n], the pairs [(id, dc << 4 | ac)], and the
    three bytes [Ss], [Se], [Ah << 4 | Al]. *)
Definition sos_head (len n : Z) (pairs : list Z) : list Z :=
  [len / 256; len mod 256; n] ++ pairs.

Definition sos_segment (len n : Z) (pairs : list Z) (ss se ahal : Z) : list Z :=
  sos_head len n pairs ++ [ss; se; ahal].

End Layout.

(** ** The order of the blocks of a scan

    The order of the specification: the MCUs in raster order, in every MCU
    the channels in scan order, for every channel its [h x v] blocks in
    raster order. *)

Module Schedule.

Fixpoint zrange_from (i : Z) (n : nat) : list Z :=
  match n with
  | O => []
  | S k => i :: zrange_from (i + 1) k
  end.

(** The integers [0 .. n - 1]. *)
Definition zrange (n : Z) : list Z := zrange_from 0 (Z.to_nat n).

Record position : Type := mk {
  mcu_y : Z; mcu_x : Z; channel : Z; block_v : Z; block_h : Z
}.

Definition block_order (channel_metadata : list ChannelMetadata.t)
    (channels_cnt mcu_h mcu_w : Z) : list position :=
  flat_map (fun mcu_y =>
    flat_map (fun mcu_x =>
      flat_map (fun c =>
        let channel_meta :=
          nth (Z.to_nat c) channel_metadata ChannelMetadata.default in
        flat_map (fun block_v =>
          flat_map (fun block_h => [mk mcu_y mcu_x c block_v block_h])
            (zrange (ChannelMetadata.h channel_meta)))
          (zrange (ChannelMetadata.v channel_meta)))
        (zrange channels_cnt))
      (zrange mcu_w))
    (zrange mcu_h).

(** [step] on the elements of a list, from left to right, stopping at the
    first that is not [Ok]. *)
Fixpoint fold_result {X S : Type} (step : X -> S -> result S) (l : list X)
    (s : S) : result S :=
  match l with
  | [] => Ok s
  | x :: l' => s1 <- step x s ;; fold_result step l' s1
  end.

(** One block read per position, for the channel of the position. *)
Definition read_in_order {S : Type} (read : Z -> S -> result S)
    (order : list position) (s : S) : result S :=
  fold_result (fun p => read (channel p)) order s.

(** The number of blocks of channel [c] in an order. *)
Definition blocks_of (c : Z) (order : list position) : nat :=
  List.length (filter (fun p => channel p =? c) order).

(** [m] is the quotient [w / d] rounded up. *)
Definition is_ceil_div (w d m : Z) : Prop := (m - 1) * d < w <= m * d.

(** A frame header as [ReadImageMeta] produces them: a height and a width
    of 16 bits that are not 0, sampling factors that are not negative. *)
Definition frame_ok (meta : ImageMetadata.t) : Prop :=
  0 < ImageMetadata.height meta < 65536
  /\ 0 < ImageMetadata.width meta < 65536
  /\ Forall (fun c => 0 <= ChannelMetadata.h c /\ 0 <= ChannelMetadata.v c)
       (ImageMetadata.channels meta).

(** [m] is the largest of the numbers [f c] over the channels [c]. *)
Definition is_max_of (f : ChannelMetadata.t -> Z)
    (channels : list ChannelMetadata.t) (m : Z) : Prop :=
  Forall (fun c => f c <= m) channels /\ Exists (fun c => f c = m) channels.

(** The order of the specification on the blocks of a scan: the MCUs in
    raster order, rows first; within an MCU the channels in the order of
    the scan; within a channel the blocks in raster order, rows first. *)
Definition before (p q : position) : Prop :=
  mcu_y p < mcu_y q
  \/ (mcu_y p = mcu_y q
      /\ (mcu_x p < mcu_x q
          \/ (mcu_x p = mcu_x q
              /\ (channel p < channel q
                  \/ (channel p = channel q
                      /\ (block_v p < block_v q
                          \/ (block_v p = block_v q
                              /\ block_h p < block_h q))))))).

(** The blocks of a scan: the MCUs of the grid, the channels of the scan,
    and for each of them [v] rows of [h] blocks. *)
Definition in_scan (channel_metadata : list ChannelMetadata.t)
    (channels_cnt mcu_h mcu_w : Z) (p : position) : Prop :=
  let cm := nth (Z.to_nat (channel p)) channel_metadata ChannelMetadata.default in
  0 <= mcu_y p < mcu_h
  /\ 0 <= mcu_x p < mcu_w
  /\ 0 <= channel p < channels_cnt
  /\ 0 <= block_v p < ChannelMetadata.v cm
  /\ 0 <= block_h p < ChannelMetadata.h cm.

End Schedule.

(** ** Sizes *)

Module Shape.
(** The size of a block and of a table: the 64 entries of an 8 x 8
    square. *)
Definition blocks64 (matrix : list (list (list Z))) : Prop :=
  Forall (Forall (fun block => List.length block = 64%nat)) matrix.

Definition tables64 (tables : list (option QuantumTable.t)) : Prop :=
  Forall (fun q => match q with
                   | Some t => List.length (QuantumTable.data t) = 64%nat
                   | None => True
                   end) tables.

(** What the marker loop of [ReadRawImage] keeps true of its locals. *)
Definition parsed64 (s : Parser.segments) : Prop :=
  tables64 (Parser.quantum_tables s)
  /\ match Parser.image_data s with
     | Some img => blocks64 (ImageData.channel_matrix img)
     | None => True
     end.
End Shape.

(** * Properties *)

Section BitSource.
Import BitReader.

Lemma refill_stuffed (r : t) :
  refill (stuffed r) = result_map stuffed (refill_unstuffed r).
Proof.
  unfold refill, refill_unstuffed, stuffed; simpl.
  destruct (buffer_size_ r =? 0); [|reflexivity].
  destruct (in_ r) as [|b rest]; simpl; [reflexivity|].
  destruct (b =? 255) eqn:Hb; simpl.
  - apply Z.eqb_eq in Hb; subst b; reflexivity.
  - rewrite Hb; reflexivity.
Qed.

Lemma ReadBits_loop_stuffed (n : nat) :
  forall (acc : Z) (r : t),
    ReadBits_loop n acc (stuffed r)
    = result_map (fun p => (fst p, stuffed (snd p)))
        (ReadBits_unstuffed_loop n acc r).
Proof.
  induction n as [|n IH]; intros acc r; simpl; [reflexivity|].
  rewrite refill_stuffed.
  destruct (refill_unstuffed r) as [r1| | |]; simpl; try reflexivity.
  apply (IH _ (mk (in_ r1) _ _)).
Qed.

Lemma ReadBits_stuffed (n : Z) (r : t) :
  ReadBits n (stuffed r)
  = result_map (fun p => (fst p, stuffed (snd p))) (ReadBits_unstuffed n r).
Proof.
  unfold ReadBits, ReadBits_unstuffed.
  destruct (n >? kCharSz * 2); [reflexivity|].
  apply ReadBits_loop_stuffed.
Qed.

Lemma read_all_stuffed (widths : list Z) :
  forall r : t,
    read_all ReadBits widths (stuffed r)
    = result_map (fun p => (fst p, stuffed (snd p)))
        (read_all ReadBits_unstuffed widths r).
Proof.
  induction widths as [|n ws IH]; intros r; simpl; [reflexivity|].
  rewrite ReadBits_stuffed.
  destruct (ReadBits_unstuffed n r) as [[v r1]| | |]; simpl; try reflexivity.
  rewrite IH.
  destruct (read_all ReadBits_unstuffed ws r1) as [[vs r2]| | |]; reflexivity.
Qed.

End BitSource.


Section BitSourceRefill.
Import BitReader.

Lemma refill_pending (s : list Z) (buf : Z) (k : nat) :
  refill (mk s buf (Z.of_nat (S k))) = Ok (mk s buf (Z.of_nat (S k))).
Proof.
  unfold refill; simpl buffer_size_.
  destruct (Z.of_nat (S k) =? 0) eqn:E; [|reflexivity].
  apply Z.eqb_eq in E; lia.
Qed.

(** The bits still held are handed out first; the refill that follows finds
    [FF] and a byte that is not [00]. *)
Lemma ReadBits_loop_marker (k m : nat) :
  forall (acc x buf : Z) (rest : list Z),
    x <> 0 ->
    ReadBits_loop (k + S m) acc (mk (255 :: x :: rest) buf (Z.of_nat k))
    = Throw "Encountered marker instead of 0xFF".
Proof.
  induction k as [|k IH]; intros acc x buf rest Hx.
  - simpl. unfold refill; simpl.
    destruct (x =? 0) eqn:E; [apply Z.eqb_eq in E; contradiction|reflexivity].
  - change (S k + S m)%nat with (S (k + S m)).
    cbn [ReadBits_loop]. rewrite refill_pending. cbn [bind in_ buffer_ buffer_size_].
    replace (Z.of_nat (S k) - 1) with (Z.of_nat k) by lia.
    apply IH; exact Hx.
Qed.

Lemma ReadBits_loop_marker_eof (k m : nat) :
  forall (acc buf : Z),
    ReadBits_loop (k + S m) acc (mk [255] buf (Z.of_nat k))
    = Throw "Encountered marker instead of 0xFF".
Proof.
  induction k as [|k IH]; intros acc buf.
  - reflexivity.
  - change (S k + S m)%nat with (S (k + S m)).
    cbn [ReadBits_loop]. rewrite refill_pending. cbn [bind in_ buffer_ buffer_size_].
    replace (Z.of_nat (S k) - 1) with (Z.of_nat k) by lia.
    apply IH.
Qed.

Lemma split_count (n k : Z) :
  0 <= k < n -> exists m : nat, Z.to_nat n = (Z.to_nat k + S m)%nat.
Proof.
  intros H. exists (Z.to_nat n - Z.to_nat k - 1)%nat. lia.
Qed.

(** C1: a refill of [ReadBits] that reads [FF] consumes exactly one more
    byte.  When that byte is [00] it is dropped and [FF] is the data: the
    call goes on as a reader that holds the eight bits of [FF] in front of
    the rest of the stream.  When it is another byte, or the stream ends
    there, the call throws; this holds whatever the number [k < n] of bits
    the buffer still held.  Hence every run of reads over a stuffed payload
    returns what the source without the stuffing rule returns over the
    payload itself, and leaves the stuffed rest of it. *)
Theorem ReadBits_byte_stuffing (n : Z) (Hn : 1 <= n <= 16) :
  (forall (rest : list Z) (buf : Z),
      ReadBits n (mk (255 :: 0 :: rest) buf 0) = ReadBits n (mk rest 255 8))
  /\ (forall (k x buf : Z) (rest : list Z),
         0 <= k < n -> x <> 0 ->
         ReadBits n (mk (255 :: x :: rest) buf k)
         = Throw "Encountered marker instead of 0xFF")
  /\ (forall (k buf : Z),
         0 <= k < n ->
         ReadBits n (mk [255] buf k)
         = Throw "Encountered marker instead of 0xFF")
  /\ (forall (r : t),
         ReadBits n (stuffed r)
         = result_map (fun p => (fst p, stuffed (snd p)))
             (ReadBits_unstuffed n r))
  /\ (forall (widths : list Z) (r : t),
         read_all ReadBits widths (stuffed r)
         = result_map (fun p => (fst p, stuffed (snd p)))
             (read_all ReadBits_unstuffed widths r)).
Proof.
  assert (Hle : (n >? kCharSz * 2) = false).
  { unfold kCharSz. rewrite Z.gtb_ltb. apply Z.ltb_ge. lia. }
  repeat split.
  - intros rest buf. unfold ReadBits. rewrite Hle.
    destruct (split_count n 0) as [m Hm]; [lia|]. rewrite Hm.
    reflexivity.
  - intros k x buf rest Hk Hx. unfold ReadBits. rewrite Hle.
    destruct (split_count n k Hk) as [m Hm]. rewrite Hm.
    replace k with (Z.of_nat (Z.to_nat k)) at 2 by lia.
    apply ReadBits_loop_marker; exact Hx.
  - intros k buf Hk. unfold ReadBits. rewrite Hle.
    destruct (split_count n k Hk) as [m Hm]. rewrite Hm.
    replace k with (Z.of_nat (Z.to_nat k)) at 2 by lia.
    apply ReadBits_loop_marker_eof.
  - intros r. apply ReadBits_stuffed.
  - intros widths r. apply read_all_stuffed.
Qed.

Lemma ReadBits_byte_stuffing_witness :
  ReadBits 3 (mk [255; 0; 17] 0 0) = ReadBits 3 (mk [17] 255 8)
  /\ ReadBits 3 (mk [255; 0xd9] 0 0) = Throw "Encountered marker instead of 0xFF"
  /\ read_all ReadBits [3; 9; 12] (init [0xa5; 255; 0; 0x3c])
     = Ok ([5; 0x5f; 0xf3c], mk [] 0 0).
Proof.
  pose proof (ReadBits_byte_stuffing 3 ltac:(lia)) as (Ha & Hb & _).
  split; [apply Ha|].
  split; [apply (Hb 0); [lia|discriminate]|].
  reflexivity.
Defined.

End BitSourceRefill.

Section EndOfStream.
Import BitReader.

(** C7 (the code departs from it): at the end of the stream [ReadBits]
    throws, but [ReadByte], and [ReadWord] with it, return without throwing
    anything: the value they return is a [char] that was never written.  A
    stream cut after [SOI], or a whole image cut before [EOI], is decoded
    without a reported error up to that read. *)
Theorem ReadByte_end_of_stream_unreported :
  (forall (n buf : Z), 1 <= n <= 16 -> ReadBits n (mk [] buf 0) = Throw "EOF")
  /\ (forall buf : Z,
         ReadByte (mk [] buf 0)
         = Undefined "ReadByte returns an uninitialised char")
  /\ (forall buf : Z,
         ReadWord (mk [] buf 0)
         = Undefined "ReadByte returns an uninitialised char")
  /\ (forall b buf : Z,
         ReadWord (mk [b] buf 0)
         = Undefined "ReadByte returns an uninitialised char")
  /\ is_Throw (Decoder.Decode Examples.soi) = false
  /\ is_Throw
       (Decoder.Decode (removelast (removelast Examples.gray_dc64))) = false.
Proof.
  repeat split; try reflexivity.
  intros n buf Hn. unfold ReadBits.
  replace (n >? kCharSz * 2) with false
    by (symmetry; unfold kCharSz; rewrite Z.gtb_ltb; apply Z.ltb_ge; lia).
  destruct (split_count n 0) as [m Hm]; [lia|]. rewrite Hm. reflexivity.
Qed.

End EndOfStream.

Section Huffman.
Import HuffmanTree.

(** C9 (the code departs from it): in the loop that skips the empty code
    lengths the element [code_lengths_new[now_length - 1]] is read before
    [now_length] is compared with the size.  With sixteen lengths and more
    values than the lengths announce, [now_length] reaches 17 and the
    element of index 16 is read, in both versions of [Build]. *)
Theorem Build_reads_past_the_end :
  Build (repeat 0 16) [0]
  = Undefined "code_lengths_new[now_length - 1] read past the end"
  /\ Build_baseline (repeat 0 16) [0]
     = Undefined "code_lengths_new[now_length - 1] read past the end"
  /\ Build (1 :: repeat 0 15) [5; 6]
     = Undefined "code_lengths_new[now_length - 1] read past the end"
  /\ Build_baseline (1 :: repeat 0 15) [5; 6]
     = Undefined "code_lengths_new[now_length - 1] read past the end"
  /\ skip_empty_lengths (skipn 16 (repeat 0 16)) 16 17
     = Undefined "code_lengths_new[now_length - 1] read past the end".
Proof.
  repeat split; reflexivity.
Qed.

End Huffman.

Section Dequantization.
Import Decoder.

Lemma s16_range (p : Z) : -32768 <= s16 p <= 32767.
Proof.
  unfold s16. pose proof (Z.mod_pos_bound (p + 32768) 65536). lia.
Qed.

Lemma s16_congruent (p : Z) : (s16 p - p) mod 65536 = 0.
Proof.
  unfold s16.
  pose proof (Z.div_mod (p + 32768) 65536 ltac:(lia)) as H.
  replace ((p + 32768) mod 65536 - 32768 - p)
    with (- ((p + 32768) / 65536) * 65536) by lia.
  apply Z_mod_mult.
Qed.

Lemma s16_exact_iff (p : Z) : s16 p = p <-> -32768 <= p <= 32767.
Proof.
  split.
  - intros H. rewrite <- H. apply s16_range.
  - intros H. unfold s16. rewrite Z.mod_small; lia.
Qed.

Lemma Mult_loop_length (one : list Z) :
  forall two : list Z,
    List.length one = List.length two ->
    List.length (Mult_loop one two) = List.length one.
Proof.
  induction one as [|a one IH]; intros [|q two] H; simpl in *;
    try discriminate; [reflexivity|].
  f_equal. apply IH. congruence.
Qed.

Lemma Mult_loop_nth (one : list Z) :
  forall (two : list Z) (i : nat) (a q : Z),
    nth_error one i = Some a -> nth_error two i = Some q ->
    nth_error (Mult_loop one two) i = Some (s16 (a * q)).
Proof.
  induction one as [|x one IH]; intros [|y two] [|i] a q Ha Hq; simpl in *;
    try discriminate.
  - congruence.
  - eapply IH; eassumption.
Qed.

(** C10: for a block and a table of the same length, [Mult] stores at every
    index the product of the two entries converted to [int16_t]: a value of
    [-32768 .. 32767] congruent to the product modulo 2^16.  It is the
    product itself exactly when the product lies in that range, and for
    some coefficient and quantizer it is not. *)
Theorem Mult_stores_product_modulo (one two : list Z)
    (Hlen : List.length one = List.length two) :
  exists out : list Z,
    Mult one two = Ok out
    /\ List.length out = List.length one
    /\ (forall (i : nat) (a q : Z),
           nth_error one i = Some a -> nth_error two i = Some q ->
           exists p : Z,
             nth_error out i = Some p
             /\ -32768 <= p <= 32767
             /\ (p - a * q) mod 65536 = 0
             /\ (p = a * q <-> -32768 <= a * q <= 32767))
    /\ (exists a q : Z,
           -32768 <= a <= 32767 /\ 0 <= q <= 65535
           /\ Mult [a] [q] = Ok [0] /\ a * q = 65536).
Proof.
  exists (Mult_loop one two). repeat split.
  - unfold Mult. rewrite Hlen, Nat.eqb_refl. reflexivity.
  - apply Mult_loop_length; exact Hlen.
  - intros i a q Ha Hq. exists (s16 (a * q)).
    split; [eapply Mult_loop_nth; eassumption|].
    split; [apply s16_range|].
    split; [apply s16_congruent|apply s16_exact_iff].
  - exists 256, 256. repeat split; lia.
Qed.

Lemma Mult_stores_product_modulo_witness :
  exists out : list Z,
    Mult [64; -3; 300] [1; 2; 200] = Ok out
    /\ List.length out = 3%nat
    /\ exists p : Z, nth_error out 2 = Some p /\ (p - 300 * 200) mod 65536 = 0.
Proof.
  destruct (Mult_stores_product_modulo [64; -3; 300] [1; 2; 200] eq_refl)
    as (out & Hout & Hlen & Hnth & _).
  exists out. split; [exact Hout|]. split; [exact Hlen|].
  destruct (Hnth 2%nat 300 200 eq_refl eq_refl) as (p & Hp & _ & Hmod & _).
  exists p. split; assumption.
Defined.

(** C6 (the code departs from it): the fixed-point conversion scales the
    decimal coefficients by 1000 and shifts by 10 bits, that is, divides by
    1024.  For [(Y, Cb, Cr) = (0, 128, 255)] it gives [R = 173], five below
    the reference value 178; for [(76, 85, 255)] it gives [(249, 1, 1)]
    against [(254, 0, 0)]. *)
Theorem YCbCrToRGB_fixed_point_off_by_five :
  YCbCrToRGB [0; 128; 255] = Ok (RGB.mk 173 0 0)
  /\ YCbCrToRGB_reference 0 128 255 = RGB.mk 178 0 0
  /\ YCbCrToRGB [76; 85; 255] = Ok (RGB.mk 249 1 1)
  /\ YCbCrToRGB_reference 76 85 255 = RGB.mk 254 0 0
  /\ Z.abs (173 - 178) > 1.
Proof.
  repeat split.
Qed.

End Dequantization.

Section Reconstruction.
Import Decoder.

Lemma GetMetaByChannelId_head (p n hgt wid id h v q : Z)
    (rest : list ChannelMetadata.t) :
  ImageMetadata.GetMetaByChannelId
    (ImageMetadata.mk p n hgt wid (ChannelMetadata.mk id h v q :: rest)) id
  = Ok (ChannelMetadata.mk id h v q).
Proof.
  unfold ImageMetadata.GetMetaByChannelId. simpl.
  rewrite Z.eqb_refl. reflexivity.
Qed.

(** The three stages on the block with [DC = 64]: the products with the
    all-ones table, the inverse transform, the level shift. *)
Lemma Mult_dc64 :
  Mult (64 :: repeat 0 63) (repeat 1 64) = Ok (64 :: repeat 0 63).
Proof. vm_compute. reflexivity. Qed.

Lemma IDCT_block_dc64 : IDCT_block (64 :: repeat 0 63) = Ok (repeat 8 64).
Proof. vm_compute. reflexivity. Qed.

Lemma Rationing_dc64 : map Rationing_sample (repeat 8 64) = repeat 136 64.
Proof. vm_compute. reflexivity. Qed.

(** C8, as the code has it: a grayscale 8x8 stream whose one block has the
    DC coefficient 64 and no AC coefficient, with a quantization table of
    ones, decodes to an image whose every pixel is RGB(136, 136, 136).  The
    block with [DC = 64] is scaled to [64 / 16 * sqrt 2 * sqrt 2 = 8], the
    transform spreads the 8 over the block, and the level shift adds 128. *)
Theorem Decode_gray_dc64 (input : list Z) (r : BitReader.t) (id qid tid : Z)
    (tables : list (option QuantumTable.t)) (cmt : list Z)
    (Hparse :
       Parser.ReadRawImage (BitReader.init input)
       = Ok (RawImage.mk cmt
               (ImageData.mk [[64 :: repeat 0 63]] [id] 1 1)
               (ImageMetadata.mk 8 1 8 8 [ChannelMetadata.mk id 1 1 qid])
               tables, r))
    (Hones :
       nth (Z.to_nat qid) tables None
       = Some (QuantumTable.mk tid (repeat 1 64))) :
  Decode input = Ok (Image.mk cmt (repeat (repeat (RGB.mk 136 136 136) 8) 8)).
Proof.
  unfold Decode. rewrite Hparse.
  cbn [bind RawImage.metadata RawImage.data RawImage.comment].
  unfold Quantization.
  cbn [RawImage.metadata RawImage.quantum_tables ImageData.channel_ids
       ImageData.channel_matrix List.length for_].
  replace (vector_at [id] 0) with (Ok id) by reflexivity.
  cbn [bind]. rewrite GetMetaByChannelId_head.
  cbn [bind ChannelMetadata.quant_id]. rewrite Hones.
  replace (vector_at [[64 :: repeat 0 63]] 0) with (Ok [64 :: repeat 0 63])
    by reflexivity.
  cbn [bind QuantumTable.data map_result]. rewrite Mult_dc64.
  cbn [bind map_result ImageData.mcu_h ImageData.mcu_w].
  replace (vector_update (Z.to_nat 0) (fun _ => [64 :: repeat 0 63])
             [[64 :: repeat 0 63]])
    with [[64 :: repeat 0 63]] by reflexivity.
  unfold IDCT, on_blocks.
  cbn [ImageData.channel_ids ImageData.channel_matrix List.length for_].
  replace (vector_at [[64 :: repeat 0 63]] 0) with (Ok [64 :: repeat 0 63])
    by reflexivity.
  cbn [bind map_result]. rewrite IDCT_block_dc64.
  cbn [bind ImageData.mcu_h ImageData.mcu_w].
  replace (vector_update (Z.to_nat 0) (fun _ => [repeat 8 64])
             [[64 :: repeat 0 63]])
    with [[repeat 8 64]] by reflexivity.
  unfold Rationing, on_blocks.
  cbn [ImageData.channel_ids ImageData.channel_matrix List.length for_].
  replace (vector_at [[repeat 8 64]] 0) with (Ok [repeat 8 64]) by reflexivity.
  cbn [bind map_result ImageData.mcu_h ImageData.mcu_w].
  rewrite Rationing_dc64.
  replace (vector_update (Z.to_nat 0) (fun _ => [repeat 136 64])
             [[repeat 8 64]])
    with [[repeat 136 64]] by reflexivity.
  unfold GetAns, GetAns_scaling.
  cbn [ImageData.channel_ids ImageData.channel_matrix List.length for_ bind
       ImageMetadata.channels ImageData.mcu_h ImageData.mcu_w].
  replace (vector_at [ChannelMetadata.mk id 1 1 qid] 0)
    with (Ok (ChannelMetadata.mk id 1 1 qid)) by reflexivity.
  replace (vector_at [id] 0) with (Ok id) by reflexivity.
  cbn [bind]. rewrite GetMetaByChannelId_head.
  vm_compute. reflexivity.
Qed.

Lemma Decode_gray_dc64_witness :
  Decode Examples.gray_dc64
  = Ok (Image.mk [] (repeat (repeat (RGB.mk 136 136 136) 8) 8)).
Proof.
  apply (Decode_gray_dc64 Examples.gray_dc64 (BitReader.mk [] 0 0) 1 0 0
           (Some (QuantumTable.mk 0 (repeat 1 64)) :: repeat None 255) []).
  - vm_compute. reflexivity.
  - vm_compute. reflexivity.
Defined.

(** The stream [Examples.gray_dc64] is such a stream, and none of its
    pixels is RGB(192, 192, 192). *)
Lemma Decode_gray_dc64_is_not_192 :
  (exists r : BitReader.t,
      Parser.ReadRawImage (BitReader.init Examples.gray_dc64)
      = Ok (RawImage.mk []
              (ImageData.mk [[64 :: repeat 0 63]] [1] 1 1)
              (ImageMetadata.mk 8 1 8 8 [ChannelMetadata.mk 1 1 1 0])
              (Some (QuantumTable.mk 0 (repeat 1 64)) :: repeat None 255), r))
  /\ (exists img : Image.t,
         Decode Examples.gray_dc64 = Ok img
         /\ forall row p,
              In row (Image.pixels img) -> In p row ->
              p = RGB.mk 136 136 136 /\ p <> RGB.mk 192 192 192).
Proof.
  split.
  - exists (BitReader.mk [] 0 0). vm_compute. reflexivity.
  - exists (Image.mk [] (repeat (repeat (RGB.mk 136 136 136) 8) 8)).
    split; [vm_compute; reflexivity|].
    intros row p Hrow Hp. cbn [Image.pixels] in Hrow.
    apply repeat_spec in Hrow. subst row.
    apply repeat_spec in Hp. subst p.
    split; [reflexivity|discriminate].
Qed.

End Reconstruction.

Section FrameHeader.
Import BitReader Layout.

Lemma ReadByte_cons (b buf : Z) (s : list Z) :
  is_byte b -> ReadByte (mk (b :: s) buf 0) = Ok (b, mk s buf 0).
Proof.
  intros Hb. unfold ReadByte; simpl. unfold u8.
  rewrite Z.mod_small by exact Hb. reflexivity.
Qed.

Lemma land_shiftl_byte (hi lo : Z) :
  is_byte lo -> Z.land (Z.shiftl hi 8) lo = 0.
Proof.
  intros Hlo. apply Z.bits_inj'. intros n Hn.
  rewrite Z.land_spec, Z.bits_0.
  destruct (Z.lt_ge_cases n 8) as [Hlt|Hge].
  - rewrite Z.shiftl_spec_low by exact Hlt. reflexivity.
  - replace lo with (lo mod 2 ^ 8) by (apply Z.mod_small; exact Hlo).
    rewrite Z.mod_pow2_bits_high by lia. apply andb_false_r.
Qed.

Lemma lor_bytes (hi lo : Z) :
  is_byte lo -> Z.lor (Z.shiftl hi 8) lo = hi * 256 + lo.
Proof.
  intros Hlo.
  pose proof (Z.add_lor_land (Z.shiftl hi 8) lo) as H.
  rewrite land_shiftl_byte in H by exact Hlo.
  rewrite Z.shiftl_mul_pow2 in H by lia.
  rewrite Z.shiftl_mul_pow2 by lia. change (2 ^ 8) with 256 in *. lia.
Qed.

Lemma ReadWord_cons (hi lo buf : Z) (s : list Z) :
  is_byte hi -> is_byte lo ->
  ReadWord (mk (hi :: lo :: s) buf 0) = Ok (hi * 256 + lo, mk s buf 0).
Proof.
  intros Hhi Hlo. unfold ReadWord.
  rewrite ReadByte_cons by exact Hhi. cbn [bind].
  rewrite ReadByte_cons by exact Hlo. cbn [bind].
  unfold kCharSz. rewrite Z.lor_0_l.
  assert (Hsh : u16 (Z.shiftl hi 8) = Z.shiftl hi 8).
  { unfold u16, is_byte in *. rewrite Z.shiftl_mul_pow2 by lia.
    change (2 ^ 8) with 256. apply Z.mod_small. lia. }
  rewrite Hsh, lor_bytes by exact Hlo. reflexivity.
Qed.

Lemma length_word (len : Z) :
  0 <= len < 65536 -> is_byte (len / 256) /\ is_byte (len mod 256)
  /\ len / 256 * 256 + len mod 256 = len.
Proof.
  intros H. unfold is_byte.
  pose proof (Z.div_mod len 256 ltac:(lia)).
  pose proof (Z.mod_pos_bound len 256 ltac:(lia)).
  assert (0 <= len / 256) by (apply Z.div_pos; lia).
  assert (len / 256 < 256) by (apply Z.div_lt_upper_bound; lia).
  lia.
Qed.

Lemma ReadSz_cons (len buf : Z) (s : list Z) :
  2 <= len < 65536 ->
  Parser.ReadSz (mk (len / 256 :: len mod 256 :: s) buf 0)
  = Ok (len - 2, mk s buf 0).
Proof.
  intros H. destruct (length_word len) as (H1 & H2 & H3); [lia|].
  unfold Parser.ReadSz. rewrite ReadWord_cons by assumption.
  cbn [bind]. rewrite H3.
  destruct (len <? 2) eqn:E; [apply Z.ltb_lt in E; lia|].
  unfold u16. rewrite Z.mod_small by lia. reflexivity.
Qed.

(** The loop over the channels of the frame header reads the triples and
    nothing else. *)
Lemma frame_channels_loop (n : nat) :
  forall (triples rest : list Z) (acc : list ChannelMetadata.t) (buf i : Z),
    List.length triples = (3 * n)%nat ->
    Forall is_byte triples ->
    for_ n i (fun _ => Parser.ReadImageMeta_channel)
      (acc, mk (triples ++ rest) buf 0)
    = Ok (acc ++ frame_channels triples, mk rest buf 0).
Proof.
  induction n as [|n IH]; intros triples rest acc buf i Hlen Hall.
  - destruct triples; [|simpl in Hlen; lia].
    simpl. rewrite app_nil_r. reflexivity.
  - destruct triples as [|a [|b [|c triples]]]; try (simpl in Hlen; lia).
    apply Forall_cons_iff in Hall as [Ha Hall].
    apply Forall_cons_iff in Hall as [Hb Hall].
    apply Forall_cons_iff in Hall as [Hc Hall3].
    cbn [for_ app]. unfold Parser.ReadImageMeta_channel at 1.
    rewrite ReadByte_cons by exact Ha. cbn [bind].
    rewrite ReadByte_cons by exact Hb. cbn [bind].
    rewrite ReadByte_cons by exact Hc. cbn [bind].
    rewrite IH; [|simpl in Hlen; lia|exact Hall3].
    cbn [frame_channels]. rewrite <- app_assoc. reflexivity.
Qed.

Lemma frame_channels_length (n : nat) :
  forall triples : list Z,
    List.length triples = (3 * n)%nat ->
    List.length (frame_channels triples) = n.
Proof.
  induction n as [|n IH]; intros triples Hlen.
  - destruct triples; [reflexivity|simpl in Hlen; lia].
  - destruct triples as [|a [|b [|c triples]]]; try (simpl in Hlen; lia).
    cbn [frame_channels List.length]. f_equal. apply IH. simpl in Hlen. lia.
Qed.

(** C5, as the code has it: the precision byte of a [SOF0] segment is read
    and stored, and never compared with anything.  A frame header with a
    non-zero height, a non-zero width and [n] channel triples under the
    length [8 + 3 n] is accepted whatever its precision byte, 8 or not. *)
Theorem ReadImageMeta_accepts_any_precision
    (precision hh hl wh wl n buf : Z) (triples rest : list Z)
    (Hp : is_byte precision)
    (Hhh : is_byte hh) (Hhl : is_byte hl) (Hwh : is_byte wh) (Hwl : is_byte wl)
    (Hn : is_byte n)
    (Hheight : hh * 256 + hl <> 0) (Hwidth : wh * 256 + wl <> 0)
    (Hlen : Z.of_nat (List.length triples) = 3 * n)
    (Htriples : Forall is_byte triples) :
  Parser.ReadImageMeta
    (mk (sof0_segment precision hh hl wh wl n triples ++ rest) buf 0)
  = Ok (ImageMetadata.mk precision n (hh * 256 + hl) (wh * 256 + wl)
          (frame_channels triples),
        mk rest buf 0).
Proof.
  unfold is_byte in Hn.
  unfold Parser.ReadImageMeta, sof0_segment. cbn [app].
  rewrite ReadSz_cons by lia. cbn [bind].
  destruct (8 + 3 * n - 2 <? 6) eqn:E; [apply Z.ltb_lt in E; lia|].
  rewrite ReadByte_cons by exact Hp. cbn [bind].
  rewrite ReadWord_cons by assumption. cbn [bind].
  rewrite ReadWord_cons by assumption. cbn [bind].
  rewrite ReadByte_cons by exact Hn. cbn [bind].
  destruct (hh * 256 + hl =? 0) eqn:E1; [apply Z.eqb_eq in E1; contradiction|].
  destruct (wh * 256 + wl =? 0) eqn:E2; [apply Z.eqb_eq in E2; contradiction|].
  cbn [orb].
  unfold u16. rewrite (Z.mod_small (8 + 3 * n - 2 - 6)) by lia.
  replace (8 + 3 * n - 2 - 6 =? n * 3) with true
    by (symmetry; apply Z.eqb_eq; lia).
  cbn [negb].
  rewrite (frame_channels_loop (Z.to_nat n)); [|lia|exact Htriples].
  cbn [bind app]. unfold ImageMetadata.make.
  rewrite (frame_channels_length (Z.to_nat n)) by lia.
  rewrite Z2Nat.id by lia. rewrite Z.eqb_refl. reflexivity.
Qed.

Lemma ReadImageMeta_accepts_any_precision_witness :
  Parser.ReadImageMeta
    (mk (sof0_segment 12 0 8 0 8 1 [1; 0x11; 0] ++ [0xff; 0xd9]) 0 0)
  = Ok (ImageMetadata.mk 12 1 8 8 [ChannelMetadata.mk 1 1 1 0],
        mk [0xff; 0xd9] 0 0).
Proof.
  apply (ReadImageMeta_accepts_any_precision 12 0 8 0 8 1 0 [1; 0x11; 0]
           [0xff; 0xd9]);
    unfold is_byte; try lia; try reflexivity.
  repeat constructor; unfold is_byte; lia.
Defined.

(** A frame header with the precision 12 is parsed, and the stream that
    carries it is decoded. *)
Lemma ReadImageMeta_precision_12_accepted :
  nth 2 (sof0_segment 12 0 8 0 8 1 [1; 0x11; 0]) 0 <> 8
  /\ is_Throw
       (Parser.ReadImageMeta
          (init (sof0_segment 12 0 8 0 8 1 [1; 0x11; 0]))) = false
  /\ Parser.ReadImageMeta (init (sof0_segment 12 0 8 0 8 1 [1; 0x11; 0]))
     = Ok (ImageMetadata.mk 12 1 8 8 [ChannelMetadata.mk 1 1 1 0], mk [] 0 0)
  /\ is_Ok (Decoder.Decode (Examples.gray_dc64_with 12 0 63 0)) = true.
Proof.
  split; [discriminate|]. split; [reflexivity|]. split; [reflexivity|].
  vm_compute. reflexivity.
Qed.

End FrameHeader.

Section ScanHeader.
Import BitReader Layout.

(** The loop over the channels of the scan header reads the pairs and
    nothing else: what it returns does not depend on what follows them. *)
Lemma scan_channels_loop (trees : list (option HuffmanTree.t)) (n : nat) :
  forall (pairs : list Z) (ids : list Z) (dcs acs : list HuffmanTree.t) (i : Z),
    List.length pairs = (2 * n)%nat ->
    Forall is_byte pairs ->
    exists res : result (list Z * list HuffmanTree.t * list HuffmanTree.t),
      settled res = true
      /\ forall (tail : list Z) (buf : Z),
           for_ n i (fun _ => Parser.ReadImageData_channel trees)
             (ids, dcs, acs, mk (pairs ++ tail) buf 0)
           = result_map (fun x => (x, mk tail buf 0)) res.
Proof.
  induction n as [|n IH]; intros pairs ids dcs acs i Hlen Hall.
  - destruct pairs; [|simpl in Hlen; lia].
    exists (Ok (ids, dcs, acs)). split; reflexivity.
  - destruct pairs as [|a [|b pairs]]; try (simpl in Hlen; lia).
    apply Forall_cons_iff in Hall as [Ha Hall].
    apply Forall_cons_iff in Hall as [Hb Hall].
    destruct (Parser.lookup_tree trees
                (Parser.GetPairHash (Z.shiftr b 4) true)) as [dc|] eqn:Edc;
      [destruct (Parser.lookup_tree trees
                   (Parser.GetPairHash (Z.land b Parser.kLowestByteMask) false))
         as [ac|] eqn:Eac|].
    + destruct (IH pairs (ids ++ [a]) (dcs ++ [dc]) (acs ++ [ac]) (i + 1))
        as (res & Hres & Heq); [simpl in Hlen; lia|exact Hall|].
      exists res. split; [exact Hres|]. intros tail buf.
      cbn [for_ app]. unfold Parser.ReadImageData_channel at 1.
      rewrite ReadByte_cons by exact Ha. cbn [bind].
      rewrite ReadByte_cons by exact Hb. cbn [bind].
      rewrite Edc, Eac. cbn [bind]. apply Heq.
    + exists (Throw "No huffman table found"). split; [reflexivity|].
      intros tail buf.
      cbn [for_ app]. unfold Parser.ReadImageData_channel at 1.
      rewrite ReadByte_cons by exact Ha. cbn [bind].
      rewrite ReadByte_cons by exact Hb. cbn [bind].
      rewrite Edc, Eac. reflexivity.
    + exists (Throw "No huffman table found"). split; [reflexivity|].
      intros tail buf.
      cbn [for_ app]. unfold Parser.ReadImageData_channel at 1.
      rewrite ReadByte_cons by exact Ha. cbn [bind].
      rewrite ReadByte_cons by exact Hb. cbn [bind].
      rewrite Edc. reflexivity.
Qed.

Lemma ReadImageData_channels_frame (trees : list (option HuffmanTree.t))
    (len n : Z) (pairs : list Z) :
  2 <= len < 65536 -> is_byte n ->
  Z.of_nat (List.length pairs) = 2 * n -> Forall is_byte pairs ->
  exists res :
    result (Z * Z * list Z * list HuffmanTree.t * list HuffmanTree.t),
    settled res = true
    /\ forall (tail : list Z) (buf : Z),
         Parser.ReadImageData_channels trees
           (mk (sos_head len n pairs ++ tail) buf 0)
         = result_map (fun x => (x, mk tail buf 0)) res.
Proof.
  intros Hlen Hn Hpairs Hall.
  unfold Parser.ReadImageData_channels, sos_head.
  destruct (len - 2 <? 1) eqn:E1.
  { exists (Throw "No info about channels cnt"). split; [reflexivity|].
    intros tail buf. cbn [app]. rewrite ReadSz_cons by exact Hlen.
    cbn [bind]. rewrite E1. reflexivity. }
  destruct (u16 (len - 2 - 1) <? n * 2) eqn:E2.
  { exists (Throw "Bad image data size"). split; [reflexivity|].
    intros tail buf. cbn [app]. rewrite ReadSz_cons by exact Hlen.
    cbn [bind]. rewrite E1. rewrite ReadByte_cons by exact Hn.
    cbn [bind]. rewrite E2. reflexivity. }
  destruct (scan_channels_loop trees (Z.to_nat n) pairs [] [] [] 0)
    as (res & Hres & Heq); [unfold is_byte in Hn; lia|exact Hall|].
  destruct res as [[[ids dcs] acs]|what|why|]; try discriminate Hres.
  - exists (Ok (u16 (u16 (len - 2 - 1) - n * 2), n, ids, dcs, acs)).
    split; [reflexivity|]. intros tail buf.
    cbn [app]. rewrite ReadSz_cons by exact Hlen.
    cbn [bind]. rewrite E1. rewrite ReadByte_cons by exact Hn.
    cbn [bind]. rewrite E2. rewrite Heq. reflexivity.
  - exists (Throw what). split; [reflexivity|]. intros tail buf.
    cbn [app]. rewrite ReadSz_cons by exact Hlen.
    cbn [bind]. rewrite E1. rewrite ReadByte_cons by exact Hn.
    cbn [bind]. rewrite E2. rewrite Heq. reflexivity.
Qed.

Lemma ReadImageData_spectral_se (sz ss se ahal buf : Z) (rest : list Z) :
  3 <= sz -> is_byte ss -> is_byte se -> se <> 63 ->
  Parser.ReadImageData_spectral sz (mk (ss :: se :: ahal :: rest) buf 0)
  = Throw "Inconsistent SOS for baseline JPEG".
Proof.
  intros Hsz Hss Hse Hne. unfold Parser.ReadImageData_spectral.
  destruct (sz <? 3) eqn:E; [apply Z.ltb_lt in E; lia|].
  rewrite ReadByte_cons by exact Hss. cbn [bind].
  rewrite ReadByte_cons by exact Hse. cbn [bind].
  destruct (se =? 63) eqn:E63; [apply Z.eqb_eq in E63; contradiction|].
  reflexivity.
Qed.

Lemma ReadImageData_spectral_unchecked (sz ss ss' se ahal ahal' buf : Z)
    (rest : list Z) :
  is_byte ss -> is_byte ss' -> is_byte se -> is_byte ahal -> is_byte ahal' ->
  Parser.ReadImageData_spectral sz (mk (ss :: se :: ahal :: rest) buf 0)
  = Parser.ReadImageData_spectral sz (mk (ss' :: se :: ahal' :: rest) buf 0).
Proof.
  intros Hss Hss' Hse Ha Ha'. unfold Parser.ReadImageData_spectral.
  destruct (sz <? 3); [reflexivity|].
  rewrite !ReadByte_cons by assumption. cbn [bind].
  rewrite !ReadByte_cons by assumption. cbn [bind].
  destruct (negb (se =? 63)); [reflexivity|].
  rewrite !ReadByte_cons by assumption. reflexivity.
Qed.

Lemma ReadImageData_spectral_settled_se (sz ss se ahal buf : Z) (rest : list Z) :
  is_byte ss -> is_byte se -> se <> 63 ->
  is_Throw
    (Parser.ReadImageData_spectral sz (mk (ss :: se :: ahal :: rest) buf 0))
  = true.
Proof.
  intros Hss Hse Hne. destruct (Z.lt_ge_cases sz 3) as [Hlt|Hge].
  - unfold Parser.ReadImageData_spectral.
    apply Z.ltb_lt in Hlt. rewrite Hlt. reflexivity.
  - rewrite ReadImageData_spectral_se by (assumption || lia). reflexivity.
Qed.

(** C4, as the code has it: of the three bytes that end the scan header
    only the second, [Se], is verified.  A scan header whose [Se] is not 63
    is rejected; with three bytes left in the segment the error is the one
    for a scan that is not baseline.  The bytes [Ss] and [Ah << 4 | Al] are
    read and dropped: replacing them by any other bytes changes nothing in
    what [ReadImageData] returns. *)
Theorem ReadImageData_checks_only_se
    (trees : list (option HuffmanTree.t)) (meta : ImageMetadata.t)
    (len n ss se ahal buf : Z) (pairs rest : list Z)
    (Hlen : 2 <= len < 65536) (Hn : is_byte n)
    (Hpairs : Z.of_nat (List.length pairs) = 2 * n)
    (Hbytes : Forall is_byte pairs)
    (Hss : is_byte ss) (Hse : is_byte se) (Hahal : is_byte ahal) :
  (se <> 63 ->
   is_Throw
     (Parser.ReadImageData trees meta
        (mk (sos_segment len n pairs ss se ahal ++ rest) buf 0)) = true)
  /\ (se <> 63 ->
      forall sz : Z, 3 <= sz ->
        Parser.ReadImageData_spectral sz (mk (ss :: se :: ahal :: rest) buf 0)
        = Throw "Inconsistent SOS for baseline JPEG")
  /\ (forall ss' ahal' : Z, is_byte ss' -> is_byte ahal' ->
        Parser.ReadImageData trees meta
          (mk (sos_segment len n pairs ss se ahal ++ rest) buf 0)
        = Parser.ReadImageData trees meta
            (mk (sos_segment len n pairs ss' se ahal' ++ rest) buf 0)).
Proof.
  destruct (ReadImageData_channels_frame trees len n pairs Hlen Hn Hpairs Hbytes)
    as (res & Hres & Heq).
  assert (Hshape : forall a b c : Z,
             sos_segment len n pairs a b c ++ rest
             = sos_head len n pairs ++ a :: b :: c :: rest).
  { intros a b c. unfold sos_segment. rewrite <- app_assoc. reflexivity. }
  split; [|split].
  - intros Hne. rewrite Hshape.
    unfold Parser.ReadImageData, Parser.ReadImageData_header. rewrite Heq.
    destruct res as [[[[[sz cnt] ids] dcs] acs]|what|why|];
      try discriminate Hres; [|reflexivity].
    cbn [result_map bind].
    pose proof (ReadImageData_spectral_settled_se sz ss se ahal buf rest
                  Hss Hse Hne) as Hthrow.
    destruct (Parser.ReadImageData_spectral sz
                (mk (ss :: se :: ahal :: rest) buf 0));
      try discriminate Hthrow. reflexivity.
  - intros Hne sz Hsz. apply ReadImageData_spectral_se; assumption.
  - intros ss' ahal' Hss' Hahal'. rewrite !Hshape.
    unfold Parser.ReadImageData, Parser.ReadImageData_header. rewrite !Heq.
    destruct res as [[[[[sz cnt] ids] dcs] acs]|what|why|];
      try discriminate Hres; [|reflexivity].
    cbn [result_map bind].
    rewrite (ReadImageData_spectral_unchecked sz ss ss' se ahal ahal' buf rest)
      by assumption.
    reflexivity.
Qed.

Lemma ReadImageData_checks_only_se_witness :
  Parser.ReadImageData (Examples.gray_trees 7) Examples.gray_meta
    (mk (sos_segment 8 1 [1; 0x00] 0 63 0 ++ [0x40; 0x00; 0xff; 0xd9]) 0 0)
  = Parser.ReadImageData (Examples.gray_trees 7) Examples.gray_meta
      (mk (sos_segment 8 1 [1; 0x00] 5 63 0x12 ++ [0x40; 0x00; 0xff; 0xd9]) 0 0)
  /\ is_Throw
       (Parser.ReadImageData (Examples.gray_trees 7) Examples.gray_meta
          (mk (sos_segment 8 1 [1; 0x00] 0 62 0 ++ [0x40; 0x00; 0xff; 0xd9]) 0 0))
     = true.
Proof.
  split.
  - apply (ReadImageData_checks_only_se (Examples.gray_trees 7)
             Examples.gray_meta 8 1 0 63 0 0 [1; 0x00]
             [0x40; 0x00; 0xff; 0xd9]);
      unfold is_byte; try lia; try reflexivity;
      repeat constructor; unfold is_byte; lia.
  - apply (ReadImageData_checks_only_se (Examples.gray_trees 7)
             Examples.gray_meta 8 1 0 62 0 0 [1; 0x00]
             [0x40; 0x00; 0xff; 0xd9]);
      unfold is_byte; try lia; try reflexivity;
      repeat constructor; unfold is_byte; lia.
Defined.

(** A scan header with [Ss = 5] and [Ah << 4 | Al = 0x12] is parsed, the
    scan is read, and the stream that carries it is decoded. *)
Lemma ReadImageData_ss_ahal_accepted :
  nth 5 (sos_segment 8 1 [1; 0x00] 5 63 0x12) 0 <> 0
  /\ nth 7 (sos_segment 8 1 [1; 0x00] 5 63 0x12) 0 <> 0
  /\ is_Ok
       (Parser.ReadImageData (Examples.gray_trees 7) Examples.gray_meta
          (init (sos_segment 8 1 [1; 0x00] 5 63 0x12 ++ [0x40; 0x00])))
     = true
  /\ is_Throw
       (Parser.ReadImageData (Examples.gray_trees 7) Examples.gray_meta
          (init (sos_segment 8 1 [1; 0x00] 5 63 0x12 ++ [0x40; 0x00])))
     = false
  /\ Decoder.Decode (Examples.gray_dc64_with 8 5 63 0x12)
     = Decoder.Decode Examples.gray_dc64
  /\ is_Ok (Decoder.Decode (Examples.gray_dc64_with 8 5 63 0x12)) = true.
Proof.
  repeat split; try discriminate; vm_compute; reflexivity.
Qed.

End ScanHeader.

Section BlockDC.
Import BitReader.

Lemma land_pow2_testbit (v k : Z) :
  0 <= k -> (Z.land v (2 ^ k) =? 0) = negb (Z.testbit v k).
Proof.
  intros Hk. destruct (Z.testbit v k) eqn:Hbit; simpl.
  - apply Z.eqb_neq. intros H0.
    assert (Hk1 : Z.testbit (Z.land v (2 ^ k)) k = true).
    { rewrite Z.land_spec, Hbit, Z.pow2_bits_true by exact Hk. reflexivity. }
    rewrite H0, Z.bits_0 in Hk1. discriminate.
  - apply Z.eqb_eq. apply Z.bits_inj'. intros m Hm.
    rewrite Z.land_spec, Z.bits_0, Z.pow2_bits_eqb by exact Hk.
    destruct (k =? m) eqn:E; [|apply andb_false_r].
    apply Z.eqb_eq in E. subst m. rewrite Hbit. reflexivity.
Qed.

(** [ReadBitsSigned] is [ReadBits] followed by the signed extension and the
    conversion to [int16_t]. *)
Lemma ReadBitsSigned_extension (n : Z) (r : t) :
  1 <= n ->
  ReadBitsSigned n r
  = '(v, r2) <- ReadBits n r ;; Ok (s16 (signed_extension n v), r2).
Proof.
  intros Hn. unfold ReadBitsSigned.
  destruct (n =? 0) eqn:E; [apply Z.eqb_eq in E; lia|].
  destruct (ReadBits n r) as [[v r2]| | |]; try reflexivity.
  cbn [bind]. unfold signed_extension.
  rewrite !Z.shiftl_mul_pow2 by lia. rewrite !Z.mul_1_l.
  rewrite land_pow2_testbit by lia. rewrite negb_involutive.
  destruct (Z.testbit v (n - 1)); reflexivity.
Qed.

(** The AC loop only appends to the coefficients it is given. *)
Lemma ReadBlock_ac_prefix (fuel : nat) (ac_tree : HuffmanTree.t) :
  forall (matrix matrix' : list Z) (r r' : t),
    Parser.ReadBlock_ac fuel ac_tree matrix r = Ok (matrix', r') ->
    exists tail : list Z, matrix' = matrix ++ tail.
Proof.
  induction fuel as [|fuel IH]; intros matrix matrix' r r' H;
    cbn [Parser.ReadBlock_ac] in H;
    destruct (Z.of_nat (List.length matrix) <? Parser.kBlockSz).
  - discriminate.
  - injection H as <- <-. exists []. symmetry. apply app_nil_r.
  - destruct (Parser.ReadFromHuffmanTree ac_tree r) as [[mask r1]| | |];
      try discriminate. cbn [bind] in H.
    destruct (mask =? 0).
    + injection H as <- <-. eexists. reflexivity.
    + destruct (negb (Z.land mask Parser.kLowestByteMask =? 0)
                || (Z.shiftr mask 4 =? 15)); [|discriminate].
      destruct (ReadBitsSigned (Z.land mask Parser.kLowestByteMask) r1)
        as [[coef r2]| | |]; try discriminate. cbn [bind] in H.
      apply IH in H. destruct H as [tail ->].
      eexists. rewrite <- !app_assoc. reflexivity.
  - injection H as <- <-. exists []. symmetry. apply app_nil_r.
Qed.

Lemma GetZigZag_head (matrix block : list Z) :
  Parser.GetZigZag matrix = Ok block -> nth 0 block 0 = nth 0 matrix 0.
Proof.
  unfold Parser.GetZigZag.
  destruct (negb (Z.of_nat (List.length matrix) =? Parser.kBlockSz));
    [discriminate|].
  intros H. injection H as <-. reflexivity.
Qed.

Lemma ReadBlock_dc_shape (dc_tree : HuffmanTree.t) (prev_dc : Z) (r r2 : t)
    (matrix : list Z) (p : Z) :
  Parser.ReadBlock_dc dc_tree prev_dc r = Ok (matrix, p, r2) -> matrix = [p].
Proof.
  unfold Parser.ReadBlock_dc.
  destruct (Parser.ReadFromHuffmanTree dc_tree r) as [[s r1]| | |];
    try discriminate. cbn [bind].
  destruct (s =? 0).
  - intros H. injection H as <- <- <-. reflexivity.
  - destruct (ReadBitsSigned s r1) as [[d r3]| | |]; try discriminate.
    cbn [bind]. intros H. injection H as <- <- <-. reflexivity.
Qed.

(** C3, as the code has it: the size [s] that the DC codebook yields is
    bounded by [ReadBits] alone, which reads up to 16 bits.  For [s = 0]
    the differential is 0 and the predictor is kept; for [1 <= s <= 16] the
    decoder reads [s] bits, extends them to the signed differential and
    adds it to the predictor of the channel, in [int16_t]; for [s > 16] the
    block decode throws.  The first coefficient of a decoded block is the
    new predictor. *)
Theorem ReadBlock_dc_size_up_to_16 (dc_tree ac_tree : HuffmanTree.t)
    (prev_dc s : Z) (r r1 : t)
    (Hsym : Parser.ReadFromHuffmanTree dc_tree r = Ok (s, r1)) :
  (s = 0 -> Parser.ReadBlock_dc dc_tree prev_dc r = Ok ([prev_dc], prev_dc, r1))
  /\ (1 <= s <= 16 ->
      Parser.ReadBlock_dc dc_tree prev_dc r
      = '(v, r2) <- ReadBits s r1 ;;
        let p := s16 (prev_dc + s16 (signed_extension s v)) in
        Ok ([p], p, r2))
  /\ (16 < s ->
      Parser.ReadBlock dc_tree ac_tree prev_dc r
      = Throw "Trying to read many bytes")
  /\ (forall (block : list Z) (p : Z) (r' : t),
         Parser.ReadBlock dc_tree ac_tree prev_dc r = Ok (block, p, r') ->
         s <= 16 /\ nth 0 block 0 = p
         /\ exists r2 : t,
              Parser.ReadBlock_dc dc_tree prev_dc r = Ok ([p], p, r2)).
Proof.
  assert (Hbig : 16 < s ->
                 Parser.ReadBlock dc_tree ac_tree prev_dc r
                 = Throw "Trying to read many bytes").
  { intros Hs. unfold Parser.ReadBlock, Parser.ReadBlock_dc.
    rewrite Hsym. cbn [bind].
    destruct (s =? 0) eqn:E; [apply Z.eqb_eq in E; lia|].
    unfold ReadBitsSigned. rewrite E. unfold ReadBits, kCharSz.
    replace (s >? 8 * 2) with true
      by (symmetry; rewrite Z.gtb_ltb; apply Z.ltb_lt; lia).
    reflexivity. }
  split; [|split; [|split]].
  - intros ->. unfold Parser.ReadBlock_dc. rewrite Hsym. reflexivity.
  - intros Hs. unfold Parser.ReadBlock_dc. rewrite Hsym. cbn [bind].
    destruct (s =? 0) eqn:E; [apply Z.eqb_eq in E; lia|].
    rewrite ReadBitsSigned_extension by lia.
    destruct (ReadBits s r1) as [[v r2]| | |]; reflexivity.
  - exact Hbig.
  - intros block p r' H.
    assert (Hle : s <= 16).
    { destruct (Z.le_gt_cases s 16) as [Hle|Hgt]; [exact Hle|].
      rewrite Hbig in H by lia. discriminate. }
    split; [exact Hle|].
    unfold Parser.ReadBlock in H.
    destruct (Parser.ReadBlock_dc dc_tree prev_dc r)
      as [[[matrix p1] r2]| | |] eqn:Hdc; try discriminate.
    cbn [bind] in H.
    pose proof (ReadBlock_dc_shape _ _ _ _ _ _ Hdc) as ->.
    destruct (Parser.ReadBlock_ac (Z.to_nat Parser.kBlockSz) ac_tree [p1] r2)
      as [[matrix' r3]| | |] eqn:Hac; try discriminate.
    cbn [bind] in H.
    destruct (negb (Z.of_nat (List.length matrix') =? Parser.kBlockSz));
      [discriminate|].
    destruct (Parser.GetZigZag matrix') as [blk| | |] eqn:Hzz;
      try discriminate.
    cbn [bind] in H. injection H as <- <- <-.
    apply ReadBlock_ac_prefix in Hac. destruct Hac as [tail ->].
    apply GetZigZag_head in Hzz.
    split; [exact Hzz|]. exists r2. reflexivity.
Qed.

Lemma ReadBlock_dc_size_up_to_16_witness :
  Parser.ReadBlock_dc (Examples.leaf_tree 7) 0 (init [0x40; 0x00])
  = Ok ([64], 64, mk [0x00] 0 0)
  /\ Parser.ReadBlock (Examples.leaf_tree 17) (Examples.leaf_tree 0) 0
       (init [0x40; 0x00; 0x00])
     = Throw "Trying to read many bytes".
Proof.
  split.
  - pose proof (ReadBlock_dc_size_up_to_16 (Examples.leaf_tree 7)
                  (Examples.leaf_tree 0) 0 7 (init [0x40; 0x00])
                  (mk [0x00] 128 7) eq_refl) as (_ & H & _).
    rewrite H by lia. reflexivity.
  - apply (ReadBlock_dc_size_up_to_16 (Examples.leaf_tree 17)
             (Examples.leaf_tree 0) 0 17 (init [0x40; 0x00; 0x00])
             (mk [0x00; 0x00] 128 7) eq_refl).
    lia.
Defined.

(** A DC code of size 12 is decoded: the block is read with the
    differential 2048, and the stream that carries it is decoded. *)
Lemma ReadBlock_dc_size_12_accepted :
  Parser.ReadFromHuffmanTree (Examples.leaf_tree 12) (init [0x40; 0x00])
  = Ok (12, mk [0x00] 128 7)
  /\ 12 > 11
  /\ Parser.ReadBlock (Examples.leaf_tree 12) (Examples.leaf_tree 0) 0
       (init [0x40; 0x00])
     = Ok (2048 :: repeat 0 63, 2048, mk [] 0 2)
  /\ is_Ok (Decoder.Decode (Examples.gray_with_dc_symbol 12 [0x40; 0x00]))
     = true.
Proof.
  repeat split; vm_compute; reflexivity.
Qed.

End BlockDC.

Section ScanOrder.
Import Schedule.

Lemma bind_Ok_r {A : Type} (m : result A) : bind m Ok = m.
Proof. destruct m; reflexivity. Qed.

Lemma fold_result_app {X S : Type} (step : X -> S -> result S) (l1 l2 : list X) :
  forall s : S,
    fold_result step (l1 ++ l2) s
    = bind (fold_result step l1 s) (fold_result step l2).
Proof.
  induction l1 as [|x l1 IH]; intros s; simpl; [reflexivity|].
  destruct (step x s) as [s1| | |]; simpl; [apply IH|reflexivity..].
Qed.

(** A [for] loop whose body runs [step] over the list [g i] runs [step]
    over the lists of its indices, one after the other. *)
Lemma for_flat_map {X S : Type} (step : X -> S -> result S) (g : Z -> list X)
    (body : Z -> S -> result S) :
  (forall (i : Z) (s : S), body i s = fold_result step (g i) s) ->
  forall (n : nat) (i0 : Z) (s : S),
    for_ n i0 body s = fold_result step (flat_map g (zrange_from i0 n)) s.
Proof.
  intros Hbody. induction n as [|n IH]; intros i0 s; simpl; [reflexivity|].
  rewrite fold_result_app, Hbody.
  destruct (fold_result step (g i0) s) as [s1| | |]; simpl;
    [apply IH|reflexivity..].
Qed.

(** The five loops of [ReadImageData] read the blocks in the order of the
    specification. *)
Lemma ReadImageData_blocks_in_order (dc_trees ac_trees : list HuffmanTree.t)
    (channel_metadata : list ChannelMetadata.t) (channels_cnt mcu_h mcu_w : Z)
    (st : Parser.scan_state) :
  Parser.ReadImageData_blocks dc_trees ac_trees channel_metadata channels_cnt
    mcu_h mcu_w st
  = read_in_order (Parser.read_block_of dc_trees ac_trees)
      (block_order channel_metadata channels_cnt mcu_h mcu_w) st.
Proof.
  unfold Parser.ReadImageData_blocks, read_in_order, block_order, zrange.
  apply for_flat_map. intros mcu_y s1.
  apply for_flat_map. intros mcu_x s2.
  apply for_flat_map. intros c s3. cbv zeta.
  apply for_flat_map. intros block_v s4.
  apply for_flat_map. intros block_h s5.
  simpl. symmetry. apply bind_Ok_r.
Qed.

Lemma zrange_from_length (n : nat) :
  forall i : Z, List.length (zrange_from i n) = n.
Proof.
  induction n as [|n IH]; intros i; simpl; [reflexivity|].
  rewrite IH. reflexivity.
Qed.

Lemma zrange_from_nonneg (n : nat) :
  forall i : Z, 0 <= i -> Forall (fun x => 0 <= x) (zrange_from i n).
Proof.
  induction n as [|n IH]; intros i Hi; simpl; constructor;
    [exact Hi|apply IH; lia].
Qed.

Lemma blocks_of_app (c : Z) (l1 l2 : list position) :
  blocks_of c (l1 ++ l2) = (blocks_of c l1 + blocks_of c l2)%nat.
Proof.
  unfold blocks_of. rewrite filter_app, length_app. reflexivity.
Qed.

Lemma blocks_of_flat_map {X : Type} (c : Z) (g : X -> list position)
    (l : list X) :
  blocks_of c (flat_map g l)
  = list_sum (map (fun x => blocks_of c (g x)) l).
Proof.
  induction l as [|x l IH]; simpl; [reflexivity|].
  rewrite blocks_of_app, IH. reflexivity.
Qed.

Lemma list_sum_constant {X : Type} (f : X -> nat) (k : nat) (l : list X) :
  (forall x : X, In x l -> f x = k) ->
  list_sum (map f l) = (List.length l * k)%nat.
Proof.
  induction l as [|x l IH]; intros H; simpl; [reflexivity|].
  rewrite (H x) by (left; reflexivity).
  rewrite IH by (intros y Hy; apply H; right; exact Hy). reflexivity.
Qed.

(** A sum over [i .. i + n - 1] of terms that vanish except at [c]. *)
Lemma list_sum_single (f : Z -> nat) (c : Z) (n : nat) :
  forall i : Z,
    list_sum (map (fun x => if x =? c then f x else 0%nat) (zrange_from i n))
    = if (i <=? c) && (c <? i + Z.of_nat n) then f c else 0%nat.
Proof.
  induction n as [|n IH]; intros i.
  - simpl. destruct (i <=? c) eqn:E1; destruct (c <? i + 0) eqn:E2;
      try reflexivity.
    apply Z.leb_le in E1. apply Z.ltb_lt in E2. lia.
  - change (zrange_from i (S n)) with (i :: zrange_from (i + 1) n).
    rewrite map_cons.
    change (list_sum (?x :: ?l)) with (x + list_sum l)%nat.
    rewrite IH.
    destruct (i =? c) eqn:E.
    + apply Z.eqb_eq in E. subst i.
      replace (c + 1 <=? c) with false by (symmetry; apply Z.leb_gt; lia).
      replace (c <=? c) with true by (symmetry; apply Z.leb_le; lia).
      replace (c <? c + Z.of_nat (S n)) with true
        by (symmetry; apply Z.ltb_lt; lia).
      simpl. lia.
    + apply Z.eqb_neq in E.
      replace (c <? i + 1 + Z.of_nat n) with (c <? i + Z.of_nat (S n))
        by (f_equal; lia).
      destruct (c <? i + Z.of_nat (S n)); rewrite ?andb_false_r;
        [|reflexivity].
      rewrite !andb_true_r.
      destruct (i + 1 <=? c) eqn:E1; destruct (i <=? c) eqn:E2;
        try reflexivity.
      * apply Z.leb_le in E1. apply Z.leb_gt in E2. lia.
      * apply Z.leb_gt in E1. apply Z.leb_le in E2. lia.
Qed.

(** The number of blocks of a channel of the scan in the order of the
    specification. *)
Lemma blocks_of_block_order (channel_metadata : list ChannelMetadata.t)
    (channels_cnt mcu_h mcu_w c : Z) :
  0 <= c < channels_cnt ->
  blocks_of c (block_order channel_metadata channels_cnt mcu_h mcu_w)
  = (Z.to_nat mcu_h
     * (Z.to_nat mcu_w
        * (Z.to_nat (ChannelMetadata.v
                       (nth (Z.to_nat c) channel_metadata
                          ChannelMetadata.default))
           * Z.to_nat (ChannelMetadata.h
                         (nth (Z.to_nat c) channel_metadata
                            ChannelMetadata.default)))))%nat.
Proof.
  intros Hc. unfold block_order, zrange.
  rewrite blocks_of_flat_map.
  rewrite list_sum_constant
    with (k := (Z.to_nat mcu_w
                * (Z.to_nat (ChannelMetadata.v
                               (nth (Z.to_nat c) channel_metadata
                                  ChannelMetadata.default))
                   * Z.to_nat (ChannelMetadata.h
                                 (nth (Z.to_nat c) channel_metadata
                                    ChannelMetadata.default))))%nat);
    [rewrite zrange_from_length; reflexivity|].
  intros mcu_y _. rewrite blocks_of_flat_map.
  rewrite list_sum_constant
    with (k := (Z.to_nat (ChannelMetadata.v
                            (nth (Z.to_nat c) channel_metadata
                               ChannelMetadata.default))
                * Z.to_nat (ChannelMetadata.h
                              (nth (Z.to_nat c) channel_metadata
                                 ChannelMetadata.default)))%nat);
    [rewrite zrange_from_length; reflexivity|].
  intros mcu_x _. rewrite blocks_of_flat_map.
  rewrite map_ext
    with (g := fun x =>
                 if x =? c
                 then (Z.to_nat (ChannelMetadata.v
                                   (nth (Z.to_nat x) channel_metadata
                                      ChannelMetadata.default))
                       * Z.to_nat (ChannelMetadata.h
                                     (nth (Z.to_nat x) channel_metadata
                                        ChannelMetadata.default)))%nat
                 else 0%nat).
  - rewrite (list_sum_single
               (fun x =>
                  (Z.to_nat (ChannelMetadata.v
                               (nth (Z.to_nat x) channel_metadata
                                  ChannelMetadata.default))
                   * Z.to_nat (ChannelMetadata.h
                                 (nth (Z.to_nat x) channel_metadata
                                    ChannelMetadata.default)))%nat)).
    replace (0 <=? c) with true by (symmetry; apply Z.leb_le; lia).
    replace (c <? 0 + Z.of_nat (Z.to_nat channels_cnt)) with true
      by (symmetry; apply Z.ltb_lt; lia).
    reflexivity.
  - intros x. cbv zeta. rewrite blocks_of_flat_map.
    rewrite list_sum_constant
      with (k := if x =? c
                 then Z.to_nat (ChannelMetadata.h
                                  (nth (Z.to_nat x) channel_metadata
                                     ChannelMetadata.default))
                 else 0%nat).
    + rewrite zrange_from_length. destruct (x =? c); lia.
    + intros block_v _. rewrite blocks_of_flat_map.
      rewrite list_sum_constant with (k := if x =? c then 1%nat else 0%nat).
      * rewrite zrange_from_length. destruct (x =? c); lia.
      * intros block_h _. unfold blocks_of. cbn [filter channel].
        destruct (x =? c); reflexivity.
Qed.

End ScanOrder.

Section ScanCount.
Import Schedule.

Lemma vector_update_length {A : Type} (f : A -> A) (v : list A) :
  forall i : nat, List.length (vector_update i f v) = List.length v.
Proof.
  induction v as [|x v IH]; intros [|i]; simpl; try reflexivity.
  rewrite IH. reflexivity.
Qed.

Lemma vector_update_nth_same {A : Type} (f : A -> A) (d : A) (v : list A) :
  forall i : nat,
    (i < List.length v)%nat ->
    nth i (vector_update i f v) d = f (nth i v d).
Proof.
  induction v as [|x v IH]; intros [|i] H; simpl in *; try lia.
  - reflexivity.
  - apply IH. lia.
Qed.

Lemma vector_update_nth_other {A : Type} (f : A -> A) (d : A) (v : list A) :
  forall i k : nat, i <> k -> nth k (vector_update i f v) d = nth k v d.
Proof.
  induction v as [|x v IH]; intros [|i] [|k] H; simpl; try reflexivity.
  - contradiction.
  - apply IH. congruence.
Qed.

(** One block read for channel [c] adds one block to [channel_matrix[c]]
    and leaves the other channels as they are. *)
Lemma read_block_of_lengths (dc_trees ac_trees : list HuffmanTree.t) (c : Z)
    (prev_dc prev_dc' : list Z) (matrix matrix' : list (list (list Z)))
    (r r' : BitReader.t) :
  Parser.read_block_of dc_trees ac_trees c (prev_dc, matrix, r)
  = Ok (prev_dc', matrix', r') ->
  0 <= c -> (Z.to_nat c < List.length matrix)%nat ->
  List.length matrix' = List.length matrix
  /\ forall k : nat,
       List.length (nth k matrix' [])
       = (List.length (nth k matrix []) + blocks_of (Z.of_nat k) [mk 0 0 c 0 0])%nat.
Proof.
  unfold Parser.read_block_of. intros H Hc Hlt.
  destruct (Parser.ReadBlock _ _ _ r) as [[[block p] r1]| | |];
    try discriminate.
  cbn [bind] in H. injection H as <- <- <-.
  split; [apply vector_update_length|].
  intros k. unfold blocks_of. cbn [filter channel].
  destruct (c =? Z.of_nat k) eqn:E.
  - apply Z.eqb_eq in E. subst c. rewrite Nat2Z.id in *.
    rewrite vector_update_nth_same by exact Hlt.
    rewrite length_app. reflexivity.
  - apply Z.eqb_neq in E.
    rewrite vector_update_nth_other by lia. simpl. lia.
Qed.

Lemma read_in_order_lengths (dc_trees ac_trees : list HuffmanTree.t)
    (order : list position) :
  forall (prev_dc prev_dc' : list Z) (matrix matrix' : list (list (list Z)))
         (r r' : BitReader.t),
    read_in_order (Parser.read_block_of dc_trees ac_trees) order
      (prev_dc, matrix, r) = Ok (prev_dc', matrix', r') ->
    Forall (fun p => 0 <= channel p
                     /\ (Z.to_nat (channel p) < List.length matrix)%nat) order ->
    List.length matrix' = List.length matrix
    /\ forall k : nat,
         List.length (nth k matrix' [])
         = (List.length (nth k matrix []) + blocks_of (Z.of_nat k) order)%nat.
Proof.
  unfold read_in_order.
  induction order as [|p order IH];
    intros prev_dc prev_dc' matrix matrix' r r' H Hall.
  - simpl in H. injection H as <- <- <-. split; [reflexivity|].
    intros k. unfold blocks_of. simpl. lia.
  - cbn [fold_result] in H.
    destruct (Parser.read_block_of dc_trees ac_trees (channel p)
                (prev_dc, matrix, r)) as [[[prev1 matrix1] r1]| | |] eqn:Hstep;
      try discriminate.
    cbn [bind] in H.
    apply Forall_cons_iff in Hall as [[Hp0 Hp1] Hall].
    apply read_block_of_lengths in Hstep; [|exact Hp0|exact Hp1].
    destruct Hstep as [Hlen1 Hnth1].
    apply IH in H; [|rewrite Hlen1; exact Hall].
    destruct H as [Hlen Hnth]. split; [congruence|].
    intros k. rewrite Hnth, Hnth1.
    change (p :: order) with ([p] ++ order). rewrite blocks_of_app.
    assert (Hp : blocks_of (Z.of_nat k) [mk 0 0 (channel p) 0 0]
                 = blocks_of (Z.of_nat k) [p]).
    { unfold blocks_of. cbn [filter channel].
      destruct (channel p =? Z.of_nat k); reflexivity. }
    lia.
Qed.

Lemma zrange_from_In (c : Z) (n : nat) :
  forall i : Z, In c (zrange_from i n) -> i <= c < i + Z.of_nat n.
Proof.
  induction n as [|n IH]; intros i Hin; simpl in Hin; [contradiction|].
  destruct Hin as [->|Hin]; [lia|]. apply IH in Hin. lia.
Qed.

Lemma block_order_channels (channel_metadata : list ChannelMetadata.t)
    (channels_cnt mcu_h mcu_w : Z) :
  Forall (fun p => 0 <= channel p
                   /\ (Z.to_nat (channel p) < Z.to_nat channels_cnt)%nat)
    (block_order channel_metadata channels_cnt mcu_h mcu_w).
Proof.
  unfold block_order, zrange.
  apply Forall_flat_map, Forall_forall. intros mcu_y _.
  apply Forall_flat_map, Forall_forall. intros mcu_x _.
  apply Forall_flat_map, Forall_forall. intros c Hc. cbv zeta.
  assert (Hrange : 0 <= c /\ (Z.to_nat c < Z.to_nat channels_cnt)%nat).
  { apply zrange_from_In in Hc. lia. }
  apply Forall_flat_map, Forall_forall. intros block_v _.
  apply Forall_flat_map, Forall_forall. intros block_h _.
  constructor; [exact Hrange|constructor].
Qed.

End ScanCount.

Section ScanBlocks.
Import Schedule.

Lemma scan_channels_loop_length (trees : list (option HuffmanTree.t)) (n : nat) :
  forall (i : Z) (ids ids' : list Z) (dcs dcs' acs acs' : list HuffmanTree.t)
         (r r' : BitReader.t),
    for_ n i (fun _ => Parser.ReadImageData_channel trees) (ids, dcs, acs, r)
    = Ok (ids', dcs', acs', r') ->
    List.length ids' = (List.length ids + n)%nat.
Proof.
  induction n as [|n IH]; intros i ids ids' dcs dcs' acs acs' r r' H.
  - simpl in H. injection H as <- <- <- <-. lia.
  - cbn [for_] in H.
    destruct (Parser.ReadImageData_channel trees (ids, dcs, acs, r))
      as [[[[ids1 dcs1] acs1] r1]| | |] eqn:Hstep; try discriminate.
    cbn [bind] in H. apply IH in H. rewrite H.
    unfold Parser.ReadImageData_channel in Hstep.
    destruct (BitReader.ReadByte r) as [[id ra]| | |]; try discriminate.
    cbn [bind] in Hstep.
    destruct (BitReader.ReadByte ra) as [[mask rb]| | |]; try discriminate.
    cbn [bind] in Hstep.
    destruct (Parser.lookup_tree trees _); [|discriminate].
    destruct (Parser.lookup_tree trees _); [|discriminate].
    injection Hstep as <- <- <- <-. rewrite length_app. simpl. lia.
Qed.

Lemma ReadImageData_header_ids (trees : list (option HuffmanTree.t))
    (r r1 : BitReader.t) (cnt : Z) (ids : list Z)
    (dcs acs : list HuffmanTree.t) :
  Parser.ReadImageData_header trees r = Ok (cnt, ids, dcs, acs, r1) ->
  List.length ids = Z.to_nat cnt.
Proof.
  unfold Parser.ReadImageData_header, Parser.ReadImageData_channels.
  destruct (Parser.ReadSz r) as [[sz ra]| | |]; try discriminate.
  cbn [bind]. destruct (sz <? 1); [discriminate|].
  destruct (BitReader.ReadByte ra) as [[n rb]| | |]; try discriminate.
  cbn [bind]. destruct (u16 (sz - 1) <? n * 2); [discriminate|].
  destruct (for_ (Z.to_nat n) 0 (fun _ => Parser.ReadImageData_channel trees)
              ([], [], [], rb)) as [[[[ids1 dcs1] acs1] rc]| | |] eqn:Hloop;
    try discriminate.
  cbn [bind].
  destruct (Parser.ReadImageData_spectral _ rc) as [rd| | |]; try discriminate.
  cbn [bind]. intros H. injection H as <- <- <- <- <-.
  apply scan_channels_loop_length in Hloop. exact Hloop.
Qed.

Lemma find_channel_In (id : Z) (l : list ChannelMetadata.t)
    (cm : ChannelMetadata.t) :
  ImageMetadata.find_channel id l = Ok cm -> In cm l.
Proof.
  induction l as [|c l IH]; simpl; [discriminate|].
  destruct (ChannelMetadata.channel_id c =? id).
  - intros H. injection H as <-. left. reflexivity.
  - intros H. right. apply IH. exact H.
Qed.

Lemma lookup_channels_nth (meta : ImageMetadata.t) (ids : list Z) :
  forall cms : list ChannelMetadata.t,
    Parser.lookup_channels meta ids = Ok cms ->
    forall (c : nat) (id : Z),
      nth_error ids c = Some id ->
      ImageMetadata.GetMetaByChannelId meta id
      = Ok (nth c cms ChannelMetadata.default)
      /\ In (nth c cms ChannelMetadata.default) (ImageMetadata.channels meta).
Proof.
  induction ids as [|a ids IH]; intros cms H c id Hc.
  - destruct c; discriminate.
  - cbn [Parser.lookup_channels] in H.
    destruct (ImageMetadata.GetMetaByChannelId meta a) as [cm| | |] eqn:Hcm;
      try discriminate.
    cbn [bind] in H.
    destruct (Parser.lookup_channels meta ids) as [cms1| | |];
      try discriminate.
    cbn [bind] in H. injection H as <-.
    destruct c as [|c]; simpl in Hc.
    + injection Hc as <-. simpl. split; [exact Hcm|].
      apply find_channel_In with (id := a). exact Hcm.
    + simpl. apply (IH cms1 eq_refl c id Hc).
Qed.

Lemma fold_left_max_ge (f : ChannelMetadata.t -> Z) (l : list ChannelMetadata.t) :
  forall m : Z, m <= fold_left (fun m c => Z.max m (f c)) l m.
Proof.
  induction l as [|c l IH]; intros m; simpl; [lia|].
  specialize (IH (Z.max m (f c))). lia.
Qed.

Lemma mcu_count_ceil (w d : Z) :
  0 < w < 65536 -> 0 < d -> is_ceil_div w d (u16 ((w + d - 1) / d)).
Proof.
  intros Hw Hd. unfold is_ceil_div, u16.
  pose proof (Z.div_mod (w + d - 1) d ltac:(lia)) as Hdiv.
  pose proof (Z.mod_pos_bound (w + d - 1) d Hd) as Hmod.
  assert (H0 : 0 <= (w + d - 1) / d) by (apply Z.div_pos; lia).
  assert (H1 : (w + d - 1) / d <= w) by nia.
  rewrite Z.mod_small by lia. nia.
Qed.

Lemma zrange_In (c n : Z) : In c (zrange n) <-> 0 <= c < n.
Proof.
  unfold zrange. split.
  - intros H. apply zrange_from_In in H. lia.
  - intros H. replace c with (0 + Z.of_nat (Z.to_nat c)) by lia.
    assert (Hlt : (Z.to_nat c < Z.to_nat n)%nat) by lia.
    generalize 0 as i. revert Hlt. generalize (Z.to_nat c) as k.
    induction (Z.to_nat n) as [|m IH]; intros k Hlt i; [lia|].
    destruct k as [|k]; simpl.
    + left. lia.
    + right. replace (i + Z.pos (Pos.of_succ_nat k)) with (i + 1 + Z.of_nat k) by lia.
      apply IH. lia.
Qed.

Lemma zrange_from_sorted (n : nat) :
  forall i : Z, StronglySorted Z.lt (zrange_from i n).
Proof.
  induction n as [|n IH]; intros i; simpl; constructor; [apply IH|].
  apply Forall_forall. intros c Hc. apply zrange_from_In in Hc. lia.
Qed.

Lemma sorted_app {A : Type} (R : A -> A -> Prop) (l1 l2 : list A) :
  StronglySorted R l1 -> StronglySorted R l2 ->
  (forall a b : A, In a l1 -> In b l2 -> R a b) ->
  StronglySorted R (l1 ++ l2).
Proof.
  intros H1 H2 H12. induction H1 as [|a l1 H1 IH Ha]; simpl; [exact H2|].
  constructor.
  - apply IH. intros x y Hx Hy. apply H12; [right; exact Hx|exact Hy].
  - apply Forall_app. split; [exact Ha|].
    apply Forall_forall. intros b Hb. apply H12; [left; reflexivity|exact Hb].
Qed.

Lemma sorted_flat_map {A : Type} (R : A -> A -> Prop) (g : Z -> list A)
    (l : list Z) :
  StronglySorted Z.lt l ->
  (forall x : Z, StronglySorted R (g x)) ->
  (forall (x y : Z) (a b : A), x < y -> In a (g x) -> In b (g y) -> R a b) ->
  StronglySorted R (flat_map g l).
Proof.
  intros Hl Hg Hxy. induction Hl as [|x l Hl IH Hx]; simpl; [constructor|].
  apply sorted_app; [apply Hg|exact IH|].
  intros a b Ha Hb. apply in_flat_map in Hb. destruct Hb as (y & Hy & Hb).
  rewrite Forall_forall in Hx. exact (Hxy x y a b (Hx y Hy) Ha Hb).
Qed.

Ltac scan_position H :=
  repeat (apply in_flat_map in H; destruct H as (? & ? & H));
  destruct H as [<-|[]].

(** [block_order] lists the blocks of the scan, each once, in the order of
    the specification. *)
Lemma block_order_sorted (channel_metadata : list ChannelMetadata.t)
    (channels_cnt mcu_h mcu_w : Z) :
  StronglySorted before
    (block_order channel_metadata channels_cnt mcu_h mcu_w).
Proof.
  unfold block_order, zrange.
  apply sorted_flat_map; [apply zrange_from_sorted| |].
  - intros y. apply sorted_flat_map; [apply zrange_from_sorted| |].
    + intros x. apply sorted_flat_map; [apply zrange_from_sorted| |].
      * intros c. cbv zeta.
        apply sorted_flat_map; [apply zrange_from_sorted| |].
        -- intros bv. apply sorted_flat_map; [apply zrange_from_sorted| |].
           ++ intros bh. repeat constructor.
           ++ intros bh bh' a b Hlt Ha Hb. scan_position Ha. scan_position Hb.
              unfold before. simpl. lia.
        -- intros bv bv' a b Hlt Ha Hb. scan_position Ha. scan_position Hb.
           unfold before. simpl. lia.
      * intros c c' a b Hlt Ha Hb. cbv zeta in Ha, Hb.
        scan_position Ha. scan_position Hb. unfold before. simpl. lia.
    + intros x x' a b Hlt Ha Hb. scan_position Ha. scan_position Hb.
      unfold before. simpl. lia.
  - intros y y' a b Hlt Ha Hb. scan_position Ha. scan_position Hb.
    unfold before. simpl. lia.
Qed.

Lemma block_order_In (channel_metadata : list ChannelMetadata.t)
    (channels_cnt mcu_h mcu_w : Z) (p : position) :
  In p (block_order channel_metadata channels_cnt mcu_h mcu_w)
  <-> in_scan channel_metadata channels_cnt mcu_h mcu_w p.
Proof.
  unfold block_order, in_scan. split.
  - intros H.
    apply in_flat_map in H. destruct H as (y & Hy & H).
    apply in_flat_map in H. destruct H as (x & Hx & H).
    apply in_flat_map in H. destruct H as (c & Hc & H). cbv zeta in H.
    apply in_flat_map in H. destruct H as (bv & Hbv & H).
    apply in_flat_map in H. destruct H as (bh & Hbh & H).
    destruct H as [<-|[]]. cbn [mcu_y mcu_x channel block_v block_h]. cbv zeta.
    apply zrange_In in Hy, Hx, Hc, Hbv, Hbh. repeat split; lia.
  - destruct p as [y x c bv bh]. cbn [mcu_y mcu_x channel block_v block_h].
    cbv zeta. intros (Hy & Hx & Hc & Hbv & Hbh).
    apply in_flat_map. exists y. split; [apply zrange_In; exact Hy|].
    apply in_flat_map. exists x. split; [apply zrange_In; exact Hx|].
    apply in_flat_map. exists c. split; [apply zrange_In; exact Hc|].
    cbv zeta.
    apply in_flat_map. exists bv. split; [apply zrange_In; exact Hbv|].
    apply in_flat_map. exists bh. split; [apply zrange_In; exact Hbh|].
    left. reflexivity.
Qed.

(** [fold_left] of [Z.max] from 0 is the largest value when one is
    positive. *)
Lemma fold_left_max_is_max (f : ChannelMetadata.t -> Z)
    (l : list ChannelMetadata.t) :
  forall m0 : Z,
    Forall (fun c => f c <= fold_left (fun m c => Z.max m (f c)) l m0) l
    /\ (fold_left (fun m c => Z.max m (f c)) l m0 = m0
        \/ Exists (fun c => f c = fold_left (fun m c => Z.max m (f c)) l m0) l).
Proof.
  induction l as [|c l IH]; intros m0; simpl.
  - split; [constructor|left; reflexivity].
  - destruct (IH (Z.max m0 (f c))) as [Hall Hex].
    pose proof (fold_left_max_ge f l (Z.max m0 (f c))) as Hge.
    split.
    + constructor; [lia|exact Hall].
    + destruct Hex as [Heq|Hex].
      * rewrite Heq. destruct (Z.max_spec m0 (f c)) as [[_ Hm]|[_ Hm]].
        -- right. left. lia.
        -- left. exact Hm.
      * right. right. exact Hex.
Qed.

Lemma h_max_is_max (meta : ImageMetadata.t) :
  0 < Parser.h_max meta ->
  is_max_of ChannelMetadata.h (ImageMetadata.channels meta) (Parser.h_max meta).
Proof.
  intros Hpos. unfold Parser.h_max in *.
  destruct (fold_left_max_is_max ChannelMetadata.h
              (ImageMetadata.channels meta) 0) as [Hall [Heq|Hex]].
  - lia.
  - split; assumption.
Qed.

Lemma v_max_is_max (meta : ImageMetadata.t) :
  0 < Parser.v_max meta ->
  is_max_of ChannelMetadata.v (ImageMetadata.channels meta) (Parser.v_max meta).
Proof.
  intros Hpos. unfold Parser.v_max in *.
  destruct (fold_left_max_is_max ChannelMetadata.v
              (ImageMetadata.channels meta) 0) as [Hall [Heq|Hex]].
  - lia.
  - split; assumption.
Qed.

(** C2: for a frame as the frame header yields them and a scan that
    [ReadImageData] accepts.  [H] and [V], which the code computes as
    [h_max] and [v_max], are the largest sampling factors [h_i] and [v_i]
    of the channels of the frame, and are positive; [mcu_w] and [mcu_h] are
    [width / (8 H)] and [height / (8 V)] rounded up.  The blocks are read
    one after the other over the positions of [order]: these are the blocks
    of the scan ([mcu_h] rows of [mcu_w] MCUs, in each the channels of the
    scan, for each channel [v] rows of [h] blocks), each once, MCUs in
    raster order, channels in scan order within an MCU, blocks of a channel
    in raster order; channel [c] has [mcu_w * mcu_h * h * v] of these
    positions, and ends with as many blocks, [h] and [v] being its sampling
    factors.  The turn of the marker loop that read the scan leaves the
    bit source aligned: its bit buffer is empty, the stream where the last
    block left it. *)
Theorem ReadImageData_block_counts (trees : list (option HuffmanTree.t))
    (meta : ImageMetadata.t) (r r' : BitReader.t) (img : ImageData.t)
    (Hframe : frame_ok meta)
    (Hscan : Parser.ReadImageData trees meta r = Ok (img, r')) :
  (0 < Parser.h_max meta /\ 0 < Parser.v_max meta)
  /\ is_max_of ChannelMetadata.h (ImageMetadata.channels meta)
       (Parser.h_max meta)
  /\ is_max_of ChannelMetadata.v (ImageMetadata.channels meta)
       (Parser.v_max meta)
  /\ is_ceil_div (ImageMetadata.width meta) (8 * Parser.h_max meta)
       (ImageData.mcu_w img)
  /\ is_ceil_div (ImageMetadata.height meta) (8 * Parser.v_max meta)
       (ImageData.mcu_h img)
  /\ List.length (ImageData.channel_matrix img)
     = List.length (ImageData.channel_ids img)
  /\ (forall (c : nat) (id : Z),
         nth_error (ImageData.channel_ids img) c = Some id ->
         exists cm : ChannelMetadata.t,
           ImageMetadata.GetMetaByChannelId meta id = Ok cm
           /\ Z.of_nat (List.length (nth c (ImageData.channel_matrix img) []))
              = ImageData.mcu_w img * ImageData.mcu_h img
                * ChannelMetadata.h cm * ChannelMetadata.v cm)
  /\ (exists (channels_cnt : Z) (dc_trees ac_trees : list HuffmanTree.t)
             (channel_metadata : list ChannelMetadata.t) (r1 : BitReader.t)
             (prev_dc : list Z),
         let order :=
           block_order channel_metadata channels_cnt (ImageData.mcu_h img)
             (ImageData.mcu_w img) in
         Parser.ReadImageData_header trees r
         = Ok (channels_cnt, ImageData.channel_ids img, dc_trees, ac_trees, r1)
         /\ Parser.lookup_channels meta (ImageData.channel_ids img)
            = Ok channel_metadata
         /\ read_in_order (Parser.read_block_of dc_trees ac_trees) order
              (repeat 0 (Z.to_nat channels_cnt),
               repeat [] (Z.to_nat channels_cnt), r1)
            = Ok (prev_dc, ImageData.channel_matrix img, r')
         /\ StronglySorted before order
         /\ (forall p : position,
               In p order
               <-> in_scan channel_metadata channels_cnt (ImageData.mcu_h img)
                     (ImageData.mcu_w img) p)
         /\ (forall (c : nat) (id : Z),
               nth_error (ImageData.channel_ids img) c = Some id ->
               exists cm : ChannelMetadata.t,
                 ImageMetadata.GetMetaByChannelId meta id = Ok cm
                 /\ nth c channel_metadata ChannelMetadata.default = cm
                 /\ Z.of_nat (blocks_of (Z.of_nat c) order)
                    = ImageData.mcu_w img * ImageData.mcu_h img
                      * ChannelMetadata.h cm * ChannelMetadata.v cm))
  /\ (forall (dc_trees ac_trees : list HuffmanTree.t)
             (channel_metadata : list ChannelMetadata.t)
             (channels_cnt mcu_h mcu_w : Z) (st : Parser.scan_state),
         Parser.ReadImageData_blocks dc_trees ac_trees channel_metadata
           channels_cnt mcu_h mcu_w st
         = read_in_order (Parser.read_block_of dc_trees ac_trees)
             (block_order channel_metadata channels_cnt mcu_h mcu_w) st)
  /\ (forall s : Parser.segments,
         Parser.metadata s = Some meta -> Parser.huffman_trees s = trees ->
         exists s' : Parser.segments,
           Parser.ReadRawImage_segment MarkerType.Data s r
           = Ok (s', BitReader.Align r')
           /\ Parser.image_data s' = Some img
           /\ BitReader.in_ (BitReader.Align r') = BitReader.in_ r'
           /\ BitReader.buffer_size_ (BitReader.Align r') = 0
           /\ BitReader.buffer_ (BitReader.Align r') = 0).
Proof.
  destruct Hframe as (Hheight & Hwidth & Hfactors).
  pose proof Hscan as Hscan0.
  unfold Parser.ReadImageData in Hscan.
  destruct (Parser.ReadImageData_header trees r)
    as [[[[[cnt ids] dcs] acs] r1]| | |] eqn:Hheader; try discriminate.
  cbn [bind] in Hscan. cbv zeta in Hscan.
  destruct ((Parser.h_max meta =? 0) || (Parser.v_max meta =? 0)) eqn:Hmax;
    [discriminate|].
  apply orb_false_iff in Hmax. destruct Hmax as [Hh Hv].
  apply Z.eqb_neq in Hh. apply Z.eqb_neq in Hv.
  pose proof (fold_left_max_ge ChannelMetadata.h (ImageMetadata.channels meta) 0)
    as Hh0.
  pose proof (fold_left_max_ge ChannelMetadata.v (ImageMetadata.channels meta) 0)
    as Hv0.
  fold (Parser.h_max meta) in Hh0. fold (Parser.v_max meta) in Hv0.
  pose proof (h_max_is_max meta ltac:(lia)) as Hhmax.
  pose proof (v_max_is_max meta ltac:(lia)) as Hvmax.
  pose proof (mcu_count_ceil (ImageMetadata.width meta) (8 * Parser.h_max meta)
                Hwidth ltac:(lia)) as Hcw.
  pose proof (mcu_count_ceil (ImageMetadata.height meta) (8 * Parser.v_max meta)
                Hheight ltac:(lia)) as Hch.
  set (mw := u16 ((ImageMetadata.width meta + 8 * Parser.h_max meta - 1)
                  / (8 * Parser.h_max meta))) in *.
  set (mh := u16 ((ImageMetadata.height meta + 8 * Parser.v_max meta - 1)
                  / (8 * Parser.v_max meta))) in *.
  assert (Hmw : 0 <= mw) by (apply Z.mod_pos_bound; lia).
  assert (Hmh : 0 <= mh) by (apply Z.mod_pos_bound; lia).
  clearbody mw mh.
  destruct (Parser.lookup_channels meta ids) as [cms| | |] eqn:Hcms;
    try discriminate.
  cbn [bind] in Hscan.
  rewrite ReadImageData_blocks_in_order in Hscan.
  destruct (read_in_order _ _ _) as [[[prev' matrix'] r2]| | |] eqn:Hblocks;
    try discriminate.
  cbn [bind] in Hscan. injection Hscan as <- <-.
  unfold ImageData.mcu_w, ImageData.mcu_h, ImageData.channel_matrix,
    ImageData.channel_ids.
  pose proof Hheader as Hheader0.
  apply ReadImageData_header_ids in Hheader.
  pose proof Hblocks as Hblocks0.
  apply read_in_order_lengths in Hblocks;
    [|rewrite repeat_length; apply block_order_channels].
  destruct Hblocks as [Hlen Hnth]. rewrite repeat_length in Hlen.
  assert (Hcount : forall (c : nat) (id : Z),
            nth_error ids c = Some id ->
            ImageMetadata.GetMetaByChannelId meta id
            = Ok (nth c cms ChannelMetadata.default)
            /\ Z.of_nat (blocks_of (Z.of_nat c) (block_order cms cnt mh mw))
               = mw * mh * ChannelMetadata.h (nth c cms ChannelMetadata.default)
                 * ChannelMetadata.v (nth c cms ChannelMetadata.default)).
  { intros c id Hc.
    destruct (lookup_channels_nth meta ids cms Hcms c id Hc) as [Hcm Hin].
    split; [exact Hcm|].
    assert (Hclt : (c < List.length ids)%nat)
      by (apply nth_error_Some; congruence).
    rewrite blocks_of_block_order by lia. rewrite Nat2Z.id.
    rewrite Forall_forall in Hfactors. specialize (Hfactors _ Hin).
    rewrite !Nat2Z.inj_mul, !Z2Nat.id by lia. ring. }
  split; [lia|]. split; [exact Hhmax|]. split; [exact Hvmax|].
  split; [exact Hcw|]. split; [exact Hch|].
  split; [congruence|]. split; [|split; [|split]].
  - intros c id Hc. destruct (Hcount c id Hc) as [Hcm Hn].
    exists (nth c cms ChannelMetadata.default). split; [exact Hcm|].
    rewrite Hnth.
    replace (nth c (repeat [] (Z.to_nat cnt)) []) with (@nil (list Z))
      by (symmetry; apply nth_repeat).
    change (List.length (@nil (list Z))) with 0%nat. rewrite Nat.add_0_l.
    exact Hn.
  - exists cnt, dcs, acs, cms, r1, prev'. cbv zeta.
    split; [reflexivity|]. split; [exact Hcms|]. split; [exact Hblocks0|].
    split; [apply block_order_sorted|]. split; [apply block_order_In|].
    intros c id Hc. destruct (Hcount c id Hc) as [Hcm Hn].
    exists (nth c cms ChannelMetadata.default). repeat split; assumption.
  - intros. apply ReadImageData_blocks_in_order.
  - intros s Hmeta Htrees. cbn [Parser.ReadRawImage_segment].
    rewrite Hmeta, Htrees, Hscan0. cbn [bind].
    eexists. split; [reflexivity|]. repeat split.
Qed.

Lemma ReadImageData_block_counts_witness :
  is_max_of ChannelMetadata.h
    [ChannelMetadata.mk 1 2 2 0; ChannelMetadata.mk 2 1 1 0] 2
  /\ is_max_of ChannelMetadata.v
       [ChannelMetadata.mk 1 2 2 0; ChannelMetadata.mk 2 1 1 0] 2
  /\ is_ceil_div 17 (8 * 2) 2
  /\ is_ceil_div 9 (8 * 2) 1
  /\ (exists cm : ChannelMetadata.t,
         ImageMetadata.GetMetaByChannelId Examples.quartered_meta 1 = Ok cm
         /\ Z.of_nat
              (List.length
                 (nth 0 (ImageData.channel_matrix Examples.quartered_data) []))
            = 2 * 1 * ChannelMetadata.h cm * ChannelMetadata.v cm)
  /\ (exists cm : ChannelMetadata.t,
         ImageMetadata.GetMetaByChannelId Examples.quartered_meta 2 = Ok cm
         /\ Z.of_nat
              (List.length
                 (nth 1 (ImageData.channel_matrix Examples.quartered_data) []))
            = 2 * 1 * ChannelMetadata.h cm * ChannelMetadata.v cm)
  /\ (exists order : list position,
         StronglySorted before order
         /\ (forall p : position,
               In p order
               <-> in_scan (ImageMetadata.channels Examples.quartered_meta)
                     2 1 2 p)
         /\ Z.of_nat (blocks_of 0 order) = 8
         /\ Z.of_nat (blocks_of 1 order) = 2)
  /\ (exists s' : Parser.segments,
         Parser.ReadRawImage_segment MarkerType.Data
           (Parser.mkSegments [] [] None (Some Examples.quartered_meta)
              (Examples.gray_trees 0))
           (BitReader.init Examples.quartered_scan)
         = Ok (s', BitReader.Align (BitReader.mk [255; 217] 0 4))
         /\ Parser.image_data s' = Some Examples.quartered_data
         /\ BitReader.in_ (BitReader.Align (BitReader.mk [255; 217] 0 4))
            = BitReader.in_ (BitReader.mk [255; 217] 0 4)
         /\ BitReader.buffer_size_
              (BitReader.Align (BitReader.mk [255; 217] 0 4)) = 0
         /\ BitReader.buffer_ (BitReader.Align (BitReader.mk [255; 217] 0 4))
            = 0).
Proof.
  assert (Hframe : frame_ok Examples.quartered_meta).
  { unfold frame_ok. simpl. repeat split; try lia.
    repeat constructor; simpl; lia. }
  pose proof (ReadImageData_block_counts (Examples.gray_trees 0)
                Examples.quartered_meta (BitReader.init Examples.quartered_scan)
                (BitReader.mk [255; 217] 0 4) Examples.quartered_data
                Hframe eq_refl)
    as (_ & Hh & Hv & Hw & Hht & _ & Hcount & Horder & _ & Halign).
  split; [exact Hh|]. split; [exact Hv|]. split; [exact Hw|].
  split; [exact Hht|].
  split; [apply (Hcount 0%nat 1 eq_refl)|].
  split; [apply (Hcount 1%nat 2 eq_refl)|].
  split; [|apply Halign; reflexivity].
  destruct Horder as (cnt & dcs & acs & cms & r1 & prev & Hhd & Hlk & _ & Hs
                      & Hin & Hcnt).
  vm_compute in Hhd. vm_compute in Hlk.
  injection Hhd as <- _ _ _. injection Hlk as <-.
  eexists. split; [exact Hs|]. split; [exact Hin|].
  split.
  - destruct (Hcnt 0%nat 1 eq_refl) as (cm & _ & <- & Hn). exact Hn.
  - destruct (Hcnt 1%nat 2 eq_refl) as (cm & _ & <- & Hn). exact Hn.
Defined.

End ScanBlocks.

Section Totality.
Import BitReader.

(** The walk down the tree is the loop over [Move], and a call that
    returns leaves [state_] at [root_]. *)
Lemma ReadFromHuffmanTree_loop_walk (root : HuffmanTree.Node) (fuel : nat) :
  forall (st : HuffmanTree.Node) (r : t),
    (HuffmanTree.height st < fuel)%nat ->
    Parser.ReadFromHuffmanTree_loop fuel (HuffmanTree.mk root (Some st)) r
    = result_map
        (fun p => (u8 (fst p), HuffmanTree.mk root (Some root), snd p))
        (Parser.ReadFromHuffmanTree_walk st r).
Proof.
  induction fuel as [|fuel IH]; intros st r Hfuel; [lia|].
  destruct st as [term nv l rt].
  cbn [Parser.ReadFromHuffmanTree_loop Parser.ReadFromHuffmanTree_walk].
  destruct (ReadBits 1 r) as [[bit r1]| | |]; try reflexivity.
  cbn [bind]. unfold HuffmanTree.Move.
  cbn [HuffmanTree.state_ HuffmanTree.left HuffmanTree.right HuffmanTree.root_].
  rewrite negb_involutive.
  cbn [HuffmanTree.height] in Hfuel.
  destruct (bit =? 0).
  - destruct l as [need|].
    + destruct need as [term' nv' l' rt'] eqn:Eneed.
      cbn [HuffmanTree.is_terminal HuffmanTree.value].
      destruct term'; cbn [negb bind].
      * destruct nv'; reflexivity.
      * rewrite <- Eneed. apply IH. subst need. lia.
    + cbn [bind]. destruct fuel as [|fuel]; [lia|].
      cbn [Parser.ReadFromHuffmanTree_loop].
      destruct (ReadBits 1 r1) as [[bit2 r2]| | |]; reflexivity.
  - destruct rt as [need|].
    + destruct need as [term' nv' l' rt'] eqn:Eneed.
      cbn [HuffmanTree.is_terminal HuffmanTree.value].
      destruct term'; cbn [negb bind].
      * destruct nv'; reflexivity.
      * rewrite <- Eneed. apply IH. subst need. lia.
    + cbn [bind]. destruct fuel as [|fuel]; [lia|].
      cbn [Parser.ReadFromHuffmanTree_loop].
      destruct (ReadBits 1 r1) as [[bit2 r2]| | |]; reflexivity.
Qed.

Lemma ReadFromHuffmanTree_loop_enough (tree : HuffmanTree.t) (fuel : nat)
    (r : t) :
  (HuffmanTree.state_height tree < fuel)%nat ->
  Parser.ReadFromHuffmanTree_loop fuel tree r
  = result_map
      (fun p => (fst p,
                 HuffmanTree.mk (HuffmanTree.root_ tree)
                   (Some (HuffmanTree.root_ tree)),
                 snd p))
      (Parser.ReadFromHuffmanTree tree r).
Proof.
  destruct tree as [root [st|]]; unfold HuffmanTree.state_height;
    cbn [HuffmanTree.state_ HuffmanTree.root_]; intros Hfuel.
  - rewrite ReadFromHuffmanTree_loop_walk by exact Hfuel.
    unfold Parser.ReadFromHuffmanTree. cbn [HuffmanTree.state_].
    destruct (Parser.ReadFromHuffmanTree_walk st r) as [[v r1]| | |];
      reflexivity.
  - destruct fuel as [|fuel]; [lia|].
    cbn [Parser.ReadFromHuffmanTree_loop]. unfold Parser.ReadFromHuffmanTree.
    cbn [HuffmanTree.state_].
    destruct (ReadBits 1 r) as [[bit r1]| | |]; reflexivity.
Qed.

(** *** The bounds of the loops suffice

    No call below ends with [OutOfFuel]: the bound given to a loop of the
    model is never reached. *)

Lemma bind_fuel {A B : Type} (m : result A) (k : A -> result B) :
  is_OutOfFuel m = false ->
  (forall a : A, is_OutOfFuel (k a) = false) ->
  is_OutOfFuel (bind m k) = false.
Proof.
  intros Hm Hk. destruct m; try reflexivity; [apply Hk|discriminate].
Qed.

Ltac fuel_cases :=
  repeat first
    [ reflexivity
    | assumption
    | apply bind_fuel; [|intros]
    | match goal with
      | |- is_OutOfFuel (let '(_, _) := ?p in _) = false => destruct p
      | |- is_OutOfFuel (if ?c then _ else _) = false => destruct c
      | |- is_OutOfFuel (match ?x with _ => _ end) = false => destruct x
      end ].

Lemma refill_fuel (r : t) : is_OutOfFuel (refill r) = false.
Proof. unfold refill, istream_read. fuel_cases. Qed.

Lemma ReadBits_loop_fuel (n : nat) :
  forall (acc : Z) (r : t), is_OutOfFuel (ReadBits_loop n acc r) = false.
Proof.
  induction n as [|n IH]; intros acc r; cbn [ReadBits_loop]; [reflexivity|].
  apply bind_fuel; [apply refill_fuel|]. intros r1. apply IH.
Qed.

Lemma ReadBits_fuel (n : Z) (r : t) : is_OutOfFuel (ReadBits n r) = false.
Proof.
  unfold ReadBits. destruct (n >? kCharSz * 2); [reflexivity|].
  apply ReadBits_loop_fuel.
Qed.

Lemma ReadBitsSigned_fuel (n : Z) (r : t) :
  is_OutOfFuel (ReadBitsSigned n r) = false.
Proof.
  unfold ReadBitsSigned. destruct (n =? 0); [reflexivity|].
  apply bind_fuel; [apply ReadBits_fuel|]. intros [v r1]. fuel_cases.
Qed.

Lemma ReadByte_fuel (r : t) : is_OutOfFuel (ReadByte r) = false.
Proof. unfold ReadByte, istream_read. fuel_cases. Qed.

Lemma ReadWord_fuel (r : t) : is_OutOfFuel (ReadWord r) = false.
Proof.
  unfold ReadWord. apply bind_fuel; [apply ReadByte_fuel|]. intros [b1 r1].
  apply bind_fuel; [apply ReadByte_fuel|]. intros [b2 r2]. reflexivity.
Qed.

Lemma ReadFromHuffmanTree_walk_fuel (fuel : nat) :
  forall (st : HuffmanTree.Node) (r : t),
    (HuffmanTree.height st < fuel)%nat ->
    is_OutOfFuel (Parser.ReadFromHuffmanTree_walk st r) = false.
Proof.
  induction fuel as [|fuel IH]; intros st r Hfuel; [lia|].
  destruct st as [term nv l rt]. cbn [Parser.ReadFromHuffmanTree_walk].
  cbn [HuffmanTree.height] in Hfuel.
  apply bind_fuel; [apply ReadBits_fuel|]. intros [bit r1].
  destruct (bit =? 0).
  - destruct l as [need|].
    + destruct (negb (HuffmanTree.is_terminal need)); [apply IH; lia|].
      destruct (HuffmanTree.value need); reflexivity.
    + apply bind_fuel; [apply ReadBits_fuel|]. intros [b r2]. reflexivity.
  - destruct rt as [need|].
    + destruct (negb (HuffmanTree.is_terminal need)); [apply IH; lia|].
      destruct (HuffmanTree.value need); reflexivity.
    + apply bind_fuel; [apply ReadBits_fuel|]. intros [b r2]. reflexivity.
Qed.

Lemma ReadFromHuffmanTree_fuel (tree : HuffmanTree.t) (r : t) :
  is_OutOfFuel (Parser.ReadFromHuffmanTree tree r) = false.
Proof.
  unfold Parser.ReadFromHuffmanTree. destruct (HuffmanTree.state_ tree) as [st|].
  - apply bind_fuel;
      [apply (ReadFromHuffmanTree_walk_fuel (S (HuffmanTree.height st))); lia|].
    intros [v r1]. reflexivity.
  - apply bind_fuel; [apply ReadBits_fuel|]. intros [b r1]. reflexivity.
Qed.

(** Every turn of the AC loop that goes on has added a coefficient. *)
Lemma ReadBlock_ac_fuel (fuel : nat) (ac_tree : HuffmanTree.t) :
  forall (matrix : list Z) (r : t),
    (Z.to_nat Parser.kBlockSz < fuel + List.length matrix)%nat ->
    is_OutOfFuel (Parser.ReadBlock_ac fuel ac_tree matrix r) = false.
Proof.
  change (Z.to_nat Parser.kBlockSz) with 64%nat.
  induction fuel as [|fuel IH]; intros matrix r Hfuel;
    cbn [Parser.ReadBlock_ac];
    destruct (Z.of_nat (List.length matrix) <? Parser.kBlockSz) eqn:E;
    try reflexivity.
  - apply Z.ltb_lt in E. unfold Parser.kBlockSz in *. lia.
  - apply bind_fuel; [apply ReadFromHuffmanTree_fuel|]. intros [mask r1].
    destruct (mask =? 0); [reflexivity|].
    destruct (negb (Z.land mask Parser.kLowestByteMask =? 0)
              || (Z.shiftr mask 4 =? 15)); [|reflexivity].
    apply bind_fuel; [apply ReadBitsSigned_fuel|]. intros [coef r2].
    apply IH. rewrite !length_app. simpl. lia.
Qed.

Lemma ReadBlock_fuel (dc_tree ac_tree : HuffmanTree.t) (prev_dc : Z) (r : t) :
  is_OutOfFuel (Parser.ReadBlock dc_tree ac_tree prev_dc r) = false.
Proof.
  unfold Parser.ReadBlock.
  destruct (Parser.ReadBlock_dc dc_tree prev_dc r)
    as [[[matrix p] r1]| | |] eqn:Hdc; try reflexivity.
  - cbn [bind].
    assert (Hm : matrix = [p]).
    { unfold Parser.ReadBlock_dc in Hdc.
      destruct (Parser.ReadFromHuffmanTree dc_tree r) as [[s ra]| | |];
        try discriminate. cbn [bind] in Hdc.
      destruct (s =? 0); [injection Hdc as <- <- <-; reflexivity|].
      destruct (ReadBitsSigned s ra) as [[d rb]| | |]; try discriminate.
      cbn [bind] in Hdc. injection Hdc as <- <- <-. reflexivity. }
    subst matrix.
    apply bind_fuel;
      [apply ReadBlock_ac_fuel;
       change (Z.to_nat Parser.kBlockSz) with 64%nat; simpl; lia|].
    intros [matrix r2].
    destruct (negb (Z.of_nat (List.length matrix) =? Parser.kBlockSz));
      [reflexivity|].
    unfold Parser.GetZigZag.
    destruct (negb (Z.of_nat (List.length matrix) =? Parser.kBlockSz));
      reflexivity.
  - exfalso. unfold Parser.ReadBlock_dc in Hdc.
    pose proof (ReadFromHuffmanTree_fuel dc_tree r) as H1.
    destruct (Parser.ReadFromHuffmanTree dc_tree r) as [[s ra]| | |];
      try discriminate. cbn [bind] in Hdc.
    destruct (s =? 0); [discriminate|].
    pose proof (ReadBitsSigned_fuel s ra) as H2.
    destruct (ReadBitsSigned s ra) as [[d rb]| | |]; discriminate.
Qed.

Lemma for_fuel {S : Type} (body : Z -> S -> result S) (n : nat) :
  (forall (i : Z) (s : S), is_OutOfFuel (body i s) = false) ->
  forall (i : Z) (s : S), is_OutOfFuel (for_ n i body s) = false.
Proof.
  intros Hbody. induction n as [|n IH]; intros i s; cbn [for_];
    [reflexivity|].
  apply bind_fuel; [apply Hbody|]. intros s1. apply IH.
Qed.

Lemma read_many_fuel (read : t -> result (Z * t)) (n : nat) (acc : list Z)
    (r : t) :
  (forall r0 : t, is_OutOfFuel (read r0) = false) ->
  is_OutOfFuel (Parser.read_many read n acc r) = false.
Proof.
  intros Hread. unfold Parser.read_many. apply for_fuel.
  intros i [acc0 r0]. apply bind_fuel; [apply Hread|]. intros [x r1].
  reflexivity.
Qed.

Lemma ReadSz_fuel (r : t) : is_OutOfFuel (Parser.ReadSz r) = false.
Proof.
  unfold Parser.ReadSz. apply bind_fuel; [apply ReadWord_fuel|].
  intros [sz r1]. destruct (sz <? 2); reflexivity.
Qed.

Lemma ReadImageData_fuel (trees : list (option HuffmanTree.t))
    (meta : ImageMetadata.t) (r : t) :
  is_OutOfFuel (Parser.ReadImageData trees meta r) = false.
Proof.
  unfold Parser.ReadImageData. apply bind_fuel.
  - unfold Parser.ReadImageData_header. apply bind_fuel.
    + unfold Parser.ReadImageData_channels.
      apply bind_fuel; [apply ReadSz_fuel|]. intros [sz r1].
      destruct (sz <? 1); [reflexivity|].
      apply bind_fuel; [apply ReadByte_fuel|]. intros [n r2].
      destruct (u16 (sz - 1) <? n * 2); [reflexivity|].
      apply bind_fuel; [|intros [[[ids dcs] acs] r3]; reflexivity].
      apply for_fuel. intros i [[[ids dcs] acs] r3].
      unfold Parser.ReadImageData_channel.
      apply bind_fuel; [apply ReadByte_fuel|]. intros [id r4].
      apply bind_fuel; [apply ReadByte_fuel|]. intros [mask r5].
      destruct (Parser.lookup_tree trees _); [|reflexivity].
      destruct (Parser.lookup_tree trees _); reflexivity.
    + intros [[[[[sz cnt] ids] dcs] acs] r1].
      apply bind_fuel; [|intros r2; reflexivity].
      unfold Parser.ReadImageData_spectral.
      destruct (sz <? 3); [reflexivity|].
      apply bind_fuel; [apply ReadByte_fuel|]. intros [ss r2].
      apply bind_fuel; [apply ReadByte_fuel|]. intros [se r3].
      destruct (negb (se =? 63)); [reflexivity|].
      apply bind_fuel; [apply ReadByte_fuel|]. intros [ahal r4].
      apply bind_fuel; [apply read_many_fuel; apply ReadByte_fuel|].
      intros [skipped r5]. reflexivity.
  - intros [[[[cnt ids] dcs] acs] r1]. cbv zeta.
    destruct ((Parser.h_max meta =? 0) || (Parser.v_max meta =? 0));
      [reflexivity|].
    apply bind_fuel.
    + clear. induction ids as [|id ids IH]; cbn [Parser.lookup_channels];
        [reflexivity|].
      apply bind_fuel.
      * unfold ImageMetadata.GetMetaByChannelId.
        induction (ImageMetadata.channels meta) as [|c l IHl]; simpl;
          [reflexivity|].
        destruct (ChannelMetadata.channel_id c =? id); [reflexivity|exact IHl].
      * intros cm. apply bind_fuel; [exact IH|]. intros cms. reflexivity.
    + intros cms. apply bind_fuel; [|intros [[p m] r2]; reflexivity].
      unfold Parser.ReadImageData_blocks.
      apply for_fuel. intros mcu_y s1.
      apply for_fuel. intros mcu_x s2.
      apply for_fuel. intros c s3. cbv zeta.
      apply for_fuel. intros block_v s4.
      apply for_fuel. intros block_h [[prev matrix] r2].
      unfold Parser.read_block_of.
      apply bind_fuel; [apply ReadBlock_fuel|]. intros [[block p] r3].
      reflexivity.
Qed.

End Totality.

Section Consumption.
Import BitReader.

(** *** What a call takes from the stream

    A call that returns never leaves more bytes in the stream than it
    found; [ReadByte] takes exactly one. *)

Ltac ok_cases H :=
  repeat match type of H with
    | bind ?m _ = Ok _ =>
        let E := fresh "E" in
        destruct m as [?| | |] eqn:E; cbn [bind] in H; try discriminate H
    | (if ?c then _ else _) = Ok _ =>
        let E := fresh "E" in destruct c eqn:E; try discriminate H
    | (match ?x with _ => _ end) = Ok _ =>
        let E := fresh "E" in destruct x eqn:E; try discriminate H
    end;
  subst.

Lemma ReadByte_consumes (r r' : t) (b : Z) :
  ReadByte r = Ok (b, r') -> remaining r = S (remaining r').
Proof.
  unfold ReadByte, istream_read, remaining. intros H.
  destruct (negb (buffer_size_ r =? 0)); [discriminate|].
  destruct (in_ r) as [|c s]; [discriminate|].
  injection H as <- <-. reflexivity.
Qed.

Lemma ReadByte_range (r r' : t) (b : Z) :
  ReadByte r = Ok (b, r') -> 0 <= b < 256.
Proof.
  unfold ReadByte, istream_read. intros H.
  destruct (negb (buffer_size_ r =? 0)); [discriminate|].
  destruct (in_ r) as [|c s]; [discriminate|].
  injection H as <- <-. apply Z.mod_pos_bound. lia.
Qed.

Lemma ReadWord_consumes (r r' : t) (w : Z) :
  ReadWord r = Ok (w, r') -> remaining r = S (S (remaining r')).
Proof.
  unfold ReadWord. intros H. ok_cases H. injection H as <- <-.
  repeat match goal with
         | Hr : ReadByte _ = Ok _ |- _ => apply ReadByte_consumes in Hr
         end.
  lia.
Qed.

Lemma ReadSz_consumes (r r' : t) (sz : Z) :
  Parser.ReadSz r = Ok (sz, r') ->
  remaining r = S (S (remaining r')) /\ 0 <= sz < 65536.
Proof.
  unfold Parser.ReadSz. intros H. ok_cases H. injection H as <- <-.
  match goal with
  | Hr : ReadWord _ = Ok _ |- _ => apply ReadWord_consumes in Hr
  end.
  split; [assumption|]. apply Z.mod_pos_bound. lia.
Qed.

Lemma ReadMarkerType_consumes (r r' : t) (m : MarkerType.t) :
  Parser.ReadMarkerType r = Ok (m, r') -> remaining r = S (S (remaining r')).
Proof.
  unfold Parser.ReadMarkerType. intros H. ok_cases H. injection H as <- <-.
  match goal with
  | Hr : ReadWord _ = Ok _ |- _ => apply ReadWord_consumes in Hr
  end.
  assumption.
Qed.

Ltac consumed :=
  repeat match goal with
    | Hr : ReadByte _ = Ok _ |- _ => apply ReadByte_consumes in Hr
    | Hr : ReadWord _ = Ok _ |- _ => apply ReadWord_consumes in Hr
    | Hr : Parser.ReadSz _ = Ok _ |- _ => apply ReadSz_consumes in Hr
    | Hr : Parser.ReadMarkerType _ = Ok _ |- _ =>
        apply ReadMarkerType_consumes in Hr
    end.

Lemma for_remaining {S : Type} (rd : S -> t) (body : Z -> S -> result S)
    (n : nat) :
  (forall (i : Z) (s s' : S),
      body i s = Ok s' -> (remaining (rd s') <= remaining (rd s))%nat) ->
  forall (i : Z) (s s' : S),
    for_ n i body s = Ok s' -> (remaining (rd s') <= remaining (rd s))%nat.
Proof.
  intros Hbody. induction n as [|n IH]; intros i s s' H; cbn [for_] in H.
  - injection H as <-. lia.
  - destruct (body i s) as [s1| | |] eqn:E; try discriminate.
    cbn [bind] in H. apply Hbody in E. apply IH in H. lia.
Qed.

Lemma read_many_remaining (read : t -> result (Z * t)) (n : nat) :
  (forall (r r' : t) (x : Z),
      read r = Ok (x, r') -> (remaining r' <= remaining r)%nat) ->
  forall (acc l : list Z) (r r' : t),
    Parser.read_many read n acc r = Ok (l, r') ->
    (remaining r' <= remaining r)%nat.
Proof.
  intros Hread acc l r r' H. unfold Parser.read_many in H.
  apply (for_remaining snd) in H; [exact H|].
  intros i [a0 r0] [a1 r1] Hb.
  destruct (read r0) as [[x r2]| | |] eqn:E; try discriminate.
  cbn [bind] in Hb. injection Hb as <- <-.
  apply Hread in E. exact E.
Qed.

Lemma ReadByte_remaining (r r' : t) (b : Z) :
  ReadByte r = Ok (b, r') -> (remaining r' <= remaining r)%nat.
Proof. intros H. apply ReadByte_consumes in H. lia. Qed.

Lemma ReadWord_remaining (r r' : t) (w : Z) :
  ReadWord r = Ok (w, r') -> (remaining r' <= remaining r)%nat.
Proof. intros H. apply ReadWord_consumes in H. lia. Qed.

Lemma ReadComment_remaining (r r' : t) (c : list Z) :
  Parser.ReadComment r = Ok (c, r') -> (remaining r' <= remaining r)%nat.
Proof.
  unfold Parser.ReadComment. intros H. ok_cases H. consumed.
  apply read_many_remaining in H; [lia|apply ReadByte_remaining].
Qed.

Lemma ReadImageMeta_remaining (r r' : t) (meta : ImageMetadata.t) :
  Parser.ReadImageMeta r = Ok (meta, r') -> (remaining r' <= remaining r)%nat.
Proof.
  unfold Parser.ReadImageMeta. intros H. ok_cases H. injection H as <- <-.
  consumed.
  match goal with
  | Hloop : for_ _ _ _ _ = Ok _ |- _ =>
      apply (for_remaining snd) in Hloop; [simpl in *; lia|]
  end.
  intros i [a0 r0] [a1 r1] Hb. unfold Parser.ReadImageMeta_channel in Hb.
  ok_cases Hb. injection Hb as <- <-. consumed. simpl in *. lia.
Qed.

Lemma refill_remaining (r r' : t) :
  refill r = Ok r' -> (remaining r' <= remaining r)%nat.
Proof.
  unfold refill, istream_read, remaining. intros H.
  destruct (buffer_size_ r =? 0); [|injection H as <-; lia].
  destruct (in_ r) as [|tmp s1]; [discriminate|].
  destruct (tmp =? 255).
  - destruct s1 as [|next s2]; [discriminate|].
    destruct (negb (next =? 0)); [discriminate|].
    injection H as <-. simpl. lia.
  - injection H as <-. simpl. lia.
Qed.

Lemma ReadBits_loop_remaining (n : nat) :
  forall (acc v : Z) (r r' : t),
    ReadBits_loop n acc r = Ok (v, r') -> (remaining r' <= remaining r)%nat.
Proof.
  induction n as [|n IH]; intros acc v r r' H; cbn [ReadBits_loop] in H.
  - injection H as <- <-. lia.
  - destruct (refill r) as [r1| | |] eqn:E; try discriminate.
    cbn [bind] in H. apply refill_remaining in E. apply IH in H.
    unfold remaining in *. simpl in H. lia.
Qed.

Lemma ReadBits_remaining (n v : Z) (r r' : t) :
  ReadBits n r = Ok (v, r') -> (remaining r' <= remaining r)%nat.
Proof.
  unfold ReadBits. destruct (n >? kCharSz * 2); [discriminate|].
  apply ReadBits_loop_remaining.
Qed.

Lemma ReadBitsSigned_remaining (n v : Z) (r r' : t) :
  ReadBitsSigned n r = Ok (v, r') -> (remaining r' <= remaining r)%nat.
Proof.
  unfold ReadBitsSigned. intros H.
  destruct (n =? 0); [injection H as <- <-; lia|].
  destruct (ReadBits n r) as [[x r1]| | |] eqn:E; try discriminate.
  cbn [bind] in H. apply ReadBits_remaining in E.
  destruct (negb (Z.land x (Z.shiftl 1 (n - 1)) =? 0));
    injection H as <- <-; exact E.
Qed.

Lemma ReadFromHuffmanTree_walk_remaining (fuel : nat) :
  forall (st : HuffmanTree.Node) (v : Z) (r r' : t),
    (HuffmanTree.height st < fuel)%nat ->
    Parser.ReadFromHuffmanTree_walk st r = Ok (v, r') ->
    (remaining r' <= remaining r)%nat.
Proof.
  induction fuel as [|fuel IH]; intros st v r r' Hfuel H; [lia|].
  destruct st as [term nv l rt]. cbn [Parser.ReadFromHuffmanTree_walk] in H.
  cbn [HuffmanTree.height] in Hfuel.
  destruct (ReadBits 1 r) as [[bit r1]| | |] eqn:E; try discriminate.
  cbn [bind] in H. apply ReadBits_remaining in E.
  destruct (if bit =? 0 then l else rt) as [need|] eqn:Eneed.
  - destruct (negb (HuffmanTree.is_terminal need)).
    + apply IH in H; [lia|]. destruct (bit =? 0); subst; lia.
    + destruct (HuffmanTree.value need); [|discriminate].
      injection H as <- <-. exact E.
  - destruct (ReadBits 1 r1) as [[b r2]| | |]; discriminate.
Qed.

Lemma ReadFromHuffmanTree_remaining (tree : HuffmanTree.t) (v : Z) (r r' : t) :
  Parser.ReadFromHuffmanTree tree r = Ok (v, r') ->
  (remaining r' <= remaining r)%nat.
Proof.
  unfold Parser.ReadFromHuffmanTree. intros H.
  destruct (HuffmanTree.state_ tree) as [st|].
  - destruct (Parser.ReadFromHuffmanTree_walk st r) as [[x r1]| | |] eqn:E;
      try discriminate.
    cbn [bind] in H. injection H as <- <-.
    apply (ReadFromHuffmanTree_walk_remaining (S (HuffmanTree.height st)))
      in E; [exact E|lia].
  - destruct (ReadBits 1 r) as [[b r1]| | |]; discriminate.
Qed.

Lemma ReadBlock_ac_remaining (fuel : nat) (ac_tree : HuffmanTree.t) :
  forall (matrix matrix' : list Z) (r r' : t),
    Parser.ReadBlock_ac fuel ac_tree matrix r = Ok (matrix', r') ->
    (remaining r' <= remaining r)%nat.
Proof.
  induction fuel as [|fuel IH]; intros matrix matrix' r r' H;
    cbn [Parser.ReadBlock_ac] in H;
    destruct (Z.of_nat (List.length matrix) <? Parser.kBlockSz);
    try discriminate; try (injection H as <- <-; lia).
  destruct (Parser.ReadFromHuffmanTree ac_tree r) as [[mask r1]| | |] eqn:E;
    try discriminate.
  cbn [bind] in H. apply ReadFromHuffmanTree_remaining in E.
  destruct (mask =? 0); [injection H as <- <-; exact E|].
  destruct (negb (Z.land mask Parser.kLowestByteMask =? 0)
            || (Z.shiftr mask 4 =? 15)); [|discriminate].
  destruct (ReadBitsSigned (Z.land mask Parser.kLowestByteMask) r1)
    as [[coef r2]| | |] eqn:E2; try discriminate.
  cbn [bind] in H. apply ReadBitsSigned_remaining in E2. apply IH in H. lia.
Qed.

Lemma ReadBlock_remaining (dc_tree ac_tree : HuffmanTree.t) (prev_dc p : Z)
    (block : list Z) (r r' : t) :
  Parser.ReadBlock dc_tree ac_tree prev_dc r = Ok (block, p, r') ->
  (remaining r' <= remaining r)%nat.
Proof.
  unfold Parser.ReadBlock, Parser.ReadBlock_dc. intros H.
  destruct (Parser.ReadFromHuffmanTree dc_tree r) as [[s r1]| | |] eqn:E;
    try discriminate.
  cbn [bind] in H. apply ReadFromHuffmanTree_remaining in E.
  assert (Hac : forall (m m' : list Z) (q : Z) (ra rb : t),
             (remaining ra <= remaining r)%nat ->
             ('(matrix, rc) <-
                Parser.ReadBlock_ac (Z.to_nat Parser.kBlockSz) ac_tree m ra ;;
              if negb (Z.of_nat (List.length matrix) =? Parser.kBlockSz)
              then Throw "Too many blocks in matrix"
              else blk <- Parser.GetZigZag matrix ;; Ok (blk, q, rc))
             = Ok (m', p, rb) ->
             (remaining rb <= remaining r)%nat).
  { intros m m' q ra rb Hra Hb.
    destruct (Parser.ReadBlock_ac _ ac_tree m ra) as [[mx rc]| | |] eqn:Eac;
      try discriminate.
    cbn [bind] in Hb. apply ReadBlock_ac_remaining in Eac.
    destruct (negb (Z.of_nat (List.length mx) =? Parser.kBlockSz));
      [discriminate|].
    destruct (Parser.GetZigZag mx); try discriminate.
    cbn [bind] in Hb. injection Hb as _ _ <-. lia. }
  destruct (s =? 0).
  - cbn [bind] in H. eapply Hac; [|exact H]. exact E.
  - destruct (ReadBitsSigned s r1) as [[d r2]| | |] eqn:E2; try discriminate.
    cbn [bind] in H. apply ReadBitsSigned_remaining in E2.
    eapply Hac; [|exact H]. lia.
Qed.

Lemma ReadImageData_channels_remaining (trees : list (option HuffmanTree.t))
    (r r' : t) (x : Z * Z * list Z * list HuffmanTree.t * list HuffmanTree.t) :
  Parser.ReadImageData_channels trees r = Ok (x, r') ->
  (remaining r' <= remaining r)%nat.
Proof.
  unfold Parser.ReadImageData_channels. intros H. ok_cases H.
  injection H as <- <-. consumed.
  match goal with
  | Hc : for_ _ _ _ _ = Ok _ |- _ => apply (for_remaining snd) in Hc
  end.
  - simpl in *. lia.
  - intros i [[[a b] c] r0] [[[a' b'] c'] r1] Hb.
    unfold Parser.ReadImageData_channel in Hb. ok_cases Hb.
    injection Hb as <- <- <- <-. consumed. simpl. lia.
Qed.

Lemma ReadImageData_spectral_remaining (sz : Z) (r r' : t) :
  Parser.ReadImageData_spectral sz r = Ok r' ->
  (remaining r' <= remaining r)%nat.
Proof.
  unfold Parser.ReadImageData_spectral. intros H. ok_cases H.
  injection H as <-. consumed.
  match goal with
  | Hm : Parser.read_many _ _ _ _ = Ok _ |- _ =>
      apply read_many_remaining in Hm; [|apply ReadByte_remaining]
  end.
  lia.
Qed.

Lemma ReadImageData_blocks_remaining (dcs acs : list HuffmanTree.t)
    (cms : list ChannelMetadata.t) (cnt mh mw : Z)
    (st st' : Parser.scan_state) :
  Parser.ReadImageData_blocks dcs acs cms cnt mh mw st = Ok st' ->
  (remaining (snd st') <= remaining (snd st))%nat.
Proof.
  unfold Parser.ReadImageData_blocks. intros H.
  apply (for_remaining snd) in H; [exact H|].
  intros mcu_y s s' Hy. apply (for_remaining snd) in Hy; [exact Hy|].
  intros mcu_x s1 s1' Hx. apply (for_remaining snd) in Hx; [exact Hx|].
  intros c s2 s2' Hc. cbv zeta in Hc.
  apply (for_remaining snd) in Hc; [exact Hc|].
  intros bv s3 s3' Hv. apply (for_remaining snd) in Hv; [exact Hv|].
  intros bh [[pd mx] r0] [[pd' mx'] r1] Hh.
  unfold Parser.read_block_of in Hh.
  destruct (Parser.ReadBlock _ _ _ r0) as [[[blk q] r2]| | |] eqn:Eb;
    try discriminate.
  cbn [bind] in Hh. injection Hh as <- <- <-.
  apply ReadBlock_remaining in Eb. exact Eb.
Qed.

Lemma ReadImageData_remaining (trees : list (option HuffmanTree.t))
    (meta : ImageMetadata.t) (img : ImageData.t) (r r' : t) :
  Parser.ReadImageData trees meta r = Ok (img, r') ->
  (remaining r' <= remaining r)%nat.
Proof.
  unfold Parser.ReadImageData, Parser.ReadImageData_header. intros H.
  destruct (Parser.ReadImageData_channels trees r)
    as [[[[[[sz cnt] ids] dcs] acs] r1]| | |] eqn:E1; try discriminate.
  cbn [bind] in H. apply ReadImageData_channels_remaining in E1.
  destruct (Parser.ReadImageData_spectral sz r1) as [r2| | |] eqn:E2;
    try discriminate.
  cbn [bind] in H. apply ReadImageData_spectral_remaining in E2.
  cbv zeta in H.
  destruct ((Parser.h_max meta =? 0) || (Parser.v_max meta =? 0));
    [discriminate|].
  destruct (Parser.lookup_channels meta ids) as [cms| | |];
    try discriminate.
  cbn [bind] in H.
  destruct (Parser.ReadImageData_blocks _ _ _ _ _ _ _)
    as [[[pd mx] r3]| | |] eqn:E3; try discriminate.
  cbn [bind] in H. injection H as <- <-.
  apply ReadImageData_blocks_remaining in E3. simpl in E3. lia.
Qed.

Lemma ReadQuantTable_loop_remaining (fuel : nat) :
  forall (sz : Z) (ans ans' : list QuantumTable.t) (r r' : t),
    Parser.ReadQuantTable_loop fuel sz ans r = Ok (ans', r') ->
    (remaining r' <= remaining r)%nat.
Proof.
  induction fuel as [|fuel IH]; intros sz ans ans' r r' H;
    cbn [Parser.ReadQuantTable_loop] in H;
    destruct (sz >? 0); try discriminate; try (injection H as <- <-; lia).
  ok_cases H. consumed.
  match goal with
  | Hm : Parser.read_many _ _ _ _ = Ok _ |- _ =>
      apply read_many_remaining in Hm;
        [|intros ? ? ?;
          match goal with
          | |- (if ?c then _ else _) _ = _ -> _ =>
              destruct c; [apply ReadByte_remaining|apply ReadWord_remaining]
          end]
  end.
  apply IH in H. lia.
Qed.

Lemma ReadQuantTable_remaining (r r' : t) (tables : list QuantumTable.t) :
  Parser.ReadQuantTable r = Ok (tables, r') ->
  (remaining r' <= remaining r)%nat.
Proof.
  unfold Parser.ReadQuantTable. intros H. ok_cases H. consumed.
  apply ReadQuantTable_loop_remaining in H. lia.
Qed.

Lemma ReadHuffmanTree_loop_remaining (fuel : nat) :
  forall (sz : Z) (ans ans' : list Huffman.t) (r r' : t),
    Parser.ReadHuffmanTree_loop fuel sz ans r = Ok (ans', r') ->
    (remaining r' <= remaining r)%nat.
Proof.
  induction fuel as [|fuel IH]; intros sz ans ans' r r' H;
    cbn [Parser.ReadHuffmanTree_loop] in H;
    destruct (sz >? 0); try discriminate; try (injection H as <- <-; lia).
  ok_cases H. consumed.
  repeat match goal with
         | Hm : Parser.read_many _ _ _ _ = Ok _ |- _ =>
             apply read_many_remaining in Hm; [|apply ReadByte_remaining]
         end.
  apply IH in H. lia.
Qed.

Lemma ReadHuffmanTree_remaining (r r' : t) (trees : list Huffman.t) :
  Parser.ReadHuffmanTree r = Ok (trees, r') ->
  (remaining r' <= remaining r)%nat.
Proof.
  unfold Parser.ReadHuffmanTree. intros H. ok_cases H. consumed.
  apply ReadHuffmanTree_loop_remaining in H. lia.
Qed.

Lemma ReadRawImage_segment_remaining (marker : MarkerType.t)
    (s s' : Parser.segments) (r r' : t) :
  Parser.ReadRawImage_segment marker s r = Ok (s', r') ->
  (remaining r' <= remaining r)%nat.
Proof.
  unfold Parser.ReadRawImage_segment. intros H.
  destruct marker; try discriminate H; ok_cases H;
    try (injection H as <- <-);
    repeat match goal with
           | Hr : Parser.ReadImageMeta _ = Ok _ |- _ =>
               apply ReadImageMeta_remaining in Hr
           | Hr : Parser.ReadComment _ = Ok _ |- _ =>
               apply ReadComment_remaining in Hr
           | Hr : Parser.ReadQuantTable _ = Ok _ |- _ =>
               apply ReadQuantTable_remaining in Hr
           | Hr : Parser.ReadHuffmanTree _ = Ok _ |- _ =>
               apply ReadHuffmanTree_remaining in Hr
           | Hr : Parser.ReadImageData _ _ _ = Ok _ |- _ =>
               apply ReadImageData_remaining in Hr
           end;
    try assumption; try lia.
Qed.

(** *** The marker loop and the table loops end *)

Lemma read_many_nonneg (n : nat) :
  forall (acc l : list Z) (r r' : t),
    Parser.read_many ReadByte n acc r = Ok (l, r') ->
    Forall (fun x => 0 <= x) acc -> Forall (fun x => 0 <= x) l.
Proof.
  unfold Parser.read_many.
  assert (H : forall (n : nat) (i : Z) (s s' : list Z * t),
             for_ n i
               (fun _ '(acc, r) => '(x, r) <- ReadByte r ;; Ok (acc ++ [x], r))
               s = Ok s' ->
             Forall (fun x => 0 <= x) (fst s) ->
             Forall (fun x => 0 <= x) (fst s')).
  { clear. induction n as [|n IH]; intros i [acc r] s' H Hacc; cbn [for_] in H.
    - injection H as <-. exact Hacc.
    - destruct (ReadByte r) as [[x r1]| | |] eqn:E; try discriminate.
      cbn [bind] in H. apply IH in H; [exact H|].
      apply ReadByte_range in E. simpl.
      apply Forall_app. split; [exact Hacc|]. constructor; [lia|constructor]. }
  intros acc l r r' Hm Hacc. apply H in Hm; assumption.
Qed.

Lemma fold_left_add_nonneg (l : list Z) :
  forall a : Z, 0 <= a -> Forall (fun x => 0 <= x) l -> 0 <= fold_left Z.add l a.
Proof.
  induction l as [|x l IH]; intros a Ha Hl; simpl; [exact Ha|].
  apply Forall_cons_iff in Hl as [Hx Hl]. apply IH; [lia|exact Hl].
Qed.

Lemma GetZigZag_fuel (data : list Z) :
  is_OutOfFuel (Parser.GetZigZag data) = false.
Proof.
  unfold Parser.GetZigZag.
  destruct (negb (Z.of_nat (List.length data) =? Parser.kBlockSz));
    reflexivity.
Qed.

Lemma ReadQuantTable_loop_fuel (fuel : nat) :
  forall (sz : Z) (ans : list QuantumTable.t) (r : t),
    0 <= sz < 65536 -> sz <= Z.of_nat fuel ->
    is_OutOfFuel (Parser.ReadQuantTable_loop fuel sz ans r) = false.
Proof.
  induction fuel as [|fuel IH]; intros sz ans r Hsz Hfuel;
    cbn [Parser.ReadQuantTable_loop];
    destruct (sz >? 0) eqn:E; try reflexivity.
  - apply Z.gtb_lt in E. lia.
  - apply Z.gtb_lt in E.
    destruct (sz <? 1); [reflexivity|].
    apply bind_fuel; [apply ReadByte_fuel|]. intros [mask r1].
    destruct (negb (Z.shiftr mask 4 =? 0) && negb (Z.shiftr mask 4 =? 1));
      [reflexivity|].
    destruct (u16 (sz - 1)
              <? Parser.kBlockSz * (if Z.shiftr mask 4 =? 1 then 2 else 1))
      eqn:E2; [reflexivity|].
    apply Z.ltb_ge in E2.
    apply bind_fuel.
    { apply read_many_fuel. intros r0.
      destruct ((if Z.shiftr mask 4 =? 1 then 2 else 1) =? 1);
        [apply ReadByte_fuel|apply ReadWord_fuel]. }
    intros [data r2].
    destruct (negb (Z.of_nat (List.length data) =? Parser.kBlockSz));
      [reflexivity|].
    apply bind_fuel; [apply GetZigZag_fuel|]. intros zz.
    unfold u16, Parser.kBlockSz in *.
    rewrite (Z.mod_small (sz - 1)) in * by lia.
    assert (Hvl : 1 <= (if Z.shiftr mask 4 =? 1 then 2 else 1) <= 2)
      by (destruct (Z.shiftr mask 4 =? 1); lia).
    apply IH; [apply Z.mod_pos_bound; lia|].
    rewrite Z.mod_small by lia. lia.
Qed.

Lemma Build_fuel (check : Z -> Z -> result unit)
    (code_lengths values : list Z) :
  (forall a b : Z, is_OutOfFuel (check a b) = false) ->
  is_OutOfFuel (HuffmanTree.Build_with check code_lengths values) = false.
Proof.
  intros Hcheck. unfold HuffmanTree.Build_with.
  apply bind_fuel.
  - generalize (code_lengths, 1, HuffmanTree.Reset).
    generalize (Z.of_nat (List.length code_lengths)) as size.
    induction values as [|v values IH]; intros size st;
      cbn [HuffmanTree.Build_loop]; [reflexivity|].
    apply bind_fuel; [|intros st1; apply IH].
    unfold HuffmanTree.Build_step. destruct st as [[cl nl] tree].
    apply bind_fuel.
    + generalize (skipn (Z.to_nat (nl - 1)) cl) as rest. generalize nl.
      intros n0 rest. revert n0.
      induction rest as [|x rest IHr]; intros n0; simpl; [reflexivity|].
      destruct ((x =? 0) && (n0 <=? size)); [apply IHr|reflexivity].
    + intros nl'. apply bind_fuel; [apply Hcheck|]. intros _.
      destruct (HuffmanTree.AddNode nl' v tree) as [ok tree'].
      destruct (negb ok); reflexivity.
  - intros [[cl nl] tree]. destruct (HuffmanTree.reduce_u8 cl >? 0);
      reflexivity.
Qed.

Lemma ReadHuffmanTree_loop_fuel (fuel : nat) :
  forall (sz : Z) (ans : list Huffman.t) (r : t),
    0 <= sz < 65536 -> sz <= Z.of_nat fuel ->
    is_OutOfFuel (Parser.ReadHuffmanTree_loop fuel sz ans r) = false.
Proof.
  induction fuel as [|fuel IH]; intros sz ans r Hsz Hfuel;
    cbn [Parser.ReadHuffmanTree_loop];
    destruct (sz >? 0) eqn:E; try reflexivity.
  - apply Z.gtb_lt in E. lia.
  - destruct (sz <? 17) eqn:E17; [reflexivity|]. apply Z.ltb_ge in E17.
    apply bind_fuel; [apply ReadByte_fuel|]. intros [mask r1].
    destruct (Parser.read_many ReadByte 16 [] r1)
      as [[code_lengths r2]| | |] eqn:Ecl; try reflexivity.
    + cbn [bind].
      apply read_many_nonneg in Ecl; [|constructor].
      pose proof (fold_left_add_nonneg code_lengths 0 ltac:(lia) Ecl) as Hsum.
      destruct (fold_left Z.add code_lengths 0 >? u16 (u16 (sz - 1) - 16))
        eqn:Egt; [reflexivity|].
      rewrite Z.gtb_ltb in Egt. apply Z.ltb_ge in Egt.
      apply bind_fuel; [apply read_many_fuel; apply ReadByte_fuel|].
      intros [values r3].
      apply bind_fuel.
      { apply Build_fuel. intros a b. unfold HuffmanTree.check_length.
        destruct (b >? a); [reflexivity|]. destruct (b >? 16); reflexivity. }
      intros tree. unfold u16 in *.
      rewrite (Z.mod_small (sz - 1)) in * by lia.
      rewrite (Z.mod_small (sz - 1 - 16)) in * by lia.
      apply IH; [apply Z.mod_pos_bound; lia|].
      rewrite Z.mod_small by lia. lia.
    + pose proof (read_many_fuel ReadByte 16 [] r1 ReadByte_fuel) as Hf.
      rewrite Ecl in Hf. discriminate.
Qed.

Lemma ReadRawImage_segment_fuel (marker : MarkerType.t) (s : Parser.segments)
    (r : t) :
  is_OutOfFuel (Parser.ReadRawImage_segment marker s r) = false.
Proof.
  assert (Hcomment : forall r0 : t,
             is_OutOfFuel (Parser.ReadComment r0) = false).
  { intros r0. unfold Parser.ReadComment.
    apply bind_fuel; [apply ReadSz_fuel|]. intros [sz r1].
    apply read_many_fuel. apply ReadByte_fuel. }
  unfold Parser.ReadRawImage_segment. destruct marker; try reflexivity.
  - apply bind_fuel; [apply Hcomment|]. intros [c r1]. reflexivity.
  - apply bind_fuel; [apply Hcomment|]. intros [c r1]. reflexivity.
  - apply bind_fuel.
    + unfold Parser.ReadQuantTable.
      destruct (Parser.ReadSz r) as [[sz r1]| | |] eqn:E; try reflexivity.
      * cbn [bind]. apply ReadSz_consumes in E.
        apply ReadQuantTable_loop_fuel; lia.
      * pose proof (ReadSz_fuel r) as Hf. rewrite E in Hf. discriminate.
    + intros [tables r1]. apply bind_fuel; [|intros qts; reflexivity].
      generalize (Parser.quantum_tables s).
      induction tables as [|q tables IH]; intros qts;
        cbn [Parser.store_quantum_tables]; [reflexivity|].
      destruct (nth _ qts None); [reflexivity|apply IH].
  - destruct (Parser.metadata s); [reflexivity|].
    apply bind_fuel; [|intros [meta r1]; reflexivity].
    unfold Parser.ReadImageMeta.
    apply bind_fuel; [apply ReadSz_fuel|]. intros [sz r1].
    destruct (sz <? 6); [reflexivity|].
    apply bind_fuel; [apply ReadByte_fuel|]. intros [p r2].
    apply bind_fuel; [apply ReadWord_fuel|]. intros [hgt r3].
    apply bind_fuel; [apply ReadWord_fuel|]. intros [wid r4].
    apply bind_fuel; [apply ReadByte_fuel|]. intros [n r5].
    destruct ((hgt =? 0) || (wid =? 0)); [reflexivity|].
    destruct (negb (u16 (sz - 6) =? n * 3)); [reflexivity|].
    apply bind_fuel.
    + apply for_fuel. intros i [info r6]. unfold Parser.ReadImageMeta_channel.
      apply bind_fuel; [apply ReadByte_fuel|]. intros [id r7].
      apply bind_fuel; [apply ReadByte_fuel|]. intros [hv r8].
      apply bind_fuel; [apply ReadByte_fuel|]. intros [q r9]. reflexivity.
    + intros [info r6]. apply bind_fuel; [|intros meta; reflexivity].
      unfold ImageMetadata.make.
      destruct (negb (n =? Z.of_nat (List.length info))); reflexivity.
  - apply bind_fuel.
    + unfold Parser.ReadHuffmanTree.
      destruct (Parser.ReadSz r) as [[sz r1]| | |] eqn:E; try reflexivity.
      * cbn [bind]. apply ReadSz_consumes in E.
        apply ReadHuffmanTree_loop_fuel; lia.
      * pose proof (ReadSz_fuel r) as Hf. rewrite E in Hf. discriminate.
    + intros [trees r1]. apply bind_fuel; [|intros hts; reflexivity].
      generalize (Parser.huffman_trees s).
      induction trees as [|h trees IH]; intros hts;
        cbn [Parser.store_huffman_trees]; [reflexivity|].
      destruct (Parser.lookup_tree hts _); [reflexivity|apply IH].
  - destruct (Parser.metadata s); [|reflexivity].
    apply bind_fuel; [apply ReadImageData_fuel|]. intros [img r1].
    reflexivity.
Qed.

(** With one unit of fuel per byte of the stream the marker loop ends: every
    turn takes the two bytes of its marker. *)
Lemma ReadRawImage_loop_fuel (fuel : nat) :
  forall (s : Parser.segments) (r : t),
    (remaining r <= fuel)%nat ->
    is_OutOfFuel (Parser.ReadRawImage_loop fuel s r) = false.
Proof.
  induction fuel as [|fuel IH]; intros s r Hfuel;
    cbn [Parser.ReadRawImage_loop].
  - destruct (Parser.ReadMarkerType r) as [[marker r1]| | |] eqn:E;
      try reflexivity.
    + apply ReadMarkerType_consumes in E. lia.
    + unfold Parser.ReadMarkerType in E.
      pose proof (ReadWord_fuel r) as Hf.
      destruct (ReadWord r) as [[w r1]| | |]; try discriminate.
      cbn [bind] in E. destruct (Parser.kWordToMarkerType w); discriminate.
  - destruct (Parser.ReadMarkerType r) as [[marker r1]| | |] eqn:E;
      try reflexivity.
    + cbn [bind]. apply ReadMarkerType_consumes in E.
      destruct (MarkerType.eqb marker MarkerType.EndFile); [reflexivity|].
      destruct (Parser.ReadRawImage_segment marker s r1)
        as [[s1 r2]| | |] eqn:Eseg; try reflexivity.
      * cbn [bind]. apply ReadRawImage_segment_remaining in Eseg.
        apply IH. lia.
      * pose proof (ReadRawImage_segment_fuel marker s r1) as Hf.
        rewrite Eseg in Hf. discriminate.
    + unfold Parser.ReadMarkerType in E.
      pose proof (ReadWord_fuel r) as Hf.
      destruct (ReadWord r) as [[w r1]| | |]; try discriminate.
      cbn [bind] in E. destruct (Parser.kWordToMarkerType w); discriminate.
Qed.

Lemma ReadRawImage_fuel (r : t) :
  is_OutOfFuel (Parser.ReadRawImage r) = false.
Proof.
  unfold Parser.ReadRawImage.
  destruct (Parser.ReadMarkerType r) as [[marker r1]| | |] eqn:E;
    try reflexivity.
  - cbn [bind].
    destruct (negb (MarkerType.eqb marker MarkerType.BeginFile));
      [reflexivity|].
    apply bind_fuel; [apply ReadRawImage_loop_fuel; unfold remaining; lia|].
    intros [s r2]. destruct (Parser.image_data s); [|reflexivity].
    destruct (Parser.metadata s); reflexivity.
  - unfold Parser.ReadMarkerType in E.
    pose proof (ReadWord_fuel r) as Hf.
    destruct (ReadWord r) as [[w r1]| | |]; try discriminate.
    cbn [bind] in E. destruct (Parser.kWordToMarkerType w); discriminate.
Qed.

End Consumption.

Section FrameShape.
Import BitReader Schedule.

Lemma Ok_inj {A : Type} (a b : A) : Ok a = Ok b -> a = b.
Proof. intros H. congruence. Qed.

Lemma ReadWord_range (r r' : t) (w : Z) :
  ReadWord r = Ok (w, r') -> 0 <= w < 65536.
Proof.
  unfold ReadWord. intros H.
  destruct (ReadByte r) as [[b1 r1]| | |] eqn:E1; try discriminate.
  cbn [bind] in H.
  destruct (ReadByte r1) as [[b2 r2]| | |] eqn:E2; try discriminate.
  cbn [bind] in H. apply Ok_inj, pair_equal_spec in H.
  destruct H as [Hw _]. rewrite <- Hw.
  apply ReadByte_range in E1, E2.
  unfold kCharSz. rewrite Z.lor_0_l.
  assert (Hsh : u16 (Z.shiftl b1 8) = Z.shiftl b1 8).
  { unfold u16. rewrite Z.shiftl_mul_pow2 by lia.
    change (2 ^ 8) with 256. apply Z.mod_small. lia. }
  rewrite Hsh, lor_bytes by exact E2. lia.
Qed.

Lemma frame_channels_nonneg (n : nat) :
  forall (i : Z) (acc acc' : list ChannelMetadata.t) (r r' : t),
    for_ n i (fun _ => Parser.ReadImageMeta_channel) (acc, r) = Ok (acc', r') ->
    Forall (fun c => 0 <= ChannelMetadata.h c /\ 0 <= ChannelMetadata.v c) acc ->
    Forall (fun c => 0 <= ChannelMetadata.h c /\ 0 <= ChannelMetadata.v c) acc'.
Proof.
  induction n as [|n IH]; intros i acc acc' r r' H Hacc; cbn [for_] in H.
  - injection H as <- <-. exact Hacc.
  - destruct (Parser.ReadImageMeta_channel (acc, r)) as [[acc1 r1]| | |] eqn:E;
      try discriminate.
    cbn [bind] in H. apply IH in H; [exact H|].
    unfold Parser.ReadImageMeta_channel in E.
    destruct (ReadByte r) as [[id ra]| | |]; try discriminate.
    cbn [bind] in E.
    destruct (ReadByte ra) as [[hv rb]| | |] eqn:Ehv; try discriminate.
    cbn [bind] in E.
    destruct (ReadByte rb) as [[q rc]| | |]; try discriminate.
    cbn [bind] in E. injection E as <- <-.
    apply ReadByte_range in Ehv.
    apply Forall_app. split; [exact Hacc|].
    constructor; [|constructor]. simpl. split.
    + apply Z.shiftr_nonneg. lia.
    + apply Z.land_nonneg. left. lia.
Qed.

(** X26: every frame header that [ReadImageMeta] returns has a height and
    a width that are not zero, both below 65536, and sampling factors that
    are not negative ([frame_ok]). *)
Lemma ReadImageMeta_frame_ok (r r' : t) (meta : ImageMetadata.t) :
  Parser.ReadImageMeta r = Ok (meta, r') -> frame_ok meta.
Proof.
  unfold Parser.ReadImageMeta. intros H.
  destruct (Parser.ReadSz r) as [[sz r1]| | |]; try discriminate.
  cbn [bind] in H. destruct (sz <? 6); [discriminate|].
  destruct (ReadByte r1) as [[p r2]| | |]; try discriminate.
  cbn [bind] in H.
  destruct (ReadWord r2) as [[hgt r3]| | |] eqn:Eh; try discriminate.
  cbn [bind] in H.
  destruct (ReadWord r3) as [[wid r4]| | |] eqn:Ew; try discriminate.
  cbn [bind] in H.
  destruct (ReadByte r4) as [[n r5]| | |]; try discriminate.
  cbn [bind] in H.
  destruct ((hgt =? 0) || (wid =? 0)) eqn:Ez; [discriminate|].
  apply orb_false_iff in Ez. destruct Ez as [Ezh Ezw].
  apply Z.eqb_neq in Ezh, Ezw.
  destruct (negb (u16 (sz - 6) =? n * 3)); [discriminate|].
  destruct (for_ (Z.to_nat n) 0 (fun _ => Parser.ReadImageMeta_channel)
              ([], r5)) as [[info r6]| | |] eqn:Eloop; try discriminate.
  cbn [bind] in H. unfold ImageMetadata.make in H.
  destruct (negb (n =? Z.of_nat (List.length info))); [discriminate|].
  cbn [bind] in H. injection H as <- <-.
  apply ReadWord_range in Eh, Ew.
  apply frame_channels_nonneg in Eloop; [|constructor].
  unfold frame_ok. simpl. repeat split; try lia. exact Eloop.
Qed.

Lemma ReadImageMeta_frame_ok_witness : frame_ok Examples.gray_meta.
Proof.
  apply (ReadImageMeta_frame_ok
           (BitReader.mk [0; 11; 8; 0; 8; 0; 8; 1; 1; 0x11; 0] 0 0)
           (BitReader.mk [] 0 0)).
  reflexivity.
Defined.

End FrameShape.

Section ZigZag.

(** X24: the two versions of [GetZigZag] agree.  The walk over the
    fifteen diagonals of [baseline/decoder.cpp] and the table [kZigZagMap]
    return the same block for 64 entries, and both throw for any other
    number of them. *)
Lemma GetZigZag_baseline_table (data : list Z) :
  Parser.GetZigZag_baseline data = Parser.GetZigZag data.
Proof.
  unfold Parser.GetZigZag_baseline, Parser.GetZigZag.
  destruct (negb (Z.of_nat (List.length data) =? Parser.kBlockSz)) eqn:E;
    [reflexivity|].
  apply negb_false_iff, Z.eqb_eq in E. unfold Parser.kBlockSz in E.
  assert (Hlen : List.length data = 64%nat) by lia. clear E.
  do 64 (destruct data as [|? data]; [discriminate Hlen|]).
  destruct data; [|discriminate Hlen].
  vm_compute. reflexivity.
Qed.

End ZigZag.

Section HuffmanBounds.
Import HuffmanTree.

Lemma bind_defined {A B : Type} (m : result A) (k : A -> result B) :
  is_Undefined m = false ->
  (forall a : A, m = Ok a -> is_Undefined (k a) = false) ->
  is_Undefined (bind m k) = false.
Proof.
  intros Hm Hk. destruct m; try reflexivity; [apply Hk; reflexivity|discriminate].
Qed.

Lemma vector_update_app {A : Type} (f : A -> A) (x : A) (tail : list A) :
  forall pre : list A,
    vector_update (List.length pre) f (pre ++ x :: tail) = pre ++ f x :: tail.
Proof.
  induction pre as [|y pre IH]; simpl; [reflexivity|].
  rewrite IH. reflexivity.
Qed.

Lemma skipn_pre {A : Type} (pre rest : list A) :
  skipn (List.length pre) (pre ++ rest) = rest.
Proof.
  induction pre as [|y pre IH]; simpl; [reflexivity|exact IH].
Qed.

(** While a length with a code left lies ahead, the loop stops at the first
    one: every element it reads is an element of the vector. *)
Lemma skip_empty_lengths_stops (size : Z) :
  forall (rest pre : list Z) (now_length : Z),
    Z.of_nat (List.length pre) = now_length - 1 ->
    Z.of_nat (List.length (pre ++ rest)) = size ->
    Forall (fun x => 0 <= x) rest ->
    0 < fold_right Z.add 0 rest ->
    exists (now_length' x : Z) (pre' tail : list Z),
      skip_empty_lengths rest size now_length = Ok now_length'
      /\ pre ++ rest = pre' ++ x :: tail
      /\ Z.of_nat (List.length pre') = now_length' - 1
      /\ 0 < x
      /\ fold_right Z.add 0 (x :: tail) = fold_right Z.add 0 rest.
Proof.
  induction rest as [|x rest IH]; intros pre nl Hpre Hsize Hpos Hsum.
  - simpl in Hsum. lia.
  - apply Forall_cons_iff in Hpos as [Hx Hpos].
    cbn [skip_empty_lengths].
    destruct (x =? 0) eqn:Ex; cbn [andb].
    + apply Z.eqb_eq in Ex. subst x.
      assert (Hle : (nl <=? size) = true).
      { apply Z.leb_le. rewrite <- Hsize, length_app. simpl. lia. }
      rewrite Hle.
      destruct (IH (pre ++ [0]) (nl + 1)) as (nl' & y & pre' & tail & H).
      * rewrite length_app. simpl. lia.
      * rewrite <- app_assoc. exact Hsize.
      * exact Hpos.
      * simpl in Hsum. exact Hsum.
      * exists nl', y, pre', tail.
        rewrite <- app_assoc in H. exact H.
    + apply Z.eqb_neq in Ex.
      exists nl, x, pre, rest. repeat split; try assumption. lia.
Qed.

Lemma Build_loop_in_bounds (check : Z -> Z -> result unit) (size : Z) :
  (forall a b : Z, is_Undefined (check a b) = false) ->
  forall (values : list Z) (st : list Z * Z * t),
    announces size (List.length values) st ->
    is_Undefined (Build_loop check size values st) = false.
Proof.
  intros Hcheck.
  induction values as [|v values IH]; intros [[cl nl] tree] Hst;
    cbn [Build_loop]; [reflexivity|].
  destruct Hst as (pre & rest & -> & Hpre & Hsize & Hbytes & Hsum).
  destruct (skip_empty_lengths_stops size rest pre nl Hpre Hsize)
    as (nl' & x & pre' & tail & Hskip & Hsplit & Hpre' & Hx & Hsum').
  { apply Forall_app in Hbytes as [_ Hrest].
    eapply Forall_impl; [|exact Hrest]. simpl. intros; lia. }
  { simpl List.length in Hsum. lia. }
  unfold Build_step.
  replace (Z.to_nat (nl - 1)) with (List.length pre) by lia.
  rewrite skipn_pre, Hskip. cbn [bind].
  pose proof (Hcheck size nl') as Hc.
  destruct (check size nl') as [[]| | |]; try reflexivity; try discriminate Hc.
  cbn [bind].
  destruct (AddNode nl' v tree) as [ok tree'].
  destruct (negb ok); [reflexivity|]. cbn [bind].
  apply IH.
  replace (Z.to_nat (nl' - 1)) with (List.length pre') by lia.
  rewrite Hsplit in *. rewrite vector_update_app.
  apply Forall_app in Hbytes as [Hbpre Hbtail].
  apply Forall_cons_iff in Hbtail as [Hbx Hbtail].
  assert (Hu : u8 (x - 1) = x - 1) by (unfold u8; apply Z.mod_small; lia).
  exists pre', (u8 (x - 1) :: tail). repeat split.
  - exact Hpre'.
  - rewrite <- Hsize, !length_app. reflexivity.
  - apply Forall_app. split; [exact Hbpre|].
    apply Forall_cons; [rewrite Hu; lia|exact Hbtail].
  - rewrite Hu. simpl List.length in Hsum. simpl fold_right in *. lia.
Qed.

(** [Build] on lengths that announce at least as many codes as there are
    values reads inside [code_lengths_new] only.  [ReadHuffmanTree] reads
    as many values as the sixteen lengths announce, so the trees of a file
    are built this way. *)
Lemma Build_in_bounds (check : Z -> Z -> result unit)
    (code_lengths values : list Z) :
  (forall a b : Z, is_Undefined (check a b) = false) ->
  Forall (fun x => 0 <= x < 256) code_lengths ->
  Z.of_nat (List.length values) <= fold_right Z.add 0 code_lengths ->
  is_Undefined (Build_with check code_lengths values) = false.
Proof.
  intros Hcheck Hbytes Hsum. unfold Build_with.
  apply bind_defined.
  - apply Build_loop_in_bounds; [exact Hcheck|].
    exists [], code_lengths. repeat split; try assumption.
  - intros [[cl nl] tree] _.
    destruct (reduce_u8 cl >? 0); reflexivity.
Qed.

(** X25: with no more values than the histogram announces codes, [Build]
    reads [code_lengths_new] inside its bounds only; both versions. *)
Lemma Build_versions_in_bounds (code_lengths values : list Z) :
  Forall (fun x => 0 <= x < 256) code_lengths ->
  Z.of_nat (List.length values) <= fold_right Z.add 0 code_lengths ->
  is_Undefined (Build code_lengths values) = false
  /\ is_Undefined (Build_baseline code_lengths values) = false.
Proof.
  intros Hbytes Hsum.
  split; apply Build_in_bounds; try assumption; intros a b.
  - unfold check_length.
    destruct (b >? a); [reflexivity|]. destruct (b >? 16); reflexivity.
  - unfold check_length_baseline. destruct (b >? Z.min 16 a); reflexivity.
Qed.

Lemma Build_versions_in_bounds_witness :
  is_Undefined (Build (1 :: repeat 0 15) [5]) = false
  /\ is_Undefined (Build_baseline (1 :: repeat 0 15) [5]) = false.
Proof.
  apply Build_versions_in_bounds; [repeat constructor; lia|simpl; lia].
Defined.

End HuffmanBounds.

Section DecodeTotality.
Import Decoder.

Lemma map_result_fuel {A B : Type} (f : A -> result B) (l : list A) :
  (forall x : A, is_OutOfFuel (f x) = false) ->
  is_OutOfFuel (map_result f l) = false.
Proof.
  intros Hf. induction l as [|x l IH]; cbn [map_result]; [reflexivity|].
  apply bind_fuel; [apply Hf|]. intros y.
  apply bind_fuel; [exact IH|]. reflexivity.
Qed.

Lemma vector_at_fuel {A : Type} (v : list A) (i : Z) :
  is_OutOfFuel (vector_at v i) = false.
Proof.
  unfold vector_at. destruct (nth_error v (Z.to_nat i)); [|reflexivity].
  destruct (i <? 0); reflexivity.
Qed.

Lemma GetMetaByChannelId_fuel (meta : ImageMetadata.t) (channel_id : Z) :
  is_OutOfFuel (ImageMetadata.GetMetaByChannelId meta channel_id) = false.
Proof.
  unfold ImageMetadata.GetMetaByChannelId.
  induction (ImageMetadata.channels meta) as [|c l IH]; simpl;
    [reflexivity|].
  destruct (ChannelMetadata.channel_id c =? channel_id);
    [reflexivity|exact IH].
Qed.

Lemma on_blocks_fuel (f : list Z -> result (list Z)) (image_data : ImageData.t) :
  (forall block : list Z, is_OutOfFuel (f block) = false) ->
  is_OutOfFuel (on_blocks f image_data) = false.
Proof.
  intros Hf. unfold on_blocks. apply bind_fuel; [|reflexivity].
  apply for_fuel. intros i matrix.
  apply bind_fuel; [apply vector_at_fuel|]. intros blocks.
  apply bind_fuel; [apply map_result_fuel; exact Hf|]. reflexivity.
Qed.

Lemma Quantization_fuel (raw_image : RawImage.t) (image_data : ImageData.t) :
  is_OutOfFuel (Quantization raw_image image_data) = false.
Proof.
  unfold Quantization. apply bind_fuel; [|reflexivity].
  apply for_fuel. intros i matrix.
  apply bind_fuel; [apply vector_at_fuel|]. intros channel_id.
  apply bind_fuel; [apply GetMetaByChannelId_fuel|]. intros channel_meta.
  destruct (nth _ _ None); [|reflexivity].
  apply bind_fuel; [apply vector_at_fuel|]. intros channels_matrix.
  apply bind_fuel; [|reflexivity].
  apply map_result_fuel. intros block. unfold Mult.
  destruct (negb _); reflexivity.
Qed.

Lemma IDCT_fuel (image_data : ImageData.t) :
  is_OutOfFuel (IDCT image_data) = false.
Proof.
  apply on_blocks_fuel. intros block. unfold IDCT_block.
  apply bind_fuel.
  - unfold DctCalculator.Inverse. destruct (negb _); reflexivity.
  - intros output. apply map_result_fuel. intros x. unfold round_to_int16.
    destruct (DctCalculator.round x) as [z|]; [|reflexivity].
    destruct (_ && _); reflexivity.
Qed.

Lemma GetAns_fuel (image_data : ImageData.t) (meta : ImageMetadata.t)
    (ans : Image.t) :
  is_OutOfFuel (GetAns image_data meta ans) = false.
Proof.
  unfold GetAns. apply bind_fuel.
  - unfold GetAns_scaling. apply for_fuel.
    intros c [[[h_max v_max] channel_metadata] scaling].
    apply bind_fuel; [apply vector_at_fuel|]. intros mc.
    apply bind_fuel; [apply vector_at_fuel|]. intros channel_id.
    apply bind_fuel; [apply GetMetaByChannelId_fuel|]. intros cm.
    destruct (_ || _); reflexivity.
  - intros [[[h_max v_max] channel_metadata] scaling].
    apply bind_fuel; [|intros [[? ?] ?]; reflexivity].
    apply for_fuel. intros mcu_y. apply for_fuel.
    intros mcu_x [[buffer now_block] ans0].
    apply bind_fuel.
    + unfold GetAns_channels. apply for_fuel. intros c st.
      apply bind_fuel; [apply vector_at_fuel|]. intros channel_meta.
      apply bind_fuel; [apply vector_at_fuel|]. intros [v_scale h_scale].
      apply for_fuel. intros block_v. apply for_fuel.
      intros block_h [buffer0 now_block0].
      apply bind_fuel; [apply vector_at_fuel|]. intros blocks.
      apply bind_fuel; [apply vector_at_fuel|]. intros n.
      apply bind_fuel; [apply vector_at_fuel|]. intros block.
      apply bind_fuel; [apply vector_at_fuel|]. intros buf.
      apply bind_fuel; [|reflexivity].
      unfold GetAns_block. apply for_fuel. intros local_y.
      apply for_fuel. intros local_x buf0.
      apply bind_fuel; [apply vector_at_fuel|]. intros value.
      apply for_fuel. intros delta_y. apply for_fuel. intros delta_x buf1.
      unfold vector_write. destruct (_ && _); reflexivity.
    + intros [buffer1 now_block1].
      apply bind_fuel; [|reflexivity].
      unfold GetAns_pixels. apply for_fuel. intros delta_y.
      apply for_fuel. intros delta_x ans1.
      apply bind_fuel.
      * apply map_result_fuel. intros buf. apply vector_at_fuel.
      * intros channels_values. destruct (_ && _); [|reflexivity].
        apply bind_fuel; [|reflexivity].
        unfold YCbCrToRGB. destruct channels_values; reflexivity.
Qed.

(** [Decode] returns, throws or leaves the defined behaviour of C++ on
    every input: the bounds given to the loops of the model are never what
    stops it. *)
Lemma Decode_fuel (input : list Z) : is_OutOfFuel (Decode input) = false.
Proof.
  unfold Decode. apply bind_fuel; [apply ReadRawImage_fuel|].
  intros [raw_image r].
  apply bind_fuel; [apply Quantization_fuel|]. intros d1.
  apply bind_fuel; [apply IDCT_fuel|]. intros d2.
  apply bind_fuel; [|intros d3; apply GetAns_fuel].
  apply on_blocks_fuel. reflexivity.
Qed.

End DecodeTotality.

Section BitComposition.
Import BitReader.

Lemma ReadBits_loop_plus (a b : nat) :
  forall (res : Z) (r : t),
    ReadBits_loop (a + b) res r
    = '(v, r1) <- ReadBits_loop a res r ;; ReadBits_loop b v r1.
Proof.
  induction a as [|a IH]; intros res r; [reflexivity|].
  cbn [Nat.add ReadBits_loop].
  destruct (refill r) as [r1| | |]; try reflexivity.
  cbn [bind]. apply IH.
Qed.

Lemma lor_bit (x bit : Z) :
  0 <= bit <= 1 -> Z.lor (Z.shiftl x 1) bit = 2 * x + bit.
Proof.
  intros Hb.
  pose proof (Z.add_lor_land (Z.shiftl x 1) bit) as H.
  assert (Hl : Z.land (Z.shiftl x 1) bit = 0).
  { apply Z.bits_inj'. intros n Hn. rewrite Z.land_spec, Z.bits_0.
    destruct (Z.lt_ge_cases n 1) as [Hlt|Hge].
    - rewrite Z.shiftl_spec_low by exact Hlt. reflexivity.
    - replace bit with (bit mod 2 ^ 1) by (apply Z.mod_small; change (2 ^ 1) with 2; lia).
      rewrite Z.mod_pow2_bits_high by lia. apply andb_false_r. }
  rewrite Hl, Z.shiftl_mul_pow2 in H by lia.
  rewrite Z.shiftl_mul_pow2 by lia. change (2 ^ 1) with 2 in *. lia.
Qed.

Lemma top_bit_range (buf : Z) : 0 <= Z.land (Z.shiftr buf (kCharSz - 1)) 1 <= 1.
Proof.
  change 1 with (Z.ones 1) at 2 4. rewrite Z.land_ones by lia.
  change (2 ^ 1) with 2. change (Z.ones 1) with 1.
  pose proof (Z.mod_pos_bound (Z.shiftr buf (kCharSz - 1)) 2). lia.
Qed.

(** One turn of the loop of [ReadBits] on a result that still fits. *)
Lemma ReadBits_step_value (res buf : Z) :
  0 <= res < 32768 ->
  Z.lor (u16 (Z.shiftl res 1)) (Z.land (Z.shiftr buf (kCharSz - 1)) 1)
  = 2 * res + Z.land (Z.shiftr buf (kCharSz - 1)) 1.
Proof.
  intros Hres.
  assert (Hu : u16 (Z.shiftl res 1) = Z.shiftl res 1).
  { unfold u16. rewrite Z.shiftl_mul_pow2 by lia. apply Z.mod_small.
    change (2 ^ 1) with 2. lia. }
  rewrite Hu. apply lor_bit, top_bit_range.
Qed.

Lemma pow2_le_15 (k : Z) : 0 <= k <= 15 -> 2 ^ k <= 32768.
Proof.
  intros H. change 32768 with (2 ^ 15). apply Z.pow_le_mono_r; lia.
Qed.

Lemma ReadBits_loop_shift (b : nat) :
  forall (k res : Z) (r : t),
    0 <= k -> 0 <= res < 2 ^ k -> k + Z.of_nat b <= 16 ->
    ReadBits_loop b res r
    = '(v, r') <- ReadBits_loop b 0 r ;; Ok (res * 2 ^ Z.of_nat b + v, r').
Proof.
  induction b as [|b IH]; intros k res r Hk Hres Hfit.
  - cbn [ReadBits_loop bind]. f_equal. f_equal. simpl. lia.
  - cbn [ReadBits_loop].
    destruct (refill r) as [r1| | |]; try reflexivity. cbn [bind].
    pose proof (top_bit_range (buffer_ r1)) as Hbit.
    pose proof (pow2_le_15 k ltac:(lia)) as Hk15.
    rewrite (ReadBits_step_value res) by lia.
    rewrite (ReadBits_step_value 0) by lia.
    set (bit := Z.land (Z.shiftr (buffer_ r1) (kCharSz - 1)) 1) in *.
    set (r2 := mk (in_ r1) (u8 (Z.shiftl (buffer_ r1) 1)) (buffer_size_ r1 - 1)).
    assert (H1 : 0 <= 2 * res + bit < 2 ^ (k + 1)).
    { rewrite Z.pow_add_r by lia. change (2 ^ 1) with 2. lia. }
    assert (H2 : 0 <= 2 * 0 + bit < 2 ^ 1) by (change (2 ^ 1) with 2; lia).
    rewrite (IH (k + 1) (2 * res + bit) r2) by lia.
    rewrite (IH 1 (2 * 0 + bit) r2) by lia.
    destruct (ReadBits_loop b 0 r2) as [[v r']| | |]; try reflexivity.
    cbn [bind]. f_equal. f_equal.
    rewrite Nat2Z.inj_succ, Z.pow_succ_r by lia. ring.
Qed.

Lemma ReadBits_loop_range (n : nat) :
  forall (k res v : Z) (r r' : t),
    0 <= k -> 0 <= res < 2 ^ k -> k + Z.of_nat n <= 16 ->
    ReadBits_loop n res r = Ok (v, r') ->
    0 <= v < 2 ^ (k + Z.of_nat n).
Proof.
  induction n as [|n IH]; intros k res v r r' Hk Hres Hfit H.
  - cbn [ReadBits_loop] in H. apply Ok_inj, pair_equal_spec in H.
    destruct H as [<- _]. rewrite Z.add_0_r. exact Hres.
  - cbn [ReadBits_loop] in H.
    destruct (refill r) as [r1| | |]; try discriminate H. cbn [bind] in H.
    pose proof (top_bit_range (buffer_ r1)) as Hbit.
    pose proof (pow2_le_15 k ltac:(lia)) as Hk15.
    rewrite (ReadBits_step_value res) in H by lia.
    assert (H1 : 0 <= 2 * res + Z.land (Z.shiftr (buffer_ r1) (kCharSz - 1)) 1
                 < 2 ^ (k + 1)).
    { rewrite Z.pow_add_r by lia. change (2 ^ 1) with 2. lia. }
    apply (IH (k + 1)) in H; [|lia|exact H1|lia].
    replace (k + Z.of_nat (S n)) with (k + 1 + Z.of_nat n) by lia. exact H.
Qed.

(** X1: reading [a + b] bits at once is reading [a] bits and then [b] bits:
    the first value is the high part of the result, the second the low
    part, as long as the total is within the sixteen bits [ReadBits]
    accepts. *)
Theorem ReadBits_split (a b : Z) (r : t) :
  0 <= a -> 0 <= b -> a + b <= 16 ->
  ReadBits (a + b) r
  = '(va, r1) <- ReadBits a r ;;
    '(vb, r2) <- ReadBits b r1 ;;
    Ok (va * 2 ^ b + vb, r2).
Proof.
  intros Ha Hb Hab. unfold ReadBits, kCharSz.
  destruct (a + b >? 8 * 2) eqn:E1; [apply Z.gtb_lt in E1; lia|].
  destruct (a >? 8 * 2) eqn:E2; [apply Z.gtb_lt in E2; lia|].
  destruct (b >? 8 * 2) eqn:E3; [apply Z.gtb_lt in E3; lia|].
  rewrite Z2Nat.inj_add, ReadBits_loop_plus by lia.
  destruct (ReadBits_loop (Z.to_nat a) 0 r) as [[va r1]| | |] eqn:Ea;
    try reflexivity.
  cbn [bind].
  assert (Hva : 0 <= va < 2 ^ (0 + Z.of_nat (Z.to_nat a))).
  { apply (ReadBits_loop_range _ 0 0 va r r1);
      [lia|change (2 ^ 0) with 1; lia|lia|exact Ea]. }
  rewrite Z2Nat.id, Z.add_0_l in Hva by lia.
  rewrite (ReadBits_loop_shift _ a va r1) by lia.
  rewrite Z2Nat.id by lia. reflexivity.
Qed.

Lemma ReadBits_split_witness :
  ReadBits (3 + 5) (init [0xA5])
  = '(va, r1) <- ReadBits 3 (init [0xA5]) ;;
    '(vb, r2) <- ReadBits 5 r1 ;;
    Ok (va * 2 ^ 5 + vb, r2).
Proof. apply ReadBits_split; lia. Defined.

(** X2: a value returned by [ReadBits] for [n] bits is an [n]-bit number. *)
Theorem ReadBits_range (n v : Z) (r r' : t) :
  0 <= n <= 16 ->
  ReadBits n r = Ok (v, r') ->
  0 <= v < 2 ^ n.
Proof.
  intros Hn H. unfold ReadBits, kCharSz in H.
  destruct (n >? 8 * 2); [discriminate H|].
  apply (ReadBits_loop_range _ 0) in H; [|lia|change (2 ^ 0) with 1; lia|lia].
  rewrite Z2Nat.id, Z.add_0_l in H by lia. exact H.
Qed.

Lemma ReadBits_range_witness : 0 <= 5 < 2 ^ 3.
Proof.
  apply (ReadBits_range 3 5 (init [0xA5]) (mk [] 0x28 5)); [lia|reflexivity].
Defined.

End BitComposition.

Section BitSigned.
Import BitReader.

Lemma testbit_top (n v : Z) :
  1 <= n -> 0 <= v < 2 ^ n ->
  Z.testbit v (n - 1) = negb (v <? 2 ^ (n - 1)).
Proof.
  intros Hn Hv.
  assert (Hp : 2 ^ n = 2 * 2 ^ (n - 1)).
  { rewrite <- Z.pow_succ_r by lia. f_equal. lia. }
  assert (Hpos : 0 < 2 ^ (n - 1)) by (apply Z.pow_pos_nonneg; lia).
  pose proof (Z.testbit_spec' v (n - 1) ltac:(lia)) as Hb.
  destruct (v <? 2 ^ (n - 1)) eqn:E; simpl.
  - apply Z.ltb_lt in E. rewrite Z.div_small in Hb by lia.
    destruct (Z.testbit v (n - 1)); [discriminate Hb|reflexivity].
  - apply Z.ltb_ge in E.
    assert (Hq : v / 2 ^ (n - 1) = 1).
    { symmetry. apply (Z.div_unique v (2 ^ (n - 1)) 1 (v - 2 ^ (n - 1))); lia. }
    rewrite Hq in Hb.
    destruct (Z.testbit v (n - 1)); [reflexivity|discriminate Hb].
Qed.

(** X3: for a size [n] from 1 to 15, [ReadBitsSigned] reads [n] bits and
    returns a value of magnitude category [n]: the bits themselves when the
    first one is 1, and the bits minus [2^n - 1] when it is 0, so that
    [2^(n-1) <= |x| < 2^n]. *)
Theorem ReadBitsSigned_category (n x : Z) (r r' : t) :
  1 <= n <= 15 ->
  ReadBitsSigned n r = Ok (x, r') ->
  exists v : Z,
    ReadBits n r = Ok (v, r')
    /\ x = (if v <? 2 ^ (n - 1) then v - (2 ^ n - 1) else v)
    /\ 2 ^ (n - 1) <= Z.abs x < 2 ^ n.
Proof.
  intros Hn H. rewrite ReadBitsSigned_extension in H by lia.
  destruct (ReadBits n r) as [[v r2]| | |] eqn:E; try discriminate H.
  cbn [bind] in H. apply Ok_inj, pair_equal_spec in H. destruct H as [Hx ->].
  assert (Hv : 0 <= v < 2 ^ n).
  { unfold ReadBits in E. destruct (n >? kCharSz * 2); [discriminate E|].
    apply (ReadBits_loop_range _ 0) in E;
      [|lia|change (2 ^ 0) with 1; lia|unfold kCharSz; lia].
    rewrite Z2Nat.id, Z.add_0_l in E by lia. exact E. }
  assert (Hp : 2 ^ n = 2 * 2 ^ (n - 1)).
  { rewrite <- Z.pow_succ_r by lia. f_equal. lia. }
  assert (Hpos : 0 < 2 ^ (n - 1)) by (apply Z.pow_pos_nonneg; lia).
  assert (Hmax : 2 ^ n <= 32768).
  { change 32768 with (2 ^ 15). apply Z.pow_le_mono_r; lia. }
  unfold signed_extension in Hx. rewrite testbit_top in Hx by lia.
  exists v. split; [reflexivity|].
  destruct (v <? 2 ^ (n - 1)) eqn:Elt; simpl in Hx.
  - apply Z.ltb_lt in Elt.
    assert (Hs : s16 (v - (2 ^ n - 1)) = v - (2 ^ n - 1))
      by (apply s16_exact_iff; lia).
    rewrite Hs in Hx. subst x. split; [reflexivity|lia].
  - apply Z.ltb_ge in Elt.
    assert (Hs : s16 v = v) by (apply s16_exact_iff; lia).
    rewrite Hs in Hx. subst x. split; [reflexivity|lia].
Qed.

Lemma ReadBitsSigned_category_witness :
  exists v : Z,
    ReadBits 3 (init [0x45]) = Ok (v, mk [] 0x28 5)
    /\ -5 = (if v <? 2 ^ (3 - 1) then v - (2 ^ 3 - 1) else v)
    /\ 2 ^ (3 - 1) <= Z.abs (-5) < 2 ^ 3.
Proof.
  apply (ReadBitsSigned_category 3 (-5) (init [0x45]) (mk [] 0x28 5));
    [lia|reflexivity].
Defined.

End BitSigned.

Section BitAlignment.
Import BitReader.

Lemma refill_pending_bits (r r1 : t) :
  0 <= buffer_size_ r <= 8 ->
  refill r = Ok r1 ->
  1 <= buffer_size_ r1 <= 8
  /\ (buffer_size_ r1 - buffer_size_ r) mod 8 = 0.
Proof.
  intros Hr E. unfold refill in E.
  destruct (buffer_size_ r =? 0) eqn:E0.
  - apply Z.eqb_eq in E0. rewrite E0.
    destruct (istream_read (in_ r)) as [[tmp|] s1]; [|discriminate E].
    destruct (tmp =? 255).
    + destruct (istream_read s1) as [[next_char|] s2]; [|discriminate E].
      destruct (negb (next_char =? 0)); [discriminate E|].
      apply Ok_inj in E. subst r1. simpl. unfold kCharSz.
      split; [lia|reflexivity].
    + apply Ok_inj in E. subst r1. simpl. unfold kCharSz.
      split; [lia|reflexivity].
  - apply Z.eqb_neq in E0. apply Ok_inj in E. subst r1.
    rewrite Z.sub_diag. split; [lia|reflexivity].
Qed.

(** The number of bits left in [buffer_] after [n] turns of the loop. *)
Lemma ReadBits_loop_pending (n : nat) :
  forall (res v : Z) (r r' : t),
    0 <= buffer_size_ r <= 8 ->
    ReadBits_loop n res r = Ok (v, r') ->
    0 <= buffer_size_ r' <= 8
    /\ (buffer_size_ r' - buffer_size_ r + Z.of_nat n) mod 8 = 0
    /\ (buffer_size_ r' < 8 \/ buffer_size_ r' = buffer_size_ r).
Proof.
  induction n as [|n IH]; intros res v r r' Hr H.
  - cbn [ReadBits_loop] in H. apply Ok_inj, pair_equal_spec in H.
    destruct H as [_ <-]. rewrite Z.sub_diag. repeat split; lia.
  - cbn [ReadBits_loop] in H.
    destruct (refill r) as [r1| | |] eqn:E; try discriminate H.
    cbn [bind] in H.
    apply refill_pending_bits in E; [|exact Hr]. destruct E as [Hb Hm].
    apply IH in H; [|simpl; lia]. simpl buffer_size_ in H.
    destruct H as (Hr' & Hmod & Hlt). split; [exact Hr'|]. split.
    + replace (buffer_size_ r' - buffer_size_ r + Z.of_nat (S n))
        with ((buffer_size_ r' - (buffer_size_ r1 - 1) + Z.of_nat n)
              + (buffer_size_ r1 - buffer_size_ r)) by lia.
      rewrite Z.add_mod, Hmod, Hm by lia. reflexivity.
    + left. lia.
Qed.

(** X4: after [ReadBits] has read [n] bits from a reader that was
    byte-aligned, [ReadByte] throws "Bits not aligned" exactly when [n] is
    not a multiple of 8; [Align] drops the bits that are left without
    moving the stream, and [ReadByte] no longer throws it. *)
Theorem ReadByte_after_ReadBits (n v : Z) (r r' : t) :
  buffer_size_ r = 0 -> 0 <= n <= 16 ->
  ReadBits n r = Ok (v, r') ->
  (ReadByte r' = Throw "Bits not aligned" <-> n mod 8 <> 0)
  /\ in_ (Align r') = in_ r'
  /\ ReadByte (Align r') <> Throw "Bits not aligned".
Proof.
  intros Hr Hn H. unfold ReadBits in H.
  destruct (n >? kCharSz * 2); [discriminate H|].
  apply ReadBits_loop_pending in H; [|lia].
  rewrite Hr, Z.sub_0_r, Z2Nat.id in H by lia.
  destruct H as (Hb & Hm & Hlt).
  split; [|split; [reflexivity|]].
  - unfold ReadByte.
    destruct (buffer_size_ r' =? 0) eqn:E; simpl.
    + apply Z.eqb_eq in E. rewrite E, Z.add_0_l in Hm. split; [|lia].
      destruct (istream_read (in_ r')) as [[d|] s1]; discriminate.
    + split; [|reflexivity]. intros _ H0.
      apply Z.eqb_neq in E.
      rewrite Z.add_mod, H0, Z.add_0_r, Z.mod_mod in Hm by lia.
      rewrite Z.mod_small in Hm by lia. lia.
  - unfold ReadByte, Align. simpl.
    destruct (istream_read (in_ r')) as [[d|] s1]; discriminate.
Qed.

Lemma ReadByte_after_ReadBits_witness :
  (ReadByte (mk [7] 0x28 5) = Throw "Bits not aligned" <-> 3 mod 8 <> 0)
  /\ in_ (Align (mk [7] 0x28 5)) = in_ (mk [7] 0x28 5)
  /\ ReadByte (Align (mk [7] 0x28 5)) <> Throw "Bits not aligned".
Proof.
  apply (ReadByte_after_ReadBits 3 5 (init [0xA5; 7]) (mk [7] 0x28 5));
    [reflexivity|lia|reflexivity].
Defined.

(** X5: a marker in the entropy-coded data stops the bit source.  With
    [k] bits left in the buffer and the bytes [FF x], [x] not zero, next in
    the stream, a read of more than [k] bits throws; so does one that
    finds [FF] as the last byte of the stream. *)
Theorem ReadBits_stops_at_marker (n k x buf : Z) (rest : list Z) :
  0 <= k < n -> n <= 16 -> x <> 0 ->
  ReadBits n (mk (255 :: x :: rest) buf k)
  = Throw "Encountered marker instead of 0xFF"
  /\ ReadBits n (mk [255] buf k) = Throw "Encountered marker instead of 0xFF".
Proof.
  intros Hk Hn Hx. unfold ReadBits, kCharSz.
  destruct (n >? 8 * 2) eqn:E; [apply Z.gtb_lt in E; lia|].
  destruct (split_count n k Hk) as [m Hm]. rewrite Hm.
  replace k with (Z.of_nat (Z.to_nat k)) at 2 4 by lia.
  split; [apply ReadBits_loop_marker; exact Hx|apply ReadBits_loop_marker_eof].
Qed.

Lemma ReadBits_stops_at_marker_witness :
  ReadBits 3 (mk (255 :: 0xD9 :: []) 0x80 1)
  = Throw "Encountered marker instead of 0xFF"
  /\ ReadBits 3 (mk [255] 0x80 1) = Throw "Encountered marker instead of 0xFF".
Proof. apply ReadBits_stops_at_marker; lia. Defined.

End BitAlignment.

Section HuffmanCodes.
Import HuffmanTree.

Lemma Move_along_null (code : list bool) (root : Node) (v : Z) (tree' : t)
    (rest : list bool) :
  Move_along code (mk root None) <> Ok (Some v, tree', rest).
Proof.
  destruct code as [|bit code]; cbn; discriminate.
Qed.

(** [Move_along] from a node returns a value on using up the code exactly
    when the code leads to a terminal node with that value. *)
Lemma Move_along_decodes (code : list bool) :
  forall (root st : Node) (v : Z) (tree' : t),
    Move_along code (mk root (Some st)) = Ok (Some v, tree', [])
    <-> (decodes code v st /\ tree' = mk root (Some root)).
Proof.
  induction code as [|bit code IH]; intros root st v tree'.
  - cbn. split; [discriminate|intros [[] _]].
  - cbn [Move_along decodes]. unfold Move, child. cbn [state_ root_].
    destruct (if negb bit then left st else right st) as [c|].
    + destruct (is_terminal c) eqn:Et; cbn [negb bind].
      * destruct (value c) as [w|]; cbn [bind].
        -- split.
           ++ intros H. apply Ok_inj in H.
              apply pair_equal_spec in H. destruct H as [H ->].
              apply pair_equal_spec in H. destruct H as [H <-].
              injection H as ->. repeat split.
           ++ intros [[-> H] ->]. injection H as ->. reflexivity.
        -- split; [discriminate|intros [[_ H] _]; discriminate H].
      * apply IH.
    + cbn [bind]. split.
      * intros H. exfalso. exact (Move_along_null _ _ _ _ _ H).
      * intros [[] _].
Qed.

Lemma AddNodeImpl_levels_terminal (k : nat) (v : Z) (now : Node) :
  is_terminal now = true -> AddNodeImpl_levels k v now = (false, now).
Proof.
  destruct now as [term nv l r]. simpl. intros ->.
  destruct k; reflexivity.
Qed.

(** [AddNodeImpl] leaves the flag of the node it is called on, and returns
    [true] only on a node that is not terminal. *)
Lemma AddNodeImpl_levels_flag (k : nat) (v : Z) (now now' : Node) (ok : bool) :
  AddNodeImpl_levels k v now = (ok, now') ->
  is_terminal now' = is_terminal now /\ (ok = true -> is_terminal now = false).
Proof.
  destruct now as [term nv l r]. destruct term.
  - rewrite AddNodeImpl_levels_terminal by reflexivity.
    intros H. injection H as <- <-. split; [reflexivity|discriminate].
  - destruct k as [|k]; cbn [AddNodeImpl_levels].
    + destruct l, r; intros H; injection H as <- <-; split; reflexivity.
    + destruct (AddNodeImpl_levels k v _) as [ok_l l2].
      destruct ok_l.
      * intros H; injection H as <- <-; split; reflexivity.
      * destruct (AddNodeImpl_levels k v _) as [ok_r r2].
        intros H; injection H as <- <-; split; reflexivity.
Qed.

(** A node added at depth [k + 1] is reached by a code of [k + 1] bits. *)
Lemma AddNodeImpl_levels_new (k : nat) (v : Z) :
  forall now now' : Node,
    AddNodeImpl_levels k v now = (true, now') ->
    exists code : list bool,
      List.length code = S k /\ decodes code v now'.
Proof.
  induction k as [|k IH]; intros [term nv l r] now' H;
    cbn [AddNodeImpl_levels] in H; destruct term; try discriminate H.
  - destruct l as [l|].
    + destruct r as [r|]; [discriminate H|].
      injection H as <-. exists [true]. split; [reflexivity|].
      cbn. split; reflexivity.
    + injection H as <-. exists [false]. split; [reflexivity|].
      cbn. split; reflexivity.
  - destruct (AddNodeImpl_levels k v match l with Some n => n | None => make_Node end)
      as [ok_l l2] eqn:El.
    destruct ok_l.
    + injection H as <-.
      destruct (IH _ _ El) as (code & Hlen & Hcode).
      apply AddNodeImpl_levels_flag in El. destruct El as [Hf Hnt].
      exists (false :: code). split; [simpl; congruence|].
      cbn [decodes child negb left]. rewrite Hf, Hnt by reflexivity.
      exact Hcode.
    + destruct (AddNodeImpl_levels k v match r with Some n => n | None => make_Node end)
        as [ok_r r2] eqn:Er.
      injection H as -> <-.
      destruct (IH _ _ Er) as (code & Hlen & Hcode).
      apply AddNodeImpl_levels_flag in Er. destruct Er as [Hf Hnt].
      exists (true :: code). split; [simpl; congruence|].
      cbn [decodes child negb right]. rewrite Hf, Hnt by reflexivity.
      exact Hcode.
Qed.

(** [AddNodeImpl] keeps every code the node had, also when it fails. *)
Lemma AddNodeImpl_levels_keeps (k : nat) (v : Z) :
  forall (now now' : Node) (ok : bool),
    AddNodeImpl_levels k v now = (ok, now') ->
    forall (code : list bool) (w : Z), decodes code w now -> decodes code w now'.
Proof.
  induction k as [|k IH]; intros [term nv l r] now' ok H code w Hc;
    cbn [AddNodeImpl_levels] in H; destruct term;
    try (injection H as <- <-; exact Hc).
  - destruct code as [|bit code]; [destruct Hc|].
    destruct l as [l|]; [destruct r as [r|]|]; injection H as <- <-;
      try exact Hc; destruct bit; cbn in Hc |- *; try exact Hc;
      try destruct Hc.
  - destruct code as [|bit code]; [destruct Hc|].
    destruct (AddNodeImpl_levels k v match l with Some n => n | None => make_Node end)
      as [ok_l l2] eqn:El.
    assert (Hleft : forall c, l = Some c ->
              is_terminal l2 = is_terminal c
              /\ (is_terminal c = true -> l2 = c)
              /\ (decodes code w c -> decodes code w l2)).
    { intros c ->. split; [|split].
      - apply (AddNodeImpl_levels_flag _ _ _ _ _ El).
      - intros Ht. rewrite AddNodeImpl_levels_terminal in El by exact Ht.
        injection El as _ <-. reflexivity.
      - apply (IH _ _ _ El). }
    destruct ok_l.
    + injection H as <- <-. destruct bit; [exact Hc|].
      cbn [decodes child negb left] in Hc |- *.
      destruct l as [c|]; [|destruct Hc].
      destruct (Hleft c eq_refl) as (Hf & Hsame & Hkeep). rewrite Hf.
      destruct (is_terminal c) eqn:Et.
      * rewrite Hsame by reflexivity. exact Hc.
      * apply Hkeep, Hc.
    + destruct (AddNodeImpl_levels k v match r with Some n => n | None => make_Node end)
        as [ok_r r2] eqn:Er.
      injection H as <- <-. destruct bit.
      * cbn [decodes child negb right] in Hc |- *.
        destruct r as [c|]; [|destruct Hc].
        pose proof (AddNodeImpl_levels_flag _ _ _ _ _ Er) as [Hf _].
        rewrite Hf. destruct (is_terminal c) eqn:Et.
        -- rewrite AddNodeImpl_levels_terminal in Er by exact Et.
           injection Er as _ <-. exact Hc.
        -- apply (IH _ _ _ Er), Hc.
      * cbn [decodes child negb left] in Hc |- *.
        destruct l as [c|]; [|destruct Hc].
        destruct (Hleft c eq_refl) as (Hf & Hsame & Hkeep). rewrite Hf.
        destruct (is_terminal c) eqn:Et.
        -- rewrite Hsame by reflexivity. exact Hc.
        -- apply Hkeep, Hc.
Qed.

End HuffmanCodes.

Section HuffmanBuild.
Import HuffmanTree.

(** Where the loop over the empty lengths stops when it returns. *)
Lemma skip_empty_lengths_Ok (size : Z) :
  forall (rest pre : list Z) (now_length now_length' : Z),
    Z.of_nat (List.length pre) = now_length - 1 ->
    Z.of_nat (List.length (pre ++ rest)) = size ->
    skip_empty_lengths rest size now_length = Ok now_length' ->
    exists (x : Z) (pre' tail : list Z),
      pre ++ rest = pre' ++ x :: tail
      /\ Z.of_nat (List.length pre') = now_length' - 1
      /\ x <> 0
      /\ now_length <= now_length'.
Proof.
  induction rest as [|x rest IH]; intros pre nl nl' Hpre Hsize H;
    [discriminate H|].
  cbn [skip_empty_lengths] in H.
  assert (Hle : (nl <=? size) = true).
  { apply Z.leb_le. rewrite <- Hsize, length_app. simpl. lia. }
  rewrite Hle, andb_true_r in H.
  destruct (x =? 0) eqn:Ex.
  - apply Z.eqb_eq in Ex. subst x.
    destruct (IH (pre ++ [0]) (nl + 1) nl') as (y & pre' & tail & H1 & H2 & H3 & H4).
    + rewrite length_app. simpl. lia.
    + rewrite <- app_assoc. exact Hsize.
    + exact H.
    + exists y, pre', tail. rewrite <- app_assoc in H1.
      repeat split; try assumption. lia.
  - apply Z.eqb_neq in Ex. apply Ok_inj in H. subst nl'.
    exists x, pre, rest. repeat split; try assumption. lia.
Qed.

(** One turn of the loop of [Build] that does not fail: a length that
    still has codes is found at or after [now_length], one code is taken
    from it, and the value is added at that depth. *)
Lemma Build_step_Ok (check : Z -> Z -> result unit) (size v : Z)
    (cl cl1 : list Z) (nl nl1 : Z) (tree tree1 : t) :
  Z.of_nat (List.length cl) = size ->
  Forall (fun x => 0 <= x < 256) cl ->
  1 <= nl <= size + 1 ->
  Build_step check size v (cl, nl, tree) = Ok (cl1, nl1, tree1) ->
  exists (x : Z) (pre tail : list Z),
    cl = pre ++ x :: tail
    /\ cl1 = pre ++ (x - 1) :: tail
    /\ Z.of_nat (List.length pre) = nl1 - 1
    /\ 0 < x < 256
    /\ nl <= nl1
    /\ check size nl1 = Ok tt
    /\ AddNode nl1 v tree = (true, tree1).
Proof.
  intros Hsize Hbytes Hnl H. unfold Build_step in H.
  destruct (skip_empty_lengths _ size nl) as [nl'| | |] eqn:Es;
    try discriminate H.
  cbn [bind] in H.
  destruct (skip_empty_lengths_Ok size (skipn (Z.to_nat (nl - 1)) cl)
              (firstn (Z.to_nat (nl - 1)) cl) nl nl')
    as (x & pre & tail & Hsplit & Hpre & Hx & Hle).
  { rewrite length_firstn. lia. }
  { rewrite firstn_skipn. exact Hsize. }
  { exact Es. }
  rewrite firstn_skipn in Hsplit.
  destruct (check size nl') as [[]| | |] eqn:Ec; try discriminate H.
  cbn [bind] in H.
  destruct (AddNode nl' v tree) as [ok tree'] eqn:Ea.
  destruct ok; [|discriminate H]. cbn [negb] in H.
  apply Ok_inj in H.
  apply pair_equal_spec in H. destruct H as [H <-].
  apply pair_equal_spec in H. destruct H as [<- <-].
  assert (Hbx : 0 <= x < 256).
  { rewrite Hsplit in Hbytes. apply Forall_app in Hbytes as [_ Hb].
    apply Forall_cons_iff in Hb as [Hb _]. exact Hb. }
  exists x, pre, tail. repeat split; try assumption; try lia.
  replace (Z.to_nat (nl' - 1)) with (List.length pre) by lia.
  rewrite Hsplit, vector_update_app. unfold u8.
  rewrite Z.mod_small by lia. reflexivity.
Qed.

Lemma sum_app (l1 l2 : list Z) :
  fold_right Z.add 0 (l1 ++ l2) = fold_right Z.add 0 l1 + fold_right Z.add 0 l2.
Proof.
  induction l1 as [|x l1 IH]; simpl; [reflexivity|]. rewrite IH. ring.
Qed.

(** What the loop of [Build] has done when it returns: every value has
    taken one code from the histogram and is in the tree, under a code no
    longer than the depth [check] lets through. *)
Lemma Build_loop_Ok (check : Z -> Z -> result unit) (size depth : Z) :
  (forall a b : Z, check a b = Ok tt -> b <= depth) ->
  0 <= depth < 256 ->
  forall (values : list Z) (cl cl' : list Z) (nl nl' : Z) (tree tree' : t),
    Z.of_nat (List.length cl) = size ->
    Forall (fun x => 0 <= x < 256) cl ->
    1 <= nl <= size + 1 ->
    Build_loop check size values (cl, nl, tree) = Ok (cl', nl', tree') ->
    fold_right Z.add 0 cl' + Z.of_nat (List.length values) = fold_right Z.add 0 cl
    /\ (values <> [] -> state_ tree' = Some (root_ tree'))
    /\ (values = [] -> tree' = tree)
    /\ (forall v : Z, In v values ->
          exists code : list bool,
            (1 <= List.length code)%nat
            /\ Z.of_nat (List.length code) <= depth
            /\ decodes code v (root_ tree'))
    /\ (forall (code : list bool) (w : Z),
          decodes code w (root_ tree) -> decodes code w (root_ tree')).
Proof.
  intros Hcheck Hdepth.
  induction values as [|v values IH]; intros cl cl' nl nl' tree tree' Hsize Hb Hnl H.
  - cbn [Build_loop] in H. apply Ok_inj in H.
    apply pair_equal_spec in H. destruct H as [H <-].
    apply pair_equal_spec in H. destruct H as [<- <-].
    repeat split; try (simpl; lia); try contradiction.
    intros code w Hc. exact Hc.
  - cbn [Build_loop] in H.
    destruct (Build_step check size v (cl, nl, tree)) as [[[cl1 nl1] tree1]| | |]
      eqn:Es; try discriminate H.
    cbn [bind] in H.
    destruct (Build_step_Ok _ _ _ _ _ _ _ _ _ Hsize Hb Hnl Es)
      as (x & pre & tail & Hcl & Hcl1 & Hpre & Hx & Hle & Hc & Ha).
    assert (Hsize1 : Z.of_nat (List.length cl1) = size).
    { rewrite Hcl1, <- Hsize, Hcl, !length_app. reflexivity. }
    assert (Hb1 : Forall (fun x => 0 <= x < 256) cl1).
    { rewrite Hcl in Hb. rewrite Hcl1.
      apply Forall_app in Hb as [Hbp Hbt].
      apply Forall_cons_iff in Hbt as [_ Hbt].
      apply Forall_app. split; [exact Hbp|].
      apply Forall_cons; [lia|exact Hbt]. }
    assert (Hnl1 : 1 <= nl1 <= size + 1).
    { rewrite <- Hsize, Hcl, length_app. simpl List.length. lia. }
    destruct (IH _ _ _ _ _ _ Hsize1 Hb1 Hnl1 H)
      as (Hsum & Hstate & Hnil & Hcodes & Hkeep).
    pose proof (Hcheck _ _ Hc) as Hd.
    unfold AddNode, AddNodeImpl in Ha.
    assert (Hu : u8 nl1 = nl1) by (apply Z.mod_small; lia).
    rewrite Hu in Ha.
    assert (Hu1 : u8 (nl1 - 1) = nl1 - 1) by (apply Z.mod_small; lia).
    rewrite Hu1 in Ha.
    destruct (AddNodeImpl_levels (Z.to_nat (nl1 - 1)) v (root_ tree))
      as [ok root1] eqn:El.
    apply pair_equal_spec in Ha. destruct Ha as [-> <-].
    cbn [root_ state_] in *.
    split; [|split; [|split; [|split]]].
    + rewrite Hcl1 in Hsum. rewrite Hcl. rewrite sum_app in *.
      simpl fold_right in *. cbn [List.length]. rewrite Nat2Z.inj_succ. lia.
    + intros _. destruct values as [|v' values].
      * rewrite (Hnil eq_refl). reflexivity.
      * apply Hstate. discriminate.
    + discriminate.
    + intros w [<-|Hin].
      * destruct (AddNodeImpl_levels_new _ _ _ _ El) as (code & Hlen & Hcode).
        exists code. split; [lia|]. split; [lia|].
        apply Hkeep, Hcode.
      * apply Hcodes, Hin.
    + intros code w Hcode. apply Hkeep.
      apply (AddNodeImpl_levels_keeps _ _ _ _ _ El), Hcode.
Qed.

Lemma reduce_u8_sum (l : list Z) :
  forall acc : Z,
    fold_left (fun acc x => u8 (acc + x)) l (u8 acc)
    = u8 (acc + fold_right Z.add 0 l).
Proof.
  induction l as [|x l IH]; intros acc; simpl.
  - rewrite Z.add_0_r. reflexivity.
  - assert (Hu : u8 (u8 acc + x) = u8 (acc + x))
      by (unfold u8; apply Zplus_mod_idemp_l).
    rewrite Hu, IH. f_equal. ring.
Qed.

Lemma Build_with_Ok (check : Z -> Z -> result unit) (depth : Z)
    (code_lengths values : list Z) (tree : t) :
  (forall a b : Z, check a b = Ok tt -> b <= depth) ->
  0 <= depth < 256 ->
  Forall (fun x => 0 <= x < 256) code_lengths ->
  Build_with check code_lengths values = Ok tree ->
  (fold_right Z.add 0 code_lengths - Z.of_nat (List.length values)) mod 256 = 0
  /\ state_ tree = Some (root_ tree)
  /\ forall v : Z, In v values ->
       exists code : list bool,
         (1 <= List.length code)%nat
         /\ Z.of_nat (List.length code) <= depth
         /\ decodes code v (root_ tree).
Proof.
  intros Hcheck Hdepth Hb H. unfold Build_with in H.
  destruct (Build_loop check _ values (code_lengths, 1, Reset))
    as [[[cl' nl'] tree']| | |] eqn:El; try discriminate H.
  cbn [bind] in H.
  destruct (reduce_u8 cl' >? 0) eqn:Er; [discriminate H|].
  apply Ok_inj in H. subst tree'.
  assert (Hnl : 1 <= 1 <= Z.of_nat (List.length code_lengths) + 1) by lia.
  destruct (Build_loop_Ok check _ depth Hcheck Hdepth _ _ _ _ _ _ _
              eq_refl Hb Hnl El)
    as (Hsum & Hstate & Hnil & Hcodes & _).
  split; [|split].
  - unfold reduce_u8 in Er. change 0 with (u8 0) in Er at 1.
    rewrite reduce_u8_sum, Z.add_0_l in Er.
    replace (fold_right Z.add 0 code_lengths - Z.of_nat (List.length values))
      with (fold_right Z.add 0 cl') by lia.
    unfold u8 in Er.
    pose proof (Z.mod_pos_bound (fold_right Z.add 0 cl') 256 ltac:(lia)).
    rewrite Z.gtb_ltb in Er. apply Z.ltb_ge in Er. lia.
  - destruct values as [|v values].
    + rewrite (Hnil eq_refl). reflexivity.
    + apply Hstate. discriminate.
  - exact Hcodes.
Qed.

Lemma check_length_depth (a b : Z) : check_length a b = Ok tt -> b <= 16.
Proof.
  unfold check_length. destruct (b >? a); [discriminate|].
  destruct (b >? 16) eqn:E; [discriminate|].
  intros _. rewrite Z.gtb_ltb in E. apply Z.ltb_ge in E. exact E.
Qed.

Lemma check_length_baseline_depth (a b : Z) :
  check_length_baseline a b = Ok tt -> b <= 16.
Proof.
  unfold check_length_baseline.
  destruct (b >? Z.min 16 a) eqn:E; [discriminate|].
  intros _. rewrite Z.gtb_ltb in E. apply Z.ltb_ge in E. lia.
Qed.

(** X6: every value given to [Build] can be decoded from the tree it
    returns: there is a code of 1 to 16 bits on which [Move], called bit
    after bit, returns the value on the last bit and leaves the tree as
    [Build] returned it.  Both versions of [Build]. *)
Theorem Build_values_decodable (code_lengths values : list Z) (tree : t) (v : Z) :
  Forall (fun x => 0 <= x < 256) code_lengths ->
  Build code_lengths values = Ok tree
  \/ Build_baseline code_lengths values = Ok tree ->
  In v values ->
  exists code : list bool,
    (1 <= List.length code <= 16)%nat
    /\ Move_along code tree = Ok (Some v, tree, []).
Proof.
  intros Hb H Hin.
  assert (Hok : state_ tree = Some (root_ tree)
                /\ forall v : Z, In v values ->
                     exists code : list bool,
                       (1 <= List.length code)%nat
                       /\ Z.of_nat (List.length code) <= 16
                       /\ decodes code v (root_ tree)).
  { destruct H as [H|H].
    - apply (Build_with_Ok check_length 16) in H;
        [tauto|exact check_length_depth|lia|exact Hb].
    - apply (Build_with_Ok check_length_baseline 16) in H;
        [tauto|exact check_length_baseline_depth|lia|exact Hb]. }
  destruct Hok as [Hstate Hcodes].
  destruct (Hcodes v Hin) as (code & H1 & H2 & Hcode).
  exists code. split; [lia|].
  destruct tree as [root st]. cbn [state_ root_] in *. subst st.
  apply Move_along_decodes. split; [exact Hcode|reflexivity].
Qed.

Lemma Build_values_decodable_witness :
  exists code : list bool,
    (1 <= List.length code <= 16)%nat
    /\ Move_along code Examples.two_codes = Ok (Some 9, Examples.two_codes, []).
Proof.
  apply (Build_values_decodable (0 :: 2 :: repeat 0 14) [7; 9]).
  - repeat constructor; lia.
  - left. reflexivity.
  - right. left. reflexivity.
Defined.

(** X7: when [Build] returns, the number of values and the number of codes
    the histogram announces agree modulo 256 (the sum that is left is
    taken in [uint8_t]); both versions. *)
Theorem Build_counts_agree (code_lengths values : list Z) (tree : t) :
  Forall (fun x => 0 <= x < 256) code_lengths ->
  Build code_lengths values = Ok tree
  \/ Build_baseline code_lengths values = Ok tree ->
  (fold_right Z.add 0 code_lengths - Z.of_nat (List.length values)) mod 256 = 0.
Proof.
  intros Hb [H|H].
  - apply (Build_with_Ok check_length 16) in H;
      [tauto|exact check_length_depth|lia|exact Hb].
  - apply (Build_with_Ok check_length_baseline 16) in H;
      [tauto|exact check_length_baseline_depth|lia|exact Hb].
Qed.

Lemma Build_counts_agree_witness :
  (fold_right Z.add 0 (0 :: 255 :: 1 :: repeat 0 13) - Z.of_nat (@List.length Z [])) mod 256 = 0.
Proof.
  apply (Build_counts_agree (0 :: 255 :: 1 :: repeat 0 13) [] Reset).
  - repeat constructor; lia.
  - left. reflexivity.
Defined.

End HuffmanBuild.

Section HuffmanReading.
Import BitReader HuffmanTree.

Lemma ReadFromHuffmanTree_walk_decodes (v : Z) (code : list bool) :
  forall (st : Node) (r r' : BitReader.t),
    decodes code v st ->
    read_all ReadBits (map (fun _ => 1) code) r
    = Ok (map (fun b : bool => if b then 1 else 0) code, r') ->
    Parser.ReadFromHuffmanTree_walk st r = Ok (v, r').
Proof.
  induction code as [|bit code IH]; intros st r r' Hc Hr; [destruct Hc|].
  cbn [map read_all] in Hr.
  destruct (ReadBits 1 r) as [[b r1]| | |] eqn:Eb; try discriminate Hr.
  cbn [bind] in Hr.
  destruct (read_all ReadBits (map (fun _ => 1) code) r1) as [[vs r2]| | |]
    eqn:Ea; try discriminate Hr.
  cbn [bind] in Hr. apply Ok_inj, pair_equal_spec in Hr.
  destruct Hr as [Hbits ->]. injection Hbits as -> ->.
  destruct st as [term nv l rt].
  cbn [Parser.ReadFromHuffmanTree_walk]. rewrite Eb. cbn [bind].
  cbn [decodes] in Hc. unfold child in Hc. cbn [left right] in Hc.
  assert (Hsel : (if (if bit then 1 else 0) =? 0 then l else rt)
                 = (if negb bit then l else rt)) by (destruct bit; reflexivity).
  rewrite Hsel. destruct (if negb bit then l else rt) as [c|]; [|destruct Hc].
  destruct (is_terminal c); cbn [negb].
  - destruct Hc as [-> Hv]. rewrite Hv. cbn in Ea.
    apply Ok_inj, pair_equal_spec in Ea. destruct Ea as [_ ->]. reflexivity.
  - apply IH; assumption.
Qed.

(** X8: when the next bits of the bit source are a code of the tree, that
    is, when [Move] called on them one after the other returns a value on
    the last one, [ReadFromHuffmanTree] returns that value (as a
    [uint8_t]) and has read those bits and no more. *)
Theorem ReadFromHuffmanTree_reads_code (code : list bool) (tree tree' : t)
    (v : Z) (r r' : BitReader.t) :
  Move_along code tree = Ok (Some v, tree', []) ->
  read_all ReadBits (map (fun _ => 1) code) r
  = Ok (map (fun b : bool => if b then 1 else 0) code, r') ->
  Parser.ReadFromHuffmanTree tree r = Ok (u8 v, r').
Proof.
  intros Hm Hr. destruct tree as [root [st|]].
  - apply Move_along_decodes in Hm. destruct Hm as [Hc _].
    unfold Parser.ReadFromHuffmanTree. cbn [state_].
    rewrite (ReadFromHuffmanTree_walk_decodes v code st r r' Hc Hr).
    reflexivity.
  - exfalso. exact (Move_along_null _ _ _ _ _ Hm).
Qed.

Lemma ReadFromHuffmanTree_reads_code_witness :
  Parser.ReadFromHuffmanTree Examples.two_codes (init [0x40])
  = Ok (u8 9, BitReader.mk [] 0 6).
Proof.
  apply (ReadFromHuffmanTree_reads_code [false; true] Examples.two_codes
           Examples.two_codes); reflexivity.
Defined.

End HuffmanReading.

Section HuffmanSegment.
Import BitReader HuffmanTree.










End HuffmanSegment.

Section ZigZagOrder.

Lemma map_nth_seq {A : Type} (d : A) (data : list A) :
  forall pre : list A,
    map (fun i => nth i (pre ++ data) d) (seq (List.length pre) (List.length data))
    = data.
Proof.
  induction data as [|x data IH]; intros pre; [reflexivity|].
  cbn [List.length seq map]. f_equal.
  - rewrite app_nth2 by lia. rewrite Nat.sub_diag. reflexivity.
  - specialize (IH (pre ++ [x])). rewrite <- app_assoc, length_app in IH.
    cbn [List.length app] in IH. rewrite Nat.add_1_r in IH. exact IH.
Qed.

Lemma kZigZagMap_permutation :
  Permutation (seq 0 64) (map Z.to_nat Parser.kZigZagMap).
Proof.
  apply Permutation_sym, NoDup_Permutation_bis.
  - cbv [Parser.kZigZagMap map]. 
    repeat (apply NoDup_cons; [cbn; lia|]). apply NoDup_nil.
  - reflexivity.
  - intros x Hin. apply in_seq.
    cbv [Parser.kZigZagMap map] in Hin. cbn in Hin. lia.
Qed.

(** X10: [GetZigZag] only reorders a block: its result is a permutation of
    the 64 entries it is given, so no coefficient is lost or repeated. *)
Theorem GetZigZag_permutation (data out : list Z) :
  Parser.GetZigZag data = Ok out -> Permutation data out.
Proof.
  unfold Parser.GetZigZag. intros H.
  destruct (negb (Z.of_nat (List.length data) =? Parser.kBlockSz)) eqn:E;
    [discriminate H|].
  apply negb_false_iff, Z.eqb_eq in E. unfold Parser.kBlockSz in E.
  apply Ok_inj in H. subst out.
  rewrite <- (map_map Z.to_nat (fun i => nth i data 0)).
  rewrite <- (map_nth_seq 0 data []) at 1. cbn [app List.length].
  replace (List.length data) with 64%nat by lia.
  apply Permutation_map, kZigZagMap_permutation.
Qed.

Lemma GetZigZag_permutation_witness :
  Permutation ([1; 0; 2] ++ repeat 0 61)
    ([1] ++ repeat 0 7 ++ [2] ++ repeat 0 55).
Proof.
  apply GetZigZag_permutation. reflexivity.
Defined.

End ZigZagOrder.

Section TreeTable.
Import Layout.

Lemma GetPairHash_value (a : Z) (b : bool) :
  is_byte a -> Parser.GetPairHash a b = 2 * a + (if b then 1 else 0).
Proof.
  intros Ha. unfold Parser.GetPairHash, is_byte in *.
  assert (Hu : u16 a = a) by (apply Z.mod_small; lia).
  rewrite Hu, lor_bit by (destruct b; lia).
  apply Z.mod_small. destruct b; lia.
Qed.

(** X11: [GetPairHash] numbers the pairs of a byte and a flag from 0 to
    511 without collision, so the 512-slot array of trees has one slot for
    each pair, as the map keyed by pairs of the other version has. *)
Theorem GetPairHash_injective (a a' : Z) (b b' : bool) :
  is_byte a -> is_byte a' ->
  0 <= Parser.GetPairHash a b < 512
  /\ (Parser.GetPairHash a b = Parser.GetPairHash a' b' <-> a = a' /\ b = b').
Proof.
  intros Ha Ha'. rewrite !GetPairHash_value by assumption.
  unfold is_byte in *. split; [destruct b; lia|]. split.
  - intros H. destruct b, b'; split; try reflexivity; lia.
  - intros [-> ->]. reflexivity.
Qed.

Lemma GetPairHash_injective_witness :
  0 <= Parser.GetPairHash 3 true < 512
  /\ (Parser.GetPairHash 3 true = Parser.GetPairHash 3 false
      <-> 3 = 3 /\ true = false).
Proof. apply GetPairHash_injective; unfold is_byte; lia. Defined.

Lemma vector_set_same {A : Type} (x d : A) (v : list A) (i : Z) :
  0 <= i < Z.of_nat (List.length v) ->
  nth (Z.to_nat i) (Parser.vector_set i x v) d = x.
Proof.
  intros Hi. unfold Parser.vector_set.
  rewrite vector_update_nth_same by lia. reflexivity.
Qed.

Lemma vector_set_other {A : Type} (x d : A) (v : list A) (i k : Z) :
  0 <= i -> 0 <= k -> i <> k ->
  nth (Z.to_nat k) (Parser.vector_set i x v) d = nth (Z.to_nat k) v d.
Proof.
  intros Hi Hk Hne. unfold Parser.vector_set.
  apply vector_update_nth_other. lia.
Qed.

Lemma vector_set_length {A : Type} (x : A) (v : list A) (i : Z) :
  List.length (Parser.vector_set i x v) = List.length v.
Proof. apply vector_update_length. Qed.

(** X12: when the trees of a DHT segment have been stored without an
    error, every one of them is found in the slot of its class and
    identifier, the slots that were filled before hold what they held, and
    the slots of the other pairs are as they were.  (A pair that is
    defined twice is an error, so no tree is ever replaced.) *)
Theorem store_huffman_trees_lookup (trees : list Huffman.t)
    (huffman_trees huffman_trees' : list (option HuffmanTree.t)) :
  List.length huffman_trees = 512%nat ->
  Forall (fun t => is_byte (Huffman.table_id t)) trees ->
  Parser.store_huffman_trees trees huffman_trees = Ok huffman_trees' ->
  (forall t : Huffman.t, In t trees ->
     Parser.lookup_tree huffman_trees'
       (Parser.GetPairHash (Huffman.table_id t) (Huffman.is_dc t))
     = Some (Huffman.tree t))
  /\ (forall (hash : Z) (x : HuffmanTree.t),
        0 <= hash ->
        Parser.lookup_tree huffman_trees hash = Some x ->
        Parser.lookup_tree huffman_trees' hash = Some x)
  /\ (forall hash : Z,
        0 <= hash ->
        (forall t : Huffman.t, In t trees ->
           Parser.GetPairHash (Huffman.table_id t) (Huffman.is_dc t) <> hash) ->
        Parser.lookup_tree huffman_trees' hash
        = Parser.lookup_tree huffman_trees hash).
Proof.
  revert huffman_trees.
  induction trees as [|t trees IH]; intros hts Hlen Hb H;
    cbn [Parser.store_huffman_trees] in H.
  - apply Ok_inj in H. subst huffman_trees'.
    split; [intros t []|]. split; [intros; assumption|reflexivity].
  - apply Forall_cons_iff in Hb as [Hbt Hb].
    set (hash := Parser.GetPairHash (Huffman.table_id t) (Huffman.is_dc t)) in *.
    assert (Hh : 0 <= hash < 512).
    { unfold hash. rewrite GetPairHash_value by exact Hbt.
      unfold is_byte in Hbt. destruct (Huffman.is_dc t); lia. }
    destruct (Parser.lookup_tree hts hash) as [old|] eqn:Eold;
      [discriminate H|].
    apply IH in H; [|rewrite vector_set_length; exact Hlen|exact Hb].
    destruct H as (Hnew & Hkeep & Hframe).
    split; [|split].
    + intros t' [<-|Hin]; [|apply Hnew, Hin].
      apply Hkeep; [lia|]. unfold Parser.lookup_tree.
      apply vector_set_same. lia.
    + intros h x Hh0 Hx. apply Hkeep; [exact Hh0|].
      unfold Parser.lookup_tree in *.
      rewrite vector_set_other; [exact Hx|lia|exact Hh0|].
      intros ->. rewrite Eold in Hx. discriminate Hx.
    + intros h Hh0 Hne. rewrite Hframe.
      * unfold Parser.lookup_tree. apply vector_set_other; [lia|exact Hh0|].
        apply (Hne t). left. reflexivity.
      * exact Hh0.
      * intros t' Hin. apply Hne. right. exact Hin.
Qed.

Lemma store_huffman_trees_lookup_witness :
  let trees := [Huffman.mk true 0 (Examples.leaf_tree 7)] in
  let stored := None :: Some (Examples.leaf_tree 7) :: repeat None 510 in
  (forall t : Huffman.t, In t trees ->
     Parser.lookup_tree stored
       (Parser.GetPairHash (Huffman.table_id t) (Huffman.is_dc t))
     = Some (Huffman.tree t))
  /\ (forall (hash : Z) (x : HuffmanTree.t),
        0 <= hash ->
        Parser.lookup_tree (repeat None 512) hash = Some x ->
        Parser.lookup_tree stored hash = Some x)
  /\ (forall hash : Z,
        0 <= hash ->
        (forall t : Huffman.t, In t trees ->
           Parser.GetPairHash (Huffman.table_id t) (Huffman.is_dc t) <> hash) ->
        Parser.lookup_tree stored hash
        = Parser.lookup_tree (repeat None 512) hash).
Proof.
  apply store_huffman_trees_lookup.
  - reflexivity.
  - repeat constructor; unfold is_byte; simpl; lia.
  - reflexivity.
Defined.

End TreeTable.

Section Segments.
Import BitReader Layout.

(** [read_many ReadByte] over the bytes that are there. *)
Lemma read_many_ReadByte (bytes : list Z) :
  forall (acc rest : list Z) (buf : Z),
    Forall is_byte bytes ->
    Parser.read_many ReadByte (List.length bytes) acc (mk (bytes ++ rest) buf 0)
    = Ok (acc ++ bytes, mk rest buf 0).
Proof.
  unfold Parser.read_many.
  enough (Hall : forall (i : Z) (acc rest : list Z) (buf : Z),
            Forall is_byte bytes ->
            for_ (List.length bytes) i
              (fun _ '(acc, r) => '(x, r) <- ReadByte r ;; Ok (acc ++ [x], r))
              (acc, mk (bytes ++ rest) buf 0)
            = Ok (acc ++ bytes, mk rest buf 0)) by (apply Hall).
  induction bytes as [|b bytes IH]; intros i acc rest buf Hb; cbn [List.length for_].
  - rewrite app_nil_r. reflexivity.
  - apply Forall_cons_iff in Hb as [Hb0 Hb].
    cbn [app]. rewrite ReadByte_cons by exact Hb0. cbn [bind].
    rewrite IH by exact Hb. rewrite <- app_assoc. reflexivity.
Qed.

(** X13: a COM (or APPn) segment is a two-byte length, which counts
    itself, and then the payload: [ReadComment] returns the payload and
    leaves the reader at the byte after it. *)
Theorem ReadComment_payload (payload rest : list Z) (buf : Z) :
  Forall is_byte payload ->
  Z.of_nat (List.length payload) + 2 < 65536 ->
  let len := Z.of_nat (List.length payload) + 2 in
  Parser.ReadComment (mk (len / 256 :: len mod 256 :: payload ++ rest) buf 0)
  = Ok (payload, mk rest buf 0).
Proof.
  intros Hb Hlen len. unfold Parser.ReadComment.
  rewrite ReadSz_cons by (unfold len; lia). cbn [bind].
  replace (Z.to_nat (len - 2)) with (List.length payload) by (unfold len; lia).
  apply (read_many_ReadByte payload []). exact Hb.
Qed.

Lemma ReadComment_payload_witness :
  let len := Z.of_nat (List.length [0x68; 0x69]) + 2 in
  Parser.ReadComment (mk (len / 256 :: len mod 256 :: [0x68; 0x69] ++ [0xFF; 0xD9]) 0 0)
  = Ok ([0x68; 0x69], mk [0xFF; 0xD9] 0 0).
Proof.
  apply ReadComment_payload; [repeat constructor; unfold is_byte; lia|simpl; lia].
Defined.

(** The bytes of 16-bit values, high byte first. *)
Lemma read_many_ReadWord (words : list Z) :
  forall (acc rest : list Z) (buf : Z),
    Forall (fun w => 0 <= w < 65536) words ->
    Parser.read_many ReadWord (List.length words) acc
      (mk (flat_map (fun w => [w / 256; w mod 256]) words ++ rest) buf 0)
    = Ok (acc ++ words, mk rest buf 0).
Proof.
  unfold Parser.read_many.
  enough (Hall : forall (i : Z) (acc rest : list Z) (buf : Z),
            Forall (fun w => 0 <= w < 65536) words ->
            for_ (List.length words) i
              (fun _ '(acc, r) => '(x, r) <- ReadWord r ;; Ok (acc ++ [x], r))
              (acc, mk (flat_map (fun w => [w / 256; w mod 256]) words ++ rest)
                      buf 0)
            = Ok (acc ++ words, mk rest buf 0)) by (apply Hall).
  induction words as [|w words IH]; intros i acc rest buf Hb;
    cbn [List.length for_ flat_map].
  - rewrite app_nil_r. reflexivity.
  - apply Forall_cons_iff in Hb as [Hb0 Hb].
    destruct (length_word w Hb0) as (H1 & H2 & H3).
    cbn [app]. rewrite ReadWord_cons by assumption. cbn [bind].
    rewrite H3, IH by exact Hb. rewrite <- app_assoc. reflexivity.
Qed.

Lemma land_low_nibble (id : Z) :
  0 <= id < 16 -> Z.land id Parser.kLowestByteMask = id.
Proof.
  intros H. change Parser.kLowestByteMask with (Z.ones 4).
  rewrite Z.land_ones by lia. apply Z.mod_small. change (2 ^ 4) with 16. lia.
Qed.

(** X14: a DQT segment that holds one table.  With precision 0 the 64
    entries are bytes, with precision 1 they are 16-bit values, high byte
    first; [ReadQuantTable] returns the table under its identifier with
    the entries taken out of zig-zag order, and leaves the reader after the
    segment. *)
Theorem ReadQuantTable_one_table (id buf : Z) (entries words rest : list Z) :
  0 <= id < 16 ->
  List.length entries = 64%nat -> Forall is_byte entries ->
  List.length words = 64%nat -> Forall (fun w => 0 <= w < 65536) words ->
  Parser.ReadQuantTable (mk (0 :: 67 :: id :: entries ++ rest) buf 0)
  = (zz <- Parser.GetZigZag entries ;;
     Ok ([QuantumTable.mk id zz], mk rest buf 0))
  /\ Parser.ReadQuantTable
       (mk (0 :: 131 :: (16 + id)
            :: flat_map (fun w => [w / 256; w mod 256]) words ++ rest) buf 0)
     = (zz <- Parser.GetZigZag words ;;
        Ok ([QuantumTable.mk id zz], mk rest buf 0)).
Proof.
  intros Hid Hlen Hb Hlenw Hbw. split; unfold Parser.ReadQuantTable.
  - rewrite (ReadSz_cons 67) by lia. cbn [bind].
    change (Z.to_nat (67 - 2)) with (S 64). change (67 - 2) with 65.
    generalize 64%nat as fuel. intros fuel.
    cbn [Parser.ReadQuantTable_loop]. change (65 >? 0) with true.
    change (65 <? 1) with false. cbv iota.
    rewrite ReadByte_cons by (unfold is_byte; lia). cbn [bind].
    assert (Hhi : Z.shiftr id 4 = 0).
    { rewrite Z.shiftr_div_pow2 by lia. apply Z.div_small.
      change (2 ^ 4) with 16. lia. }
    rewrite Hhi, land_low_nibble by exact Hid.
    change (0 =? 1) with false. change (0 =? 0) with true. cbn [negb andb].
    change (u16 (65 - 1) <? Parser.kBlockSz * 1) with false. cbv iota.
    change (1 =? 1) with true. cbv iota.
    change (Z.to_nat Parser.kBlockSz) with 64%nat. rewrite <- Hlen.
    rewrite read_many_ReadByte by exact Hb. cbn [bind app].
    rewrite Hlen. change (negb (Z.of_nat 64 =? Parser.kBlockSz)) with false.
    cbv iota.
    destruct (Parser.GetZigZag entries) as [zz| | |]; try reflexivity.
    cbn [bind]. change (u16 (u16 (65 - 1) - Parser.kBlockSz * 1)) with 0.
    destruct fuel; reflexivity.
  - rewrite (ReadSz_cons 131) by lia. cbn [bind].
    change (Z.to_nat (131 - 2)) with (S 128). change (131 - 2) with 129.
    generalize 128%nat as fuel. intros fuel.
    cbn [Parser.ReadQuantTable_loop]. change (129 >? 0) with true.
    change (129 <? 1) with false. cbv iota.
    rewrite ReadByte_cons by (unfold is_byte; lia). cbn [bind].
    assert (Hhi : Z.shiftr (16 + id) 4 = 1).
    { rewrite Z.shiftr_div_pow2 by lia. change (2 ^ 4) with 16.
      symmetry. apply (Z.div_unique (16 + id) 16 1 id); lia. }
    assert (Hlo : Z.land (16 + id) Parser.kLowestByteMask = id).
    { change Parser.kLowestByteMask with (Z.ones 4).
      rewrite Z.land_ones by lia. change (2 ^ 4) with 16.
      symmetry. apply (Z.mod_unique (16 + id) 16 1 id); lia. }
    rewrite Hhi, Hlo.
    change (1 =? 1) with true. change (1 =? 0) with false. cbn [negb andb].
    change (u16 (129 - 1) <? Parser.kBlockSz * 2) with false. cbv iota.
    change (2 =? 1) with false. cbv iota.
    change (Z.to_nat Parser.kBlockSz) with 64%nat. rewrite <- Hlenw.
    rewrite read_many_ReadWord by exact Hbw. cbn [bind app].
    rewrite Hlenw. change (negb (Z.of_nat 64 =? Parser.kBlockSz)) with false.
    cbv iota.
    destruct (Parser.GetZigZag words) as [zz| | |]; try reflexivity.
    cbn [bind]. change (u16 (u16 (129 - 1) - Parser.kBlockSz * 2)) with 0.
    destruct fuel; reflexivity.
Qed.

Lemma ReadQuantTable_one_table_witness :
  Parser.ReadQuantTable (mk (0 :: 67 :: 1 :: repeat 2 64 ++ [0xFF]) 0 0)
  = (zz <- Parser.GetZigZag (repeat 2 64) ;;
     Ok ([QuantumTable.mk 1 zz], mk [0xFF] 0 0))
  /\ Parser.ReadQuantTable
       (mk (0 :: 131 :: (16 + 1)
            :: flat_map (fun w => [w / 256; w mod 256]) (repeat 300 64) ++ [0xFF])
           0 0)
     = (zz <- Parser.GetZigZag (repeat 300 64) ;;
        Ok ([QuantumTable.mk 1 zz], mk [0xFF] 0 0)).
Proof.
  apply ReadQuantTable_one_table;
    [lia|reflexivity| |reflexivity|];
    apply Forall_forall; intros x Hx; apply repeat_spec in Hx; subst x;
    unfold is_byte; lia.
Defined.

End Segments.

Section FileStructure.
Import BitReader Layout Decoder.

Lemma ReadMarkerType_cons (hi lo buf : Z) (s : list Z) :
  is_byte hi -> is_byte lo ->
  Parser.ReadMarkerType (mk (hi :: lo :: s) buf 0)
  = match Parser.kWordToMarkerType (hi * 256 + lo) with
    | Some m => Ok (m, mk s buf 0)
    | None => Throw "Unknown marker"
    end.
Proof.
  intros Hhi Hlo. unfold Parser.ReadMarkerType.
  rewrite ReadWord_cons by assumption. reflexivity.
Qed.

(** X15: a stream must open with the SOI marker [FF D8].  When its first
    two bytes are another marker the decoder knows, [Decode] throws "No
    begin marker"; when they are no marker it knows, it throws "Unknown
    marker". *)
Theorem Decode_requires_SOI (hi lo : Z) (rest : list Z) :
  is_byte hi -> is_byte lo ->
  hi * 256 + lo <> 0xffd8 ->
  Decode (hi :: lo :: rest)
  = match Parser.kWordToMarkerType (hi * 256 + lo) with
    | Some _ => Throw "No begin marker"
    | None => Throw "Unknown marker"
    end.
Proof.
  intros Hhi Hlo Hne. unfold Decode, Parser.ReadRawImage, init.
  rewrite ReadMarkerType_cons by assumption.
  destruct (Parser.kWordToMarkerType (hi * 256 + lo)) as [m|] eqn:E;
    [|reflexivity].
  cbn [bind].
  destruct m; try reflexivity.
  exfalso. apply Hne. unfold Parser.kWordToMarkerType in E.
  destruct (hi * 256 + lo =? 65496) eqn:E1; [apply Z.eqb_eq in E1; exact E1|].
  repeat match type of E with
         | (if ?c then _ else _) = _ => destruct c; try discriminate E
         end.
Qed.

Lemma Decode_requires_SOI_witness :
  Decode (0xFF :: 0xD9 :: [])
  = match Parser.kWordToMarkerType (0xFF * 256 + 0xD9) with
    | Some _ => Throw "No begin marker"
    | None => Throw "Unknown marker"
    end.
Proof. apply Decode_requires_SOI; unfold is_byte; lia. Defined.

(** X16: what follows SOI.  A word that is no marker of the decoder's
    table (SOF2 of a progressive file, DRI, RSTn, ...) makes [Decode] throw
    "Unknown marker"; a second SOI, "Begin marker in bad place"; an SOS
    before any SOF, "No metadata before reading image data"; and EOI before
    a frame and a scan have been read, "No image/meta data in file". *)
Theorem Decode_second_marker (hi lo : Z) (rest : list Z) :
  is_byte hi -> is_byte lo ->
  let word := hi * 256 + lo in
  let decoded := Decode (0xFF :: 0xD8 :: hi :: lo :: rest) in
  (Parser.kWordToMarkerType word = None -> decoded = Throw "Unknown marker")
  /\ (word = 0xffd8 -> decoded = Throw "Begin marker in bad place")
  /\ (word = 0xffda ->
      decoded = Throw "No metadata before reading image data")
  /\ (word = 0xffd9 -> decoded = Throw "No image/meta data in file").
Proof.
  intros Hhi Hlo word decoded.
  assert (H : decoded
              = match Parser.kWordToMarkerType word with
                | None => Throw "Unknown marker"
                | Some MarkerType.BeginFile => Throw "Begin marker in bad place"
                | Some MarkerType.Data =>
                    Throw "No metadata before reading image data"
                | Some MarkerType.EndFile => Throw "No image/meta data in file"
                | Some _ => decoded
                end).
  { unfold decoded, Decode, Parser.ReadRawImage, init.
    rewrite ReadMarkerType_cons by (unfold is_byte; lia).
    change (Parser.kWordToMarkerType (255 * 256 + 216))
      with (Some MarkerType.BeginFile).
    cbn [bind MarkerType.eqb negb in_ List.length Parser.ReadRawImage_loop].
    rewrite ReadMarkerType_cons by assumption. fold word.
    destruct (Parser.kWordToMarkerType word) as [m|]; [|reflexivity].
    destruct m; reflexivity. }
  repeat split; intros Hw; rewrite H, Hw; reflexivity.
Qed.

Lemma Decode_second_marker_witness :
  let word := 0xFF * 256 + 0xC2 in
  let decoded := Decode (0xFF :: 0xD8 :: 0xFF :: 0xC2 :: []) in
  (Parser.kWordToMarkerType word = None -> decoded = Throw "Unknown marker")
  /\ (word = 0xffd8 -> decoded = Throw "Begin marker in bad place")
  /\ (word = 0xffda ->
      decoded = Throw "No metadata before reading image data")
  /\ (word = 0xffd9 -> decoded = Throw "No image/meta data in file").
Proof. apply Decode_second_marker; unfold is_byte; lia. Defined.

End FileStructure.

Section Blocks.
Import BitReader.

Lemma GetZigZag_length (data out : list Z) :
  Parser.GetZigZag data = Ok out -> List.length out = 64%nat.
Proof.
  unfold Parser.GetZigZag.
  destruct (negb _); [discriminate|]. intros H. apply Ok_inj in H.
  subst out. rewrite length_map. reflexivity.
Qed.

(** X17: a block returned by [ReadBlock] has 64 coefficients, and its
    first one, the DC coefficient, is the value [prev_dc] is left with for
    the next block of the channel. *)
Theorem ReadBlock_shape (dc_tree ac_tree : HuffmanTree.t) (prev_dc p : Z)
    (block : list Z) (r r' : t) :
  Parser.ReadBlock dc_tree ac_tree prev_dc r = Ok (block, p, r') ->
  List.length block = 64%nat /\ nth 0 block 0 = p.
Proof.
  unfold Parser.ReadBlock. intros H.
  destruct (Parser.ReadBlock_dc dc_tree prev_dc r) as [[[m p1] r1]| | |] eqn:Ed;
    try discriminate H.
  cbn [bind] in H.
  destruct (Parser.ReadBlock_ac _ ac_tree m r1) as [[m2 r2]| | |] eqn:Ea;
    try discriminate H.
  cbn [bind] in H.
  destruct (negb _); [discriminate H|].
  destruct (Parser.GetZigZag m2) as [b| | |] eqn:Ez; try discriminate H.
  cbn [bind] in H. apply Ok_inj in H.
  apply pair_equal_spec in H. destruct H as [H _].
  apply pair_equal_spec in H. destruct H as [<- <-].
  split; [exact (GetZigZag_length _ _ Ez)|].
  rewrite (GetZigZag_head _ _ Ez).
  apply ReadBlock_dc_shape in Ed. subst m.
  apply ReadBlock_ac_prefix in Ea. destruct Ea as [tail ->]. reflexivity.
Qed.

Lemma ReadBlock_shape_witness :
  List.length (64 :: repeat 0 63) = 64%nat
  /\ nth 0 (64 :: repeat 0 63) 0 = 64.
Proof.
  apply (ReadBlock_shape (Examples.leaf_tree 7) (Examples.leaf_tree 0) 0 64
           (64 :: repeat 0 63) (init [0x40; 0x00]) (mk [] 0 7)).
  reflexivity.
Defined.

End Blocks.

Section Samples.
Import Decoder.

(** X18: [Rationing] adds 128 and clamps to [0, 255], but the sum is
    converted to [int16_t] before it is compared: a sample above 32639
    wraps to a negative number and becomes 0, not 255. *)
Theorem Rationing_sample_value (x : Z) :
  -32768 <= x <= 32767 ->
  Rationing_sample x
  = (if 32639 <? x then 0 else Z.max 0 (Z.min 255 (x + 128)))
  /\ 0 <= Rationing_sample x <= 255.
Proof.
  intros Hx. unfold Rationing_sample.
  destruct (32639 <? x) eqn:E.
  - apply Z.ltb_lt in E.
    assert (Hs : s16 (x + 128) = x + 128 - 65536).
    { unfold s16.
      rewrite <- (Z.mod_unique (x + 128 + 32768) 65536 1 (x + 128 - 32768))
        by lia. lia. }
    rewrite Hs. lia.
  - apply Z.ltb_ge in E.
    assert (Hs : s16 (x + 128) = x + 128) by (apply s16_exact_iff; lia).
    rewrite Hs. lia.
Qed.

Lemma Rationing_sample_value_witness :
  Rationing_sample 32767
  = (if 32639 <? 32767 then 0 else Z.max 0 (Z.min 255 (32767 + 128)))
  /\ 0 <= Rationing_sample 32767 <= 255.
Proof. apply Rationing_sample_value; lia. Defined.

Lemma clamp8_range (v : Z) : 0 <= clamp8 v <= 255.
Proof.
  unfold clamp8. destruct (Z.shiftr v 10 <? 0) eqn:E1; [lia|].
  destruct (Z.shiftr v 10 >? 255) eqn:E2; [lia|].
  unfold u8. pose proof (Z.mod_pos_bound (Z.shiftr v 10) 256). lia.
Qed.

Lemma clamp8_shifted (y : Z) :
  clamp8 (Z.shiftl y 10) = Z.max 0 (Z.min 255 y).
Proof.
  unfold clamp8. rewrite Z.shiftr_shiftl_l by lia. change (10 - 10) with 0.
  rewrite Z.shiftl_0_r.
  destruct (y <? 0) eqn:E1; [apply Z.ltb_lt in E1; lia|].
  apply Z.ltb_ge in E1.
  destruct (y >? 255) eqn:E2.
  - rewrite Z.gtb_ltb in E2. apply Z.ltb_lt in E2. lia.
  - rewrite Z.gtb_ltb in E2. apply Z.ltb_ge in E2.
    unfold u8. rewrite Z.mod_small by lia. lia.
Qed.

(** X19: the fixed-point [YCbCrToRGB] returns components between 0 and
    255 for any channel values, and a pixel without chroma (one channel, or
    [Cb = Cr = 128]) is the grey of its luma clamped to [0, 255]. *)
Theorem YCbCrToRGB_range_and_grey (channels : list Z) (p : RGB.t) (y : Z) :
  YCbCrToRGB channels = Ok p ->
  (0 <= RGB.r p <= 255 /\ 0 <= RGB.g p <= 255 /\ 0 <= RGB.b p <= 255)
  /\ (channels = [y] \/ channels = [y; 128; 128] ->
      let grey := Z.max 0 (Z.min 255 y) in p = RGB.mk grey grey grey).
Proof.
  intros H. split.
  - unfold YCbCrToRGB in H. destruct channels as [|c0 rest]; [discriminate H|].
    apply Ok_inj in H. subst p. cbn [RGB.r RGB.g RGB.b].
    repeat split; apply clamp8_range.
  - assert (Hgrey : Ok p = Ok (RGB.mk (clamp8 (Z.shiftl y 10 + 1402 * 0))
                                 (clamp8 (Z.shiftl y 10 - 344 * 0 - 714 * 0))
                                 (clamp8 (Z.shiftl y 10 + 1772 * 0))) ->
                    let grey := Z.max 0 (Z.min 255 y) in
                    p = RGB.mk grey grey grey).
    { intros Hp grey. apply Ok_inj in Hp. subst p.
      rewrite !Z.mul_0_r, !Z.sub_0_r, !Z.add_0_r, clamp8_shifted.
      reflexivity. }
    intros [-> | ->]; apply Hgrey; rewrite <- H; reflexivity.
Qed.

Lemma YCbCrToRGB_range_and_grey_witness :
  (0 <= RGB.r (RGB.mk 255 255 255) <= 255
   /\ 0 <= RGB.g (RGB.mk 255 255 255) <= 255
   /\ 0 <= RGB.b (RGB.mk 255 255 255) <= 255)
  /\ ([300] = [300] \/ [300] = [300; 128; 128] ->
      let grey := Z.max 0 (Z.min 255 300) in
      RGB.mk 255 255 255 = RGB.mk grey grey grey).
Proof. apply (YCbCrToRGB_range_and_grey [300]). reflexivity. Defined.

End Samples.

Section ParsedShapes.
Import BitReader Decoder Shape.

Lemma ReadBlock_length (dc_tree ac_tree : HuffmanTree.t) (prev_dc p : Z)
    (block : list Z) (r r' : t) :
  Parser.ReadBlock dc_tree ac_tree prev_dc r = Ok (block, p, r') ->
  List.length block = 64%nat.
Proof.
  unfold Parser.ReadBlock. intros H.
  destruct (Parser.ReadBlock_dc dc_tree prev_dc r) as [[[m p1] r1]| | |];
    try discriminate H.
  cbn [bind] in H.
  destruct (Parser.ReadBlock_ac _ ac_tree m r1) as [[m2 r2]| | |];
    try discriminate H.
  cbn [bind] in H. destruct (negb _); [discriminate H|].
  destruct (Parser.GetZigZag m2) as [b| | |] eqn:Ez; try discriminate H.
  cbn [bind] in H. apply Ok_inj in H.
  apply pair_equal_spec in H. destruct H as [H _].
  apply pair_equal_spec in H. destruct H as [<- _].
  exact (GetZigZag_length _ _ Ez).
Qed.

Lemma Forall_vector_update {A : Type} (P : A -> Prop) (f : A -> A)
    (v : list A) :
  (forall x : A, P x -> P (f x)) ->
  Forall P v -> forall i : nat, Forall P (vector_update i f v).
Proof.
  intros Hf Hv. induction Hv as [|x v Hx Hv IH]; intros [|i]; simpl;
    constructor; auto.
Qed.

Lemma fold_result_invariant {X S : Type} (P : S -> Prop)
    (step : X -> S -> result S) (l : list X) :
  (forall (x : X) (s s' : S), P s -> step x s = Ok s' -> P s') ->
  forall s s' : S, P s -> Schedule.fold_result step l s = Ok s' -> P s'.
Proof.
  intros Hstep. induction l as [|x l IH]; intros s s' Hs H;
    cbn [Schedule.fold_result] in H.
  - apply Ok_inj in H. subst s'. exact Hs.
  - destruct (step x s) as [s1| | |] eqn:E; try discriminate H.
    cbn [bind] in H. exact (IH _ _ (Hstep _ _ _ Hs E) H).
Qed.

Lemma ReadImageData_blocks64 (trees : list (option HuffmanTree.t))
    (meta : ImageMetadata.t) (r r' : t) (img : ImageData.t) :
  Parser.ReadImageData trees meta r = Ok (img, r') ->
  blocks64 (ImageData.channel_matrix img).
Proof.
  unfold Parser.ReadImageData. intros H.
  destruct (Parser.ReadImageData_header trees r)
    as [[[[[cnt ids] dcs] acs] r1]| | |]; try discriminate H.
  cbn [bind] in H. cbv zeta in H.
  destruct (_ || _); [discriminate H|].
  destruct (Parser.lookup_channels meta ids) as [cms| | |]; try discriminate H.
  cbn [bind] in H. rewrite ReadImageData_blocks_in_order in H.
  destruct (Schedule.read_in_order _ _ _) as [[[prev' matrix'] r2]| | |]
    eqn:Hblocks; try discriminate H.
  cbn [bind] in H. apply Ok_inj, pair_equal_spec in H. destruct H as [<- _].
  cbn [ImageData.channel_matrix].
  unfold Schedule.read_in_order in Hblocks.
  apply (fold_result_invariant
           (fun st : Parser.scan_state => blocks64 (snd (fst st))))
    in Hblocks; [exact Hblocks| |].
  - intros p [[prev matrix] r0] [[prev1 matrix1] r3] Hm Hstep.
    cbn [fst snd] in *. unfold Parser.read_block_of in Hstep.
    destruct (Parser.ReadBlock _ _ _ r0) as [[[block p1] r4]| | |] eqn:Eb;
      try discriminate Hstep.
    cbn [bind] in Hstep. apply Ok_inj in Hstep.
    apply pair_equal_spec in Hstep. destruct Hstep as [Hstep _].
    apply pair_equal_spec in Hstep. destruct Hstep as [_ <-].
    apply Forall_vector_update; [|exact Hm].
    intros blocks Hblocks64. apply Forall_app. split; [exact Hblocks64|].
    constructor; [exact (ReadBlock_length _ _ _ _ _ _ _ Eb)|constructor].
  - cbn [fst snd]. apply Forall_forall. intros x Hx.
    apply repeat_spec in Hx. subst x. constructor.
Qed.

Lemma ReadQuantTable_loop_64 (fuel : nat) :
  forall (sz : Z) (ans tables : list QuantumTable.t) (r r' : t),
    Forall (fun q => List.length (QuantumTable.data q) = 64%nat) ans ->
    Parser.ReadQuantTable_loop fuel sz ans r = Ok (tables, r') ->
    Forall (fun q => List.length (QuantumTable.data q) = 64%nat) tables.
Proof.
  induction fuel as [|fuel IH]; intros sz ans tables r r' Hans H;
    cbn [Parser.ReadQuantTable_loop] in H;
    destruct (sz >? 0); try discriminate H;
    try (apply Ok_inj, pair_equal_spec in H; destruct H as [<- _]; exact Hans).
  destruct (sz <? 1); [discriminate H|].
  destruct (ReadByte r) as [[mask r1]| | |]; try discriminate H.
  cbn [bind] in H.
  destruct (_ && _); [discriminate H|].
  destruct (_ <? _); [discriminate H|].
  destruct (Parser.read_many _ _ _ r1) as [[data r2]| | |]; try discriminate H.
  cbn [bind] in H. destruct (negb _); [discriminate H|].
  destruct (Parser.GetZigZag data) as [zz| | |] eqn:Ez; try discriminate H.
  cbn [bind] in H. apply IH in H; [exact H|].
  apply Forall_app. split; [exact Hans|].
  constructor; [exact (GetZigZag_length _ _ Ez)|constructor].
Qed.

Lemma store_quantum_tables_64 (tables : list QuantumTable.t) :
  forall qts qts' : list (option QuantumTable.t),
    Forall (fun q => List.length (QuantumTable.data q) = 64%nat) tables ->
    tables64 qts ->
    Parser.store_quantum_tables tables qts = Ok qts' ->
    tables64 qts'.
Proof.
  induction tables as [|q tables IH]; intros qts qts' Ht Hq H;
    cbn [Parser.store_quantum_tables] in H.
  - apply Ok_inj in H. subst qts'. exact Hq.
  - apply Forall_cons_iff in Ht as [Hq0 Ht].
    destruct (nth _ qts None); [discriminate H|].
    apply IH in H; [exact H|exact Ht|].
    apply Forall_vector_update; [|exact Hq]. intros _ _. exact Hq0.
Qed.

Lemma ReadRawImage_segment_64 (marker : MarkerType.t) (s s' : Parser.segments)
    (r r' : t) :
  parsed64 s ->
  Parser.ReadRawImage_segment marker s r = Ok (s', r') ->
  parsed64 s'.
Proof.
  intros [Hq Hi] H. unfold parsed64.
  destruct marker; cbn [Parser.ReadRawImage_segment] in H.
  - discriminate H.
  - apply Ok_inj, pair_equal_spec in H. destruct H as [<- _]. split; assumption.
  - destruct (Parser.ReadComment r) as [[c r1]| | |]; try discriminate H.
    cbn [bind] in H. apply Ok_inj, pair_equal_spec in H. destruct H as [<- _].
    split; assumption.
  - destruct (Parser.ReadComment r) as [[c r1]| | |]; try discriminate H.
    cbn [bind] in H. apply Ok_inj, pair_equal_spec in H. destruct H as [<- _].
    split; assumption.
  - destruct (Parser.ReadQuantTable r) as [[tables r1]| | |] eqn:Eq;
      try discriminate H.
    cbn [bind] in H.
    destruct (Parser.store_quantum_tables tables _) as [qts| | |] eqn:Es;
      try discriminate H.
    cbn [bind] in H. apply Ok_inj, pair_equal_spec in H. destruct H as [<- _].
    cbn [Parser.quantum_tables Parser.image_data]. split; [|exact Hi].
    apply (store_quantum_tables_64 _ _ _ ) in Es; [exact Es| |exact Hq].
    unfold Parser.ReadQuantTable in Eq.
    destruct (Parser.ReadSz r) as [[sz r0]| | |]; try discriminate Eq.
    cbn [bind] in Eq.
    apply (ReadQuantTable_loop_64 _ _ _ _ _ _ (Forall_nil _) Eq).
  - destruct (Parser.metadata s); [discriminate H|].
    destruct (Parser.ReadImageMeta r) as [[meta r1]| | |]; try discriminate H.
    cbn [bind] in H. apply Ok_inj, pair_equal_spec in H. destruct H as [<- _].
    split; assumption.
  - destruct (Parser.ReadHuffmanTree r) as [[trees r1]| | |]; try discriminate H.
    cbn [bind] in H.
    destruct (Parser.store_huffman_trees trees _) as [hts| | |];
      try discriminate H.
    cbn [bind] in H. apply Ok_inj, pair_equal_spec in H. destruct H as [<- _].
    split; assumption.
  - destruct (Parser.metadata s) as [meta|]; [|discriminate H].
    destruct (Parser.ReadImageData _ meta r) as [[img r1]| | |] eqn:Ei;
      try discriminate H.
    cbn [bind] in H. apply Ok_inj, pair_equal_spec in H. destruct H as [<- _].
    cbn [Parser.quantum_tables Parser.image_data]. split; [exact Hq|].
    exact (ReadImageData_blocks64 _ _ _ _ _ Ei).
Qed.

Lemma ReadRawImage_loop_64 (fuel : nat) :
  forall (s s' : Parser.segments) (r r' : t),
    parsed64 s ->
    Parser.ReadRawImage_loop fuel s r = Ok (s', r') ->
    parsed64 s'.
Proof.
  induction fuel as [|fuel IH]; intros s s' r r' Hs H;
    cbn [Parser.ReadRawImage_loop] in H;
    destruct (Parser.ReadMarkerType r) as [[marker r1]| | |];
    try discriminate H; cbn [bind] in H;
    destruct (MarkerType.eqb marker MarkerType.EndFile);
    try discriminate H;
    try (apply Ok_inj, pair_equal_spec in H; destruct H as [<- _]; exact Hs).
  destruct (Parser.ReadRawImage_segment marker s r1) as [[s1 r2]| | |] eqn:E;
    try discriminate H.
  cbn [bind] in H.
  exact (IH _ _ _ _ (ReadRawImage_segment_64 _ _ _ _ _ Hs E) H).
Qed.

Lemma ReadRawImage_64 (r r' : t) (raw : RawImage.t) :
  Parser.ReadRawImage r = Ok (raw, r') ->
  tables64 (RawImage.quantum_tables raw)
  /\ blocks64 (ImageData.channel_matrix (RawImage.data raw)).
Proof.
  unfold Parser.ReadRawImage. intros H.
  destruct (Parser.ReadMarkerType r) as [[marker r1]| | |]; try discriminate H.
  cbn [bind] in H. destruct (negb _); [discriminate H|].
  destruct (Parser.ReadRawImage_loop _ _ r1) as [[s r2]| | |] eqn:El;
    try discriminate H.
  cbn [bind] in H.
  apply ReadRawImage_loop_64 in El.
  - destruct El as [Hq Hi].
    destruct (Parser.image_data s) as [img|]; [|discriminate H].
    destruct (Parser.metadata s) as [meta|]; [|discriminate H].
    apply Ok_inj, pair_equal_spec in H. destruct H as [<- _].
    split; assumption.
  - split; [|exact I]. cbn [Parser.quantum_tables].
    apply Forall_forall. intros x Hx. apply repeat_spec in Hx. subst x. exact I.
Qed.

End ParsedShapes.

Section Reconstructed.
Import BitReader Decoder.

Lemma Throw_other {A B : Type} (what what' : string) :
  @Throw A what <> Throw what' -> @Throw B what <> Throw what'.
Proof.
  intros H E. apply H. injection E as ->. reflexivity.
Qed.

Lemma map_result_not_Throw {A B : Type} (what : string) (f : A -> result B)
    (l : list A) :
  (forall x : A, In x l -> f x <> Throw what) ->
  map_result f l <> Throw what.
Proof.
  induction l as [|x l IH]; intros Hf; cbn [map_result]; [discriminate|].
  pose proof (Hf x (or_introl eq_refl)) as Hx.
  destruct (f x) as [y| | |]; cbn [bind]; try discriminate;
    [|exact (Throw_other _ _ Hx)].
  assert (Hl : map_result f l <> Throw what).
  { apply IH. intros x0 Hin. apply Hf. right. exact Hin. }
  destruct (map_result f l); cbn [bind]; try discriminate. exact Hl.
Qed.

Lemma map_result_Forall {A B : Type} (Q : B -> Prop) (f : A -> result B)
    (l : list A) :
  (forall (x : A) (y : B), In x l -> f x = Ok y -> Q y) ->
  forall ys : list B, map_result f l = Ok ys -> Forall Q ys.
Proof.
  induction l as [|x l IH]; intros Hf ys H; cbn [map_result] in H.
  - apply Ok_inj in H. subst ys. constructor.
  - destruct (f x) as [y| | |] eqn:E; try discriminate H. cbn [bind] in H.
    destruct (map_result f l) as [ys0| | |] eqn:El; try discriminate H.
    cbn [bind] in H. apply Ok_inj in H. subst ys. constructor.
    + exact (Hf x y (or_introl eq_refl) E).
    + apply IH; [|reflexivity]. intros x0 y0 Hin. apply Hf. right. exact Hin.
Qed.

Lemma find_channel_Throw (what : string) (id : Z)
    (l : list ChannelMetadata.t) :
  what <> "No meta for channel"%string ->
  ImageMetadata.find_channel id l <> Throw what.
Proof.
  intros Hw. induction l as [|c l IH]; simpl.
  - intros H. apply Hw. injection H as <-. reflexivity.
  - destruct (_ =? id); [discriminate|exact IH].
Qed.

Lemma tables64_nth (tables : list (option QuantumTable.t)) (n : nat)
    (qt : QuantumTable.t) :
  Shape.tables64 tables -> nth n tables None = Some qt ->
  List.length (QuantumTable.data qt) = 64%nat.
Proof.
  intros Ht Hn. destruct (Nat.lt_ge_cases n (List.length tables)) as [Hlt|Hge].
  - unfold Shape.tables64 in Ht. rewrite Forall_forall in Ht.
    specialize (Ht _ (nth_In tables None Hlt)). rewrite Hn in Ht. exact Ht.
  - rewrite nth_overflow in Hn by exact Hge. discriminate Hn.
Qed.

Lemma Mult_64 (block data : list Z) :
  List.length block = 64%nat -> List.length data = 64%nat ->
  exists out : list Z, Mult block data = Ok out /\ List.length out = 64%nat.
Proof.
  intros Hb Hd. unfold Mult. rewrite Hb, Hd. cbn [Nat.eqb negb].
  eexists. split; [reflexivity|].
  rewrite Mult_loop_length by congruence. exact Hb.
Qed.

Lemma concat_length_constant {A : Type} (n : nat) (m : list (list A)) :
  Forall (fun row => List.length row = n) m ->
  List.length (List.concat m) = (List.length m * n)%nat.
Proof.
  induction 1 as [|row m Hrow _ IH]; simpl; [reflexivity|].
  rewrite length_app, IH, Hrow. reflexivity.
Qed.

(** The two-dimensional transform returns [width * width] numbers whatever
    it is given. *)
Lemma REDFT01_2d_length (width : nat) (a : list float) :
  List.length (DctCalculator.REDFT01_2d width a) = (width * width)%nat.
Proof.
  unfold DctCalculator.REDFT01_2d, DctCalculator.transpose.
  rewrite (concat_length_constant width).
  - rewrite length_map, length_seq. reflexivity.
  - apply Forall_forall. intros col Hcol. apply in_map_iff in Hcol.
    destruct Hcol as (k & <- & _). unfold DctCalculator.column.
    rewrite !length_map, length_seq. reflexivity.
Qed.

Lemma map_result_length {A B : Type} (f : A -> result B) (l : list A) :
  forall ys : list B, map_result f l = Ok ys -> List.length ys = List.length l.
Proof.
  induction l as [|x l IH]; intros ys H; cbn [map_result] in H.
  - apply Ok_inj in H. subst ys. reflexivity.
  - destruct (f x) as [y| | |]; try discriminate H. cbn [bind] in H.
    destruct (map_result f l) as [ys0| | |]; try discriminate H.
    cbn [bind] in H. apply Ok_inj in H. subst ys. simpl. f_equal.
    apply IH. reflexivity.
Qed.

Lemma vector_at_In {A : Type} (v : list A) (i : Z) (x : A) :
  vector_at v i = Ok x -> In x v.
Proof.
  unfold vector_at. destruct (nth_error v (Z.to_nat i)) as [y|] eqn:E;
    [|discriminate].
  destruct (i <? 0); [discriminate|]. intros H. apply Ok_inj in H. subst y.
  exact (nth_error_In _ _ E).
Qed.

Lemma vector_at_not_Throw {A : Type} (what : string) (v : list A) (i : Z) :
  vector_at v i <> Throw what.
Proof.
  unfold vector_at. destruct (nth_error v (Z.to_nat i)); [|discriminate].
  destruct (i <? 0); discriminate.
Qed.

Lemma bind_not_Throw {A B : Type} (what : string) (m : result A)
    (k : A -> result B) :
  m <> Throw what ->
  (forall a : A, m = Ok a -> k a <> Throw what) ->
  bind m k <> Throw what.
Proof.
  intros Hm Hk. destruct m; cbn [bind]; try discriminate.
  - apply Hk. reflexivity.
  - exact (Throw_other _ _ Hm).
Qed.

(** A property of the state that every turn of a loop keeps, and under
    which no turn throws [what]. *)
Lemma for_keeps {S : Type} (P : S -> Prop) (what : string)
    (body : Z -> S -> result S) (n : nat) :
  (forall (i : Z) (s : S), P s ->
     body i s <> Throw what /\ forall s' : S, body i s = Ok s' -> P s') ->
  forall (i : Z) (s : S), P s ->
    for_ n i body s <> Throw what
    /\ forall s' : S, for_ n i body s = Ok s' -> P s'.
Proof.
  intros Hbody. induction n as [|n IH]; intros i s Hs; cbn [for_].
  - split; [discriminate|]. intros s' H. apply Ok_inj in H. subst s'. exact Hs.
  - destruct (Hbody i s Hs) as [Hthrow Hkeep].
    destruct (body i s) as [s1| | |]; cbn [bind].
    + apply IH, Hkeep. reflexivity.
    + split; [exact Hthrow|discriminate].
    + split; discriminate.
    + split; discriminate.
Qed.

(** [Quantization] on blocks and tables of 64 entries: the size check of
    [Mult] passes, and the blocks it returns have 64 entries. *)
Lemma Quantization_64 (raw : RawImage.t) (d : ImageData.t) :
  Shape.tables64 (RawImage.quantum_tables raw) ->
  Shape.blocks64 (ImageData.channel_matrix d) ->
  Quantization raw d <> Throw "Cannot multiply on quantum matrix"
  /\ forall d' : ImageData.t,
       Quantization raw d = Ok d' ->
       Shape.blocks64 (ImageData.channel_matrix d').
Proof.
  intros Ht Hb. unfold Quantization.
  match goal with
  | |- bind (for_ ?n ?i ?body ?s) _ <> _ /\ _ =>
      pose proof (for_keeps Shape.blocks64 "Cannot multiply on quantum matrix"
                    body n) as Hloop
  end.
  cbv beta in Hloop.
  match type of Hloop with
  | ?H -> _ => assert (Hbody : H)
  end.
  { intros i matrix Hm.
    destruct (vector_at (ImageData.channel_ids d) i) as [id| | |] eqn:Eid;
      cbn [bind]; try (split; discriminate);
      [|exfalso; exact (vector_at_not_Throw _ _ _ Eid)].
    pose proof (find_channel_Throw "Cannot multiply on quantum matrix" id
                  (ImageMetadata.channels (RawImage.metadata raw))
                  ltac:(discriminate)) as Hfind.
    unfold ImageMetadata.GetMetaByChannelId.
    destruct (ImageMetadata.find_channel id _) as [cm| | |]; cbn [bind];
      try (split; discriminate).
    2:{ split; [exact (Throw_other _ _ Hfind)|discriminate]. }
    destruct (nth _ (RawImage.quantum_tables raw) None) as [qt|] eqn:Eq;
      [|split; discriminate].
    pose proof (tables64_nth _ _ _ Ht Eq) as Hq.
    destruct (vector_at matrix i) as [blocks| | |] eqn:Eat; cbn [bind];
      try (split; discriminate);
      [|exfalso; exact (vector_at_not_Throw _ _ _ Eat)].
    apply vector_at_In in Eat.
    unfold Shape.blocks64 in Hm. pose proof Hm as Hm0.
    rewrite Forall_forall in Hm0. specialize (Hm0 _ Eat).
    assert (Hmult : map_result (fun block => Mult block (QuantumTable.data qt))
                      blocks
                    <> Throw "Cannot multiply on quantum matrix").
    { apply map_result_not_Throw. intros block Hblock.
      rewrite Forall_forall in Hm0.
      destruct (Mult_64 block _ (Hm0 _ Hblock) Hq) as (out & -> & _).
      discriminate. }
    destruct (map_result _ blocks) as [out| | |] eqn:Eout; cbn [bind];
      try (split; discriminate).
    - split; [discriminate|]. intros s' H. apply Ok_inj in H. subst s'.
      apply Forall_vector_update; [|exact Hm]. intros _ _.
      revert Eout. apply map_result_Forall. intros block out' Hblock Hout.
      rewrite Forall_forall in Hm0.
      destruct (Mult_64 block _ (Hm0 _ Hblock) Hq) as (out'' & Hmul & Hlen).
      rewrite Hmul in Hout. apply Ok_inj in Hout. subst out''. exact Hlen.
    - split; [exact (Throw_other _ _ Hmult)|discriminate]. }
  destruct (Hloop Hbody 0 (ImageData.channel_matrix d) Hb) as [Hthrow Hkeep].
  destruct (for_ _ 0 _ (ImageData.channel_matrix d)) as [matrix| | |];
    cbn [bind].
  - split; [discriminate|]. intros d' H. apply Ok_inj in H. subst d'.
    apply Hkeep. reflexivity.
  - split; [exact (Throw_other _ _ Hthrow)|discriminate].
  - split; discriminate.
  - split; discriminate.
Qed.

Lemma IDCT_block_not_Throw (block : list Z) :
  List.length block = 64%nat ->
  IDCT_block block <> Throw "input/output->sz != width * width".
Proof.
  intros Hlen. unfold IDCT_block, DctCalculator.Inverse.
  rewrite length_map, Hlen. cbn [bind Z.of_nat].
  change (negb (Z.of_nat 64 =? 8 * 8)) with false. cbv iota. cbn [bind].
  apply map_result_not_Throw. intros x _. unfold round_to_int16.
  destruct (DctCalculator.round x) as [z|]; [|discriminate].
  destruct (_ && _); discriminate.
Qed.

(** X20: the sizes agree between the parser and the reconstruction.  In an
    image [ReadRawImage] returns every block and every quantization table
    has 64 entries; so the size check of [Mult] never makes [Quantization]
    fail on it, nor the one of [DctCalculator] the [IDCT] that follows
    (which [faster/decoder.cpp] runs on two arrays of 64 numbers). *)
Theorem parsed_image_sizes (r r' : t) (raw : RawImage.t) :
  Parser.ReadRawImage r = Ok (raw, r') ->
  Shape.blocks64 (ImageData.channel_matrix (RawImage.data raw))
  /\ Shape.tables64 (RawImage.quantum_tables raw)
  /\ Quantization raw (RawImage.data raw)
     <> Throw "Cannot multiply on quantum matrix"
  /\ forall d : ImageData.t,
       Quantization raw (RawImage.data raw) = Ok d ->
       IDCT d <> Throw "input/output->sz != width * width".
Proof.
  intros H. apply ReadRawImage_64 in H. destruct H as [Ht Hb].
  destruct (Quantization_64 raw (RawImage.data raw) Ht Hb) as [Hq Hd].
  split; [exact Hb|]. split; [exact Ht|]. split; [exact Hq|].
  intros d Hok. specialize (Hd d Hok).
  unfold IDCT, on_blocks.
  match goal with
  | |- bind (for_ ?n ?i ?body ?s) _ <> _ =>
      pose proof (for_keeps Shape.blocks64
                    "input/output->sz != width * width" body n) as Hloop
  end.
  cbv beta in Hloop.
  match type of Hloop with
  | ?H -> _ => assert (Hbody : H)
  end.
  { intros i matrix Hm.
    destruct (vector_at matrix i) as [blocks| | |] eqn:Eat; cbn [bind];
      try (split; discriminate);
      [|exfalso; exact (vector_at_not_Throw _ _ _ Eat)].
    apply vector_at_In in Eat.
    unfold Shape.blocks64 in Hm. pose proof Hm as Hm0.
    rewrite Forall_forall in Hm0. specialize (Hm0 _ Eat).
    assert (Hidct : map_result IDCT_block blocks
                    <> Throw "input/output->sz != width * width").
    { apply map_result_not_Throw. intros block Hblock.
      rewrite Forall_forall in Hm0. apply IDCT_block_not_Throw, Hm0, Hblock. }
    destruct (map_result IDCT_block blocks) as [out| | |] eqn:Eout; cbn [bind];
      try (split; discriminate).
    - split; [discriminate|]. intros s' H. apply Ok_inj in H. subst s'.
      apply Forall_vector_update; [|exact Hm]. intros _ _.
      revert Eout. apply map_result_Forall. intros block out' _ Hout.
      unfold IDCT_block in Hout.
      destruct (DctCalculator.Inverse 8 _) as [o| | |] eqn:Ei;
        try discriminate Hout.
      cbn [bind] in Hout. unfold DctCalculator.Inverse in Ei.
      destruct (negb _); [discriminate Ei|]. apply Ok_inj in Ei. subst o.
      apply map_result_length in Hout.
      rewrite Hout, REDFT01_2d_length. reflexivity.
    - split; [exact (Throw_other _ _ Hidct)|discriminate]. }
  destruct (Hloop Hbody 0 (ImageData.channel_matrix d) Hd) as [Hthrow _].
  destruct (for_ _ 0 _ (ImageData.channel_matrix d)); cbn [bind];
    try discriminate.
  exact (Throw_other _ _ Hthrow).
Qed.

Lemma parsed_image_sizes_witness :
  Shape.blocks64 (ImageData.channel_matrix (RawImage.data Examples.gray_raw))
  /\ Shape.tables64 (RawImage.quantum_tables Examples.gray_raw)
  /\ Quantization Examples.gray_raw (RawImage.data Examples.gray_raw)
     <> Throw "Cannot multiply on quantum matrix"
  /\ forall d : ImageData.t,
       Quantization Examples.gray_raw (RawImage.data Examples.gray_raw) = Ok d ->
       IDCT d <> Throw "input/output->sz != width * width".
Proof.
  apply (parsed_image_sizes (init Examples.gray_dc64) (mk [] 0 0)).
  vm_compute. reflexivity.
Defined.

End Reconstructed.

Section InverseTransform.
Import Decoder.

(** X21: [IDCT] on one block, with a [DctCalculator] made for the block
    as in [baseline/decoder.cpp].  The block must have 64 coefficients, or
    the constructor of [DctCalculator] throws; and a block that is returned
    has 64 samples, each of them within [int16_t]. *)
Theorem IDCT_block_shape (block : list Z) :
  (List.length block <> 64%nat ->
   IDCT_block block = Throw "input/output->sz != width * width")
  /\ forall out : list Z,
       IDCT_block block = Ok out ->
       List.length block = 64%nat
       /\ List.length out = 64%nat
       /\ Forall (fun x => -32768 <= x <= 32767) out.
Proof.
  unfold IDCT_block, DctCalculator.Inverse. rewrite length_map.
  destruct (negb (Z.of_nat (List.length block) =? 8 * 8)) eqn:E.
  - split; [reflexivity|]. intros out H. discriminate H.
  - apply negb_false_iff, Z.eqb_eq in E.
    split; [intros Hne; lia|]. intros out H. cbn [bind] in H.
    split; [lia|]. split.
    + apply map_result_length in H. rewrite H, REDFT01_2d_length. reflexivity.
    + revert H. apply map_result_Forall. intros x y _ Hy.
      unfold round_to_int16 in Hy.
      destruct (DctCalculator.round x) as [z|]; [|discriminate Hy].
      destruct ((-32768 <=? z) && (z <=? 32767)) eqn:Er; [|discriminate Hy].
      apply Ok_inj in Hy. subst y. apply andb_true_iff in Er.
      destruct Er as [H1 H2]. apply Z.leb_le in H1. apply Z.leb_le in H2. lia.
Qed.

Lemma IDCT_block_shape_witness :
  List.length (64 :: repeat 0 63) = 64%nat
  /\ List.length (repeat 8 64) = 64%nat
  /\ Forall (fun x => -32768 <= x <= 32767) (repeat 8 64).
Proof.
  apply (proj2 (IDCT_block_shape (64 :: repeat 0 63))).
  vm_compute. reflexivity.
Defined.

End InverseTransform.

Section FrameErrors.
Import BitReader Layout.

(** X22: the checks of [ReadImageMeta].  The header is read up to the
    channel count before anything is checked; then a height or a width of
    zero is "Empty image", and a length that is not [8 + 3 * Nf] is "Bad
    metadata size".  A length below 8 is rejected before any field is
    read. *)
Theorem ReadImageMeta_rejects (len p height width nf buf : Z) (rest : list Z) :
  0 <= len < 65536 -> is_byte p -> 0 <= height < 65536 -> 0 <= width < 65536 ->
  is_byte nf ->
  let header :=
    [len / 256; len mod 256; p; height / 256; height mod 256;
     width / 256; width mod 256; nf] in
  let r := mk (header ++ rest) buf 0 in
  (len < 2 -> Parser.ReadImageMeta r = Throw "Too little comment section size")
  /\ (2 <= len < 8 ->
      Parser.ReadImageMeta r = Throw "Too little image metadata size")
  /\ (8 <= len -> height = 0 \/ width = 0 ->
      Parser.ReadImageMeta r = Throw "Empty image")
  /\ (8 <= len -> height <> 0 -> width <> 0 -> len - 8 <> nf * 3 ->
      Parser.ReadImageMeta r = Throw "Bad metadata size").
Proof.
  intros Hlen Hp Hh Hw Hnf header r.
  destruct (length_word len Hlen) as (L1 & L2 & L3).
  destruct (length_word height Hh) as (H1 & H2 & H3).
  destruct (length_word width Hw) as (W1 & W2 & W3).
  unfold r, header. cbn [app]. unfold Parser.ReadImageMeta.
  split; [|split; [|split]].
  - intros Hlt. unfold Parser.ReadSz.
    rewrite ReadWord_cons by assumption. cbn [bind]. rewrite L3.
    destruct (len <? 2) eqn:E; [reflexivity|]. apply Z.ltb_ge in E. lia.
  - intros Hlt. rewrite ReadSz_cons by lia. cbn [bind].
    destruct (len - 2 <? 6) eqn:E; [reflexivity|]. apply Z.ltb_ge in E. lia.
  - intros Hge Hzero. rewrite ReadSz_cons by lia. cbn [bind].
    destruct (len - 2 <? 6) eqn:E; [apply Z.ltb_lt in E; lia|].
    rewrite ReadByte_cons by exact Hp. cbn [bind].
    rewrite ReadWord_cons by assumption. cbn [bind].
    rewrite ReadWord_cons by assumption. cbn [bind].
    rewrite ReadByte_cons by exact Hnf. cbn [bind].
    rewrite H3, W3.
    destruct ((height =? 0) || (width =? 0)) eqn:Ez; [reflexivity|].
    apply orb_false_iff in Ez. destruct Ez as [E1 E2].
    apply Z.eqb_neq in E1. apply Z.eqb_neq in E2. lia.
  - intros Hge Hh0 Hw0 Hne. rewrite ReadSz_cons by lia. cbn [bind].
    destruct (len - 2 <? 6) eqn:E; [apply Z.ltb_lt in E; lia|].
    rewrite ReadByte_cons by exact Hp. cbn [bind].
    rewrite ReadWord_cons by assumption. cbn [bind].
    rewrite ReadWord_cons by assumption. cbn [bind].
    rewrite ReadByte_cons by exact Hnf. cbn [bind].
    rewrite H3, W3.
    destruct ((height =? 0) || (width =? 0)) eqn:Ez.
    { apply orb_true_iff in Ez. destruct Ez as [Ez|Ez]; apply Z.eqb_eq in Ez; lia. }
    assert (Hu : u16 (len - 2 - 6) = len - 8).
    { unfold u16. rewrite Z.mod_small by lia. lia. }
    rewrite Hu.
    destruct (len - 8 =? nf * 3) eqn:E3; [apply Z.eqb_eq in E3; lia|].
    reflexivity.
Qed.

Lemma ReadImageMeta_rejects_witness :
  let header :=
    [11 / 256; 11 mod 256; 8; 0 / 256; 0 mod 256;
     8 / 256; 8 mod 256; 1] in
  let r := mk (header ++ [1; 0x11; 0]) 0 0 in
  (11 < 2 -> Parser.ReadImageMeta r = Throw "Too little comment section size")
  /\ (2 <= 11 < 8 ->
      Parser.ReadImageMeta r = Throw "Too little image metadata size")
  /\ (8 <= 11 -> 0 = 0 \/ 8 = 0 ->
      Parser.ReadImageMeta r = Throw "Empty image")
  /\ (8 <= 11 -> 0 <> 0 -> 8 <> 0 -> 11 - 8 <> 1 * 3 ->
      Parser.ReadImageMeta r = Throw "Bad metadata size").
Proof. apply ReadImageMeta_rejects; unfold is_byte; lia. Defined.

End FrameErrors.

Section ChannelLookup.

(** X23: [GetMetaByChannelId] returns the first channel of the frame with
    the identifier it is asked for, and throws "No meta for channel"
    exactly when the frame has no such channel. *)
Theorem GetMetaByChannelId_lookup (meta : ImageMetadata.t) (id : Z) :
  (ImageMetadata.GetMetaByChannelId meta id = Throw "No meta for channel"
   <-> forall cm : ChannelMetadata.t,
         In cm (ImageMetadata.channels meta) ->
         ChannelMetadata.channel_id cm <> id)
  /\ forall cm : ChannelMetadata.t,
       ImageMetadata.GetMetaByChannelId meta id = Ok cm ->
       exists pre post : list ChannelMetadata.t,
         ImageMetadata.channels meta = pre ++ cm :: post
         /\ ChannelMetadata.channel_id cm = id
         /\ Forall (fun c => ChannelMetadata.channel_id c <> id) pre.
Proof.
  unfold ImageMetadata.GetMetaByChannelId.
  induction (ImageMetadata.channels meta) as [|c l [IH1 IH2]];
    cbn [ImageMetadata.find_channel].
  - split; [split; [intros _ cm []|reflexivity]|intros cm H; discriminate H].
  - destruct (ChannelMetadata.channel_id c =? id) eqn:E.
    + apply Z.eqb_eq in E. split.
      * split; [discriminate|]. intros H. exfalso.
        apply (H c); [left; reflexivity|exact E].
      * intros cm H. apply Ok_inj in H. subst cm.
        exists [], l. repeat split; [exact E|constructor].
    + apply Z.eqb_neq in E. split.
      * rewrite IH1. split.
        -- intros H cm [<-|Hin]; [exact E|exact (H cm Hin)].
        -- intros H cm Hin. apply H. right. exact Hin.
      * intros cm H. destruct (IH2 cm H) as (pre & post & -> & Hid & Hpre).
        exists (c :: pre), post. repeat split; [exact Hid|].
        constructor; assumption.
Qed.

End ChannelLookup.

Section Scaling.
Import Decoder.

Lemma vector_at_app {A : Type} (pre : list A) (x : A) (rest : list A) :
  vector_at (pre ++ x :: rest) (Z.of_nat (List.length pre)) = Ok x.
Proof.
  unfold vector_at. rewrite Nat2Z.id, nth_error_app2 by lia.
  rewrite Nat.sub_diag. cbn [nth_error].
  destruct (Z.of_nat (List.length pre) <? 0) eqn:E; [|reflexivity].
  apply Z.ltb_lt in E. lia.
Qed.

(** The first loop of [GetAns] from channel [i] on, once the maxima have
    reached those of the frame. *)
Lemma GetAns_scaling_loop (meta : ImageMetadata.t) (hm vm : Z) :
  Forall (fun c => ChannelMetadata.h c <= hm /\ ChannelMetadata.v c <= vm)
    (ImageMetadata.channels meta) ->
  forall (ids_rest ids_pre : list Z) (cms_rest : list ChannelMetadata.t)
         (ch_pre ch_rest : list ChannelMetadata.t)
         (acc_cm : list ChannelMetadata.t) (acc_sc : list (Z * Z)),
    ImageMetadata.channels meta = ch_pre ++ ch_rest ->
    List.length ch_pre = List.length ids_pre ->
    (List.length ids_rest <= List.length ch_rest)%nat ->
    Parser.lookup_channels meta ids_rest = Ok cms_rest ->
    Forall (fun cm => ChannelMetadata.h cm <> 0 /\ ChannelMetadata.v cm <> 0)
      cms_rest ->
    for_ (List.length ids_rest) (Z.of_nat (List.length ids_pre))
      (fun c '(h_max, v_max, channel_metadata, scaling) =>
         mc <- vector_at (ImageMetadata.channels meta) c ;;
         let h_max := Z.max h_max (ChannelMetadata.h mc) in
         let v_max := Z.max v_max (ChannelMetadata.v mc) in
         channel_id <- vector_at (ids_pre ++ ids_rest) c ;;
         cm <- ImageMetadata.GetMetaByChannelId meta channel_id ;;
         if (ChannelMetadata.v cm =? 0) || (ChannelMetadata.h cm =? 0)
         then Undefined "division by zero"
         else
           Ok (h_max, v_max, channel_metadata ++ [cm],
               scaling ++ [(u16 (v_max / ChannelMetadata.v cm),
                            u16 (h_max / ChannelMetadata.h cm))]))
      (hm, vm, acc_cm, acc_sc)
    = Ok (hm, vm, acc_cm ++ cms_rest,
          acc_sc ++ map (fun cm => (u16 (vm / ChannelMetadata.v cm),
                                    u16 (hm / ChannelMetadata.h cm))) cms_rest).
Proof.
  intros Hmax.
  induction ids_rest as [|id ids_rest IH];
    intros ids_pre cms_rest ch_pre ch_rest acc_cm acc_sc Hch Hpre Hlen Hcms Hnz.
  - cbn [Parser.lookup_channels] in Hcms. apply Ok_inj in Hcms. subst cms_rest.
    cbn [List.length for_ map]. rewrite !app_nil_r. reflexivity.
  - cbn [Parser.lookup_channels] in Hcms.
    destruct (ImageMetadata.GetMetaByChannelId meta id) as [cm| | |] eqn:Ecm;
      try discriminate Hcms.
    cbn [bind] in Hcms.
    destruct (Parser.lookup_channels meta ids_rest) as [cms| | |] eqn:Ecms;
      try discriminate Hcms.
    cbn [bind] in Hcms. apply Ok_inj in Hcms. subst cms_rest.
    apply Forall_cons_iff in Hnz as [[Hh Hv] Hnz].
    destruct ch_rest as [|mc ch_rest]; [simpl in Hlen; lia|].
    cbn [List.length for_].
    rewrite Hch at 1. rewrite <- Hpre, vector_at_app. cbn [bind].
    rewrite Hpre, vector_at_app. cbn [bind]. rewrite Ecm. cbn [bind].
    assert (Hmc : ChannelMetadata.h mc <= hm /\ ChannelMetadata.v mc <= vm).
    { rewrite Hch in Hmax. apply Forall_app in Hmax as [_ Hm].
      apply Forall_cons_iff in Hm as [Hm _]. exact Hm. }
    rewrite !Z.max_l by lia.
    destruct (ChannelMetadata.v cm =? 0) eqn:E1; [apply Z.eqb_eq in E1; lia|].
    destruct (ChannelMetadata.h cm =? 0) eqn:E2; [apply Z.eqb_eq in E2; lia|].
    cbn [orb bind].
    specialize (IH (ids_pre ++ [id]) cms (ch_pre ++ [mc]) ch_rest
                  (acc_cm ++ [cm])
                  (acc_sc ++ [(u16 (vm / ChannelMetadata.v cm),
                               u16 (hm / ChannelMetadata.h cm))])).
    rewrite <- !app_assoc in IH. cbn [app] in IH.
    rewrite !length_app in IH. cbn [List.length] in IH.
    rewrite Nat2Z.inj_add in IH. cbn [Z.of_nat Pos.of_succ_nat] in IH.
    cbn [bind].
    rewrite IH; [reflexivity|exact Hch|lia| |reflexivity|exact Hnz].
    simpl in Hlen. lia.
Qed.

(** X27: the first loop of [GetAns] when the first channel of the frame
    has the largest sampling factors, as the luma channel of a YCbCr file
    has.  The maxima it ends with are those factors, every channel of the
    scan is found, and the scaling of a channel is the pair of quotients
    [v_max / v] and [h_max / h] by its own factors. *)
Theorem GetAns_scaling_first_channel_largest (d : ImageData.t)
    (meta : ImageMetadata.t) (mc0 : ChannelMetadata.t)
    (others cms : list ChannelMetadata.t) :
  ImageMetadata.channels meta = mc0 :: others ->
  0 <= ChannelMetadata.h mc0 -> 0 <= ChannelMetadata.v mc0 ->
  Forall (fun c => ChannelMetadata.h c <= ChannelMetadata.h mc0
                   /\ ChannelMetadata.v c <= ChannelMetadata.v mc0) others ->
  ImageData.channel_ids d <> [] ->
  (List.length (ImageData.channel_ids d)
   <= List.length (ImageMetadata.channels meta))%nat ->
  Parser.lookup_channels meta (ImageData.channel_ids d) = Ok cms ->
  Forall (fun cm => ChannelMetadata.h cm <> 0 /\ ChannelMetadata.v cm <> 0) cms ->
  GetAns_scaling d meta
  = Ok (ChannelMetadata.h mc0, ChannelMetadata.v mc0, cms,
        map (fun cm => (u16 (ChannelMetadata.v mc0 / ChannelMetadata.v cm),
                        u16 (ChannelMetadata.h mc0 / ChannelMetadata.h cm)))
          cms).
Proof.
  intros Hch Hh0 Hv0 Hmax Hids Hlen Hcms Hnz. unfold GetAns_scaling.
  destruct (ImageData.channel_ids d) as [|id ids]; [contradiction|].
  cbn [Parser.lookup_channels] in Hcms.
  destruct (ImageMetadata.GetMetaByChannelId meta id) as [cm| | |] eqn:Ecm;
    try discriminate Hcms.
  cbn [bind] in Hcms.
  destruct (Parser.lookup_channels meta ids) as [cms0| | |] eqn:Ecms;
    try discriminate Hcms.
  cbn [bind] in Hcms. apply Ok_inj in Hcms. subst cms.
  apply Forall_cons_iff in Hnz as [[Hh Hv] Hnz].
  cbn [List.length for_].
  rewrite Hch at 1. change (vector_at (mc0 :: others) 0) with (Ok mc0).
  cbn [bind]. change (vector_at (id :: ids) 0) with (Ok id).
  cbn [bind]. rewrite Ecm. cbn [bind].
  rewrite !Z.max_r by lia.
  destruct (ChannelMetadata.v cm =? 0) eqn:E1; [apply Z.eqb_eq in E1; lia|].
  destruct (ChannelMetadata.h cm =? 0) eqn:E2; [apply Z.eqb_eq in E2; lia|].
  cbn [orb bind app].
  assert (Hall : Forall (fun c => ChannelMetadata.h c <= ChannelMetadata.h mc0
                                  /\ ChannelMetadata.v c <= ChannelMetadata.v mc0)
                   (ImageMetadata.channels meta)).
  { rewrite Hch. constructor; [lia|exact Hmax]. }
  pose proof (GetAns_scaling_loop meta _ _ Hall ids [id] cms0 [mc0] others
                [cm] [(u16 (ChannelMetadata.v mc0 / ChannelMetadata.v cm),
                       u16 (ChannelMetadata.h mc0 / ChannelMetadata.h cm))]
                Hch eq_refl) as Hloop.
  cbn [List.length app Z.of_nat Pos.of_succ_nat] in Hloop.
  change (0 + 1) with 1.
  rewrite Hloop; [reflexivity| |exact Ecms|exact Hnz].
  rewrite Hch in Hlen. simpl in Hlen. lia.
Qed.

Lemma GetAns_scaling_first_channel_largest_witness :
  GetAns_scaling Examples.subsampled_data Examples.subsampled_meta
  = Ok (ChannelMetadata.h (ChannelMetadata.mk 1 2 1 0),
        ChannelMetadata.v (ChannelMetadata.mk 1 2 1 0),
        [ChannelMetadata.mk 1 2 1 0; ChannelMetadata.mk 2 1 1 0],
        map (fun cm => (u16 (ChannelMetadata.v (ChannelMetadata.mk 1 2 1 0)
                             / ChannelMetadata.v cm),
                        u16 (ChannelMetadata.h (ChannelMetadata.mk 1 2 1 0)
                             / ChannelMetadata.h cm)))
          [ChannelMetadata.mk 1 2 1 0; ChannelMetadata.mk 2 1 1 0]).
Proof.
  apply (GetAns_scaling_first_channel_largest Examples.subsampled_data
           Examples.subsampled_meta (ChannelMetadata.mk 1 2 1 0)
           [ChannelMetadata.mk 2 1 1 0]).
  - reflexivity.
  - simpl. lia.
  - simpl. lia.
  - repeat constructor; simpl; lia.
  - discriminate.
  - simpl. lia.
  - reflexivity.
  - repeat constructor; simpl; lia.
Defined.

End Scaling.

Section HuffmanVersions.
Import HuffmanTree.

Lemma same_outcome_refl {A : Type} (m : result A) : same_outcome m m.
Proof. destruct m; simpl; auto. Qed.

Lemma same_outcome_bind {A B : Type} (m1 m2 : result A)
    (k1 k2 : A -> result B) :
  same_outcome m1 m2 ->
  (forall a : A, same_outcome (k1 a) (k2 a)) ->
  same_outcome (bind m1 k1) (bind m2 k2).
Proof.
  intros Hm Hk. destruct m1, m2; simpl in Hm |- *; try contradiction;
    try exact Hm.
  subst. apply Hk.
Qed.

Lemma check_length_versions (size now_length : Z) :
  same_outcome (check_length size now_length)
    (check_length_baseline size now_length).
Proof.
  unfold check_length, check_length_baseline.
  destruct (now_length >? size) eqn:E1;
    destruct (now_length >? 16) eqn:E2;
    destruct (now_length >? Z.min 16 size) eqn:E3;
    rewrite Z.gtb_ltb in E1, E2, E3;
    try apply Z.ltb_lt in E1; try apply Z.ltb_ge in E1;
    try apply Z.ltb_lt in E2; try apply Z.ltb_ge in E2;
    try apply Z.ltb_lt in E3; try apply Z.ltb_ge in E3;
    try lia; simpl; auto.
Qed.

Lemma Build_loop_versions (size : Z) (values : list Z) :
  forall st : list Z * Z * t,
    same_outcome (Build_loop check_length size values st)
      (Build_loop check_length_baseline size values st).
Proof.
  induction values as [|v values IH]; intros st; cbn [Build_loop].
  - reflexivity.
  - apply same_outcome_bind; [|exact IH].
    destruct st as [[cl nl] tree]. unfold Build_step.
    apply same_outcome_bind; [apply same_outcome_refl|]. intros nl'.
    apply same_outcome_bind; [apply check_length_versions|]. intros _.
    apply same_outcome_refl.
Qed.

(** X28: the two versions of [Build] agree.  On the same histogram and
    values they return the same tree, or both throw (with the same message,
    except that [baseline/huffman.cpp] says "Too big code length" where
    [huffman/huffman.cpp] says "Too small code lengths sum"), or both read
    past the end of the histogram. *)
Theorem Build_versions_agree (code_lengths values : list Z) :
  same_outcome (Build code_lengths values)
    (Build_baseline code_lengths values).
Proof.
  unfold Build, Build_baseline, Build_with.
  apply same_outcome_bind; [apply Build_loop_versions|].
  intros [[cl nl] tree]. apply same_outcome_refl.
Qed.

End HuffmanVersions.
